(** * input-remapper injection core: a shallow embedding and its properties

    The development follows the Python sources of the injection engine:
    - [mapping_handlers/mapping_parser.py] (handler classification, wrapping,
      ranking),
    - [event_reader.py] (per-source event distribution),
    - [mapping_handlers/abs_to_btn_handler.py], [mapping_handlers/key_handler.py],
    - [global_uinputs.py] (the registry of output devices),
    - [macros/macro.py] (the macro interpreter).

    Python exceptions are values of [exn]; a call that may raise returns a
    [result].  Mutable objects are threaded explicitly, coroutines are
    functions of a state and of a schedule of what happens while they are
    suspended.  The first part embeds the sources, the second names what the
    properties speak about, the third proves the properties of the
    specification, the fourth further properties of the code. *)

From Stdlib Require Import ZArith QArith Lia Bool Ascii String SpecFloat.
From stdpp Require Import base option list sorting gmap strings.

Local Open Scope Z_scope.
Local Open Scope nat_scope.

(** ** Exceptions *)

Inductive exn : Type :=
  | MappingParsingError (msg : string)
  | NotImplementedError
  | ValueError
  | KeyError
  | TypeError
  | AttributeError
  | ZeroDivisionError
  | MacroParsingError
  | UinputNotAvailable
  | EventNotHandled
  | AssertionError
  | IndexError
  | RecursionError
  | OverflowError
  | OSError.

Inductive result (A : Type) : Type :=
  | Ok (a : A)
  | Raise (e : exn).
Arguments Ok {A} a.
Arguments Raise {A} e.

#[global] Instance exn_eq_dec : EqDecision exn.
Proof. solve_decision. Defined.
#[global] Instance result_eq_dec {A} `{EqDecision A} : EqDecision (result A).
Proof. solve_decision. Defined.

#[global] Instance result_ret : MRet result := λ _ a, Ok a.
#[global] Instance result_bind : MBind result := λ _ _ k r,
  match r with
  | Ok a => k a
  | Raise e => Raise e
  end.

Fixpoint rmapM {A B} (f : A → result B) (l : list A) : result (list B) :=
  match l with
  | [] => Ok []
  | a :: l' => b ← f a; bs ← rmapM f l'; Ok (b :: bs)
  end.

(** ** Python list primitives *)

(** [list.sort(key=...)] is a stable sort; every stable sort returns the same
    list, an insertion that keeps equal keys in arrival order fixes it. *)
Fixpoint insert_by {A} (key : A → nat) (a : A) (l : list A) : list A :=
  match l with
  | [] => [a]
  | b :: l' => if (key a <=? key b)%nat then a :: b :: l' else b :: insert_by key a l'
  end.

Definition sort_by {A} (key : A → nat) (l : list A) : list A :=
  foldr (insert_by key) [] l.

(** The key function of [list.sort] is called once on every element before
    anything moves; an exception of the key function leaves the sort. *)
Definition list_sort_key {A} (key : A → result nat) (l : list A) : result (list A) :=
  keyed ← rmapM (λ a, k ← key a; Ok (k, a)) l;
  Ok (snd <$> sort_by fst keyed).

(** [l[s:e]] *)
Definition slice {A} (l : list A) (s e : nat) : list A := take (e - s) (drop s l).

(** [l[s:e] = sub] *)
Definition set_slice {A} (l : list A) (s e : nat) (sub : list A) : list A :=
  take s l ++ sub ++ drop (s `max` e) l.

(** ** mapping_parser.py: ranking of combinations *)

Module MappingParser.

Section Ranking.
(** The events of a combination, with the [==] of the source as the
    decidable equality. *)
Context {E : Type} `{EqDecision E}.

(** [x.index(common_event)] *)
Fixpoint index (x : list E) (common_event : E) : result nat :=
  match x with
  | [] => Raise ValueError
  | y :: x' =>
      if decide (y = common_event) then Ok 0
      else i ← index x' common_event; Ok (S i)
  end.

(** The generator [ranges_with_constant_length]: the ranges it yields, in
    order, and the exception that ends it, if any.  [n] is [len(x)], [idx]
    the position of the head of the remaining list; [start_idx] never
    exceeds [idx], so that the difference is the one of Python. *)
Fixpoint ranges_loop {A} (len : A → nat) (n idx start_idx last_len : nat)
    (x : list A) : list (nat * nat) * option exn :=
  match x with
  | [] => ([], None)
  | y :: x' =>
      let y1 := if bool_decide (last_len < len y ∧ 1 < idx - start_idx)
                then [(start_idx, idx)] else [] in
      let y2 := if bool_decide (len y = last_len ∧ idx + 1 = n)
                then [(start_idx, idx + 1)] else [] in
      let start_idx' := if bool_decide (last_len < len y) then idx else start_idx in
      if bool_decide (len y < last_len)
      then (y1 ++ y2,
            Some (MappingParsingError
                    "ranges_with_constant_length was called with an unordered list"))
      else
        let '(ys, e) := ranges_loop len n (S idx) start_idx' (len y) x' in
        (y1 ++ y2 ++ ys, e)
  end.

Definition ranges_with_constant_length {A} (len : A → nat) (x : list A)
    : list (nat * nat) * option exn :=
  ranges_loop len (length x) 0 0 0 x.

(** The body of the [for start, end in ...] loop of [_order_combinations],
    run over the yielded ranges. *)
Fixpoint order_ranges (common_event : E) (rs : list (nat * nat))
    (combinations : list (list E)) : result (list (list E)) :=
  match rs with
  | [] => Ok combinations
  | (s, e) :: rs' =>
      sub_list ← list_sort_key (λ x, index x common_event) (slice combinations s e);
      order_ranges common_event rs' (set_slice combinations s e sub_list)
  end.

(** The generator runs over a copy of the list sorted by length, the loop
    sorts the ranges of the list itself. *)
Definition _order_combinations (combinations : list (list E)) (common_event : E)
    : result (list (list E)) :=
  let combinations := sort_by length combinations in
  let '(rs, e) := ranges_with_constant_length length combinations in
  combinations ← order_ranges common_event rs combinations;
  match e with
  | Some err => Raise err
  | None => Ok (reverse combinations)
  end.

End Ranking.

End MappingParser.

(** ** evdev constants and events *)

Module ecodes.
Definition EV_SYN : Z := 0.
Definition EV_KEY : Z := 1.
Definition EV_REL : Z := 2.
Definition EV_ABS : Z := 3.
Definition EV_MSC : Z := 4.
Definition REL_X : Z := 0.
Definition REL_Y : Z := 1.
Definition REL_HWHEEL : Z := 6.
Definition REL_WHEEL : Z := 8.
End ecodes.

Module evdev.
(** [evdev.InputEvent] *)
Record InputEvent : Type := mkInputEvent {
  sec : Z;
  usec : Z;
  type : Z;
  code : Z;
  value : Z;
}.
End evdev.

#[global] Instance evdev_InputEvent_eq_dec : EqDecision evdev.InputEvent.
Proof. solve_decision. Defined.

(** ** event_reader.py *)

Module EventReader.
Import ecodes.

Definition copy_event (event : evdev.InputEvent) : evdev.InputEvent :=
  evdev.mkInputEvent (evdev.sec event) (evdev.usec event) (evdev.type event)
    (evdev.code event) (evdev.value event).

(** A notify callback of the context: the event it gets decides whether it
    reports the event as handled.  Listeners are coroutines that are only
    scheduled; [name] tells them apart. *)
Record Callback : Type := mkCallback {
  cb_name : nat;
  cb_call : evdev.InputEvent → bool;
}.

(** [context.callbacks] is a dictionary, a key is written at most once in
    the association list; [context.listeners] is the set in the order its
    copy is iterated. *)
Record Context : Type := mkContext {
  callbacks : list ((Z * Z) * list Callback);
  listeners : list nat;
}.

(** What a call of [handle] does to the world outside the reader. *)
Inductive effect : Type :=
  | ListenerScheduled (listener : nat) (event : evdev.InputEvent)
  | Slept0
  | CallbackCalled (callback : nat) (event : evdev.InputEvent)
  | ForwardWritten (type code value : Z).

#[global] Instance effect_eq_dec : EqDecision effect.
Proof. solve_decision. Defined.

Definition dict_get {V} (d : list ((Z * Z) * V)) (k : Z * Z) : option V :=
  (λ iv, iv.2.2) <$> list_find (λ kv, kv.1 = k) d.

Definition send_to_handlers (context : Context) (event : evdev.InputEvent)
    : bool * list effect :=
  if decide (evdev.type event = EV_MSC) then (false, [])
  else if decide (evdev.type event = EV_SYN) then (false, [])
  else
    match dict_get (callbacks context) (evdev.type event, evdev.code event) with
    | Some cbs =>
        let results := (λ cb, cb_call cb (copy_event event)) <$> cbs in
        (bool_decide (true ∈ results),
         (λ cb, CallbackCalled (cb_name cb) (copy_event event)) <$> cbs)
    | None => (false, [])
    end.

Definition send_to_listeners (context : Context) (event : evdev.InputEvent)
    : list effect :=
  if decide (evdev.type event = EV_MSC) then []
  else if decide (evdev.type event = EV_SYN) then []
  else listeners context ≫= λ listener, [ListenerScheduled listener event; Slept0].

Definition forward (event : evdev.InputEvent) : list effect :=
  [ForwardWritten (evdev.type event) (evdev.code event) (evdev.value event)].

Definition handle (context : Context) (event : evdev.InputEvent) : list effect :=
  if decide (evdev.type event = EV_KEY ∧ evdev.value event = 2%Z) then []
  else
    let to_listeners := send_to_listeners context event in
    let '(handled, to_handlers) := send_to_handlers context event in
    to_listeners ++ to_handlers ++ (if handled then [] else forward event).

(** [run]: the loop over the events that the source delivers.  The handlers
    behind the callbacks have state, a callback may answer differently from
    one event to the next: every event comes with the context as it answers
    when the event arrives.  The log lines before and after the loop are no
    effect on a device. *)
Definition run (reads : list (Context * evdev.InputEvent)) : list effect :=
  reads ≫= λ r, handle r.1 r.2.

Definition is_listener_effect (e : effect) : bool :=
  match e with ListenerScheduled _ _ => true | _ => false end.
Definition is_callback_effect (e : effect) : bool :=
  match e with CallbackCalled _ _ => true | _ => false end.
Definition is_forward_effect (e : effect) : bool :=
  match e with ForwardWritten _ _ _ => true | _ => false end.
End EventReader.

(** ** The events of the handlers *)

(** The action tag of an [InputEvent]; the handlers below set [as_key]. *)
Inductive EventActions : Type :=
  | as_key.

(** [inputremapper.input_event.InputEvent]: immutable, [modify] builds a new
    event. *)
Record InputEvent : Type := mkInputEvent {
  sec : Z;
  usec : Z;
  type : Z;
  code : Z;
  value : Z;
  action : option EventActions;
}.

#[global] Instance EventActions_eq_dec : EqDecision EventActions.
Proof. solve_decision. Defined.
#[global] Instance InputEvent_eq_dec : EqDecision InputEvent.
Proof. solve_decision. Defined.

Definition type_and_code (event : InputEvent) : Z * Z := (type event, code event).

(** [event.modify(value=v, action=a)] *)
Definition modify (event : InputEvent) (v : Z) (a : EventActions) : InputEvent :=
  mkInputEvent (sec event) (usec event) (type event) (code event) v (Some a).

(** Python's [bool(n)] on an integer. *)
Definition py_bool (n : Z) : bool := negb (n =? 0)%Z.

(** Python's [int(x)] on a number: truncation toward zero. *)
Definition py_int (x : Q) : Z := Z.quot (Qnum x) (Z.pos (Qden x)).

(** ** abs_to_btn_handler.py *)

Module AbsToBtnHandler.
Import ecodes.

(** [evdev.AbsInfo] *)
Record AbsInfo : Type := mkAbsInfo {
  abs_value : Z;
  abs_min : Z;
  abs_max : Z;
  abs_fuzz : Z;
  abs_flat : Z;
  abs_resolution : Z;
}.

(** The source device: [capabilities(absinfo=True)] as the dictionary from
    event type to the list of its entries, and for [EV_ABS] an entry is a
    pair of a code and its [AbsInfo]. *)
Record InputDevice : Type := mkInputDevice {
  capabilities : list (Z * list (Z * AbsInfo));
}.

(** The handler object; [S] is the state of the wrapped sub-handler. *)
Record t (S : Type) : Type := mkHandler {
  _input_event : InputEvent;
  _active : bool;
  _sub_handler : S;
}.
Arguments mkHandler {S} _ _ _.
Arguments _input_event {S} _.
Arguments _active {S} _.
Arguments _sub_handler {S} _.

(** [__init__]: the combination has exactly one event, of non-zero value. *)
Definition __init__ {S} (combination : list InputEvent) (sub : S) : result (t S) :=
  match combination with
  | [e] => if decide (value e = 0%Z) then Raise AssertionError
           else Ok (mkHandler e false sub)
  | [] => Raise IndexError
  | e :: _ => Raise AssertionError
  end.

(** [_trigger_point], with the float arithmetic of the source taken as exact
    rational arithmetic: [half_range] and [middle] are multiples of one
    half, and the quotient by 100 stays a multiple of 1/200, far from the
    rounding error of a double for the 32 bit ranges a device reports. *)
Definition _trigger_point {S} (self : t S) (abs_min abs_max : Z) : Z :=
  if decide (abs_min = (-1)%Z ∧ abs_max = 1%Z) then 0%Z
  else
    let half_range := (inject_Z (abs_max - abs_min) / 2)%Q in
    let middle := (half_range + inject_Z abs_min)%Q in
    let trigger_offset := (half_range * inject_Z (value (_input_event self)) / 100)%Q in
    py_int (middle + trigger_offset)%Q.

(** The dictionary comprehension over the [EV_ABS] entries: a later entry of
    the same code overwrites an earlier one. *)
Definition absinfo_dict (entries : list (Z * AbsInfo)) : gmap Z AbsInfo :=
  foldl (λ d entry, <[entry.1 := entry.2]> d) ∅ entries.

Definition dict_item {K V} `{EqDecision K} (d : list (K * V)) (k : K) : result V :=
  match list_find (λ kv, kv.1 = k) d with
  | Some (_, (_, v)) => Ok v
  | None => Raise KeyError
  end.

Section notify.
Context {S : Type}.
(** [self._sub_handler.notify(event, source=..., forward=..., supress=...)] *)
Context (sub_notify : InputEvent → bool → S → bool * S).

Definition notify (self : t S) (event : InputEvent) (source : InputDevice)
    (supress : bool) : result (bool * t S) :=
  if decide (type_and_code event ≠ type_and_code (_input_event self))
  then Ok (false, self)
  else
    entries ← dict_item (capabilities source) EV_ABS;
    info ← match absinfo_dict entries !! code event with
           | Some info => Ok info
           | None => Raise KeyError
           end;
    let trigger_point := _trigger_point self (abs_min info) (abs_max info) in
    let event :=
      if decide (0 < value (_input_event self))%Z then
        if decide (trigger_point < value event)%Z
        then modify event 1 as_key else modify event 0 as_key
      else
        if decide (value event < trigger_point)%Z
        then modify event 1 as_key else modify event 0 as_key in
    if decide (py_bool (value event) = _active self) then Ok (true, self)
    else
      let '(r, sub) := sub_notify event supress (_sub_handler self) in
      Ok (r, mkHandler (_input_event self) (py_bool (value event)) sub).

(** The boolean state [notify] computes for a raw axis value. *)
Definition pressed (self : t S) (info : AbsInfo) (raw : Z) : bool :=
  let trigger_point := _trigger_point self (abs_min info) (abs_max info) in
  if decide (0 < value (_input_event self))%Z
  then bool_decide (trigger_point < raw)%Z
  else bool_decide (raw < trigger_point)%Z.
End notify.

(** *** The same computation on IEEE 754 doubles *)

Definition b64_of_Z (z : Z) : spec_float := binary_normalize 53 1024 z 0 false.

(** [int(x)] on a double. *)
Definition py_int_b64 (x : spec_float) : result Z :=
  match x with
  | S754_zero _ => Ok 0%Z
  | S754_finite s m e =>
      let v := match e with
               | Z0 => Z.pos m
               | Zpos p => (Z.pos m * 2 ^ Z.pos p)%Z
               | Zneg p => Z.quot (Z.pos m) (2 ^ Z.pos p)
               end in
      Ok (if s then (- v)%Z else v)
  | S754_infinity _ => Raise OverflowError
  | S754_nan => Raise ValueError
  end.

Definition _trigger_point_b64 (configured abs_min abs_max : Z) : result Z :=
  if decide (abs_min = (-1)%Z ∧ abs_max = 1%Z) then Ok 0%Z
  else
    let half_range := SFdiv 53 1024 (b64_of_Z (abs_max - abs_min)) (b64_of_Z 2) in
    let middle := SFadd 53 1024 half_range (b64_of_Z abs_min) in
    let trigger_offset :=
      SFdiv 53 1024 (SFmul 53 1024 half_range (b64_of_Z configured)) (b64_of_Z 100) in
    py_int_b64 (SFadd 53 1024 middle trigger_offset).
End AbsToBtnHandler.

(** ** key_handler.py *)

Module KeyHandler.

(** Modelled from the spec: the exceptions derived from
    [inputremapper.exceptions.Error], a module outside of the files at hand.
    "output write fails because device unavailable or incompatible code":
    these two failures of a write are among them. *)
Definition is_Error (e : exn) : bool :=
  match e with
  | UinputNotAvailable | EventNotHandled | MappingParsingError _ | MacroParsingError => true
  | _ => false
  end.

Record t : Type := mkHandler {
  _maps_to : Z * Z;
  _active : bool;
  target_uinput : string;
}.

Section notify.
(** [G] is the state of [global_uinputs]; [write] is its method
    [write(event_tuple, target_uinput)], which raises when it fails. *)
Context {G : Type}.
Context (write : Z * Z * Z → string → G → result () * G).

Definition notify (self : t) (event : InputEvent) (g : G) : result bool * t * G :=
  let event_tuple := (fst (_maps_to self), snd (_maps_to self), value event) in
  match write event_tuple (target_uinput self) g with
  | (Ok _, g') =>
      (Ok true, mkHandler (_maps_to self) (py_bool (value event)) (target_uinput self), g')
  | (Raise e, g') =>
      if is_Error e then (Ok false, self, g') else (Raise e, self, g')
  end.
End notify.
End KeyHandler.

(** ** global_uinputs.py *)

Module GlobalUInputs.

(** A [UInput]: the capabilities it was created with and what was written
    to it. *)
Record UInput : Type := mkUInput {
  capabilities : list (Z * list Z);
  written : list (Z * Z * Z);
}.

Definition t : Type := gmap string UInput.

Definition can_emit (u : UInput) (event : Z * Z * Z) : bool :=
  match list_find (λ kv, kv.1 = event.1.1) (capabilities u) with
  | Some (_, (_, codes)) => bool_decide (event.1.2 ∈ codes)
  | None => false
  end.

Definition get_uinput (self : t) (name : string) : option UInput := self !! name.

(** Modelled from the spec: [GlobalUInputs.write], whose source is not part
    of the files at hand.  "fails ... if the named device cannot accept the
    event": a missing device and a code outside of the capabilities of the
    device raise, otherwise the event is written to the device. *)
Definition write (event : Z * Z * Z) (target_uinput : string) (self : t)
    : result () * t :=
  match get_uinput self target_uinput with
  | None => (Raise UinputNotAvailable, self)
  | Some u =>
      if can_emit u event
      then (Ok (), <[target_uinput := mkUInput (capabilities u) (written u ++ [event])]> self)
      else (Raise EventNotHandled, self)
  end.
End GlobalUInputs.

(** ** macros/macro.py *)

Module Macro.
Import ecodes.

(** *** Values and variables *)

(** The values a macro parameter or a stored variable can take;
    [VVariable name] is an object of the class [Variable]. *)
Inductive pyvalue : Type :=
  | VNone
  | VInt (z : Z)
  | VFloat (q : Q)
  | VStr (s : string)
  | VVariable (name : string).

(** The [==] of Python on these values; [Variable] has no [__eq__] and the
    store hands out copies, so two [Variable] objects are never equal. *)
Definition py_eq (a b : pyvalue) : bool :=
  match a, b with
  | VNone, VNone => true
  | VInt x, VInt y => (x =? y)%Z
  | VInt x, VFloat q | VFloat q, VInt x => Qeq_bool (inject_Z x) q
  | VFloat p, VFloat q => Qeq_bool p q
  | VStr s, VStr s' => bool_decide (s = s')
  | _, _ => false
  end.

(** The entries of an [allowed_types] list that are used at run time. *)
Inductive pytype : Type :=
  | t_int
  | t_float
  | t_None.

(** Modelled from the spec: the shared variable store [macro_variables], a
    [SharedDict] whose source is not part of the files at hand; "process-wide
    named-value map ... written by set, read lazily by resolve".  [get] of
    an unset name is [None]. *)
Abbreviation SharedDict := (gmap string pyvalue).

(** Modelled from the spec: [SharedDict.get], which answers [None] for a
    name that was never written. *)
Definition SharedDict_get (d : SharedDict) (name : string) : pyvalue :=
  default VNone (d !! name).

Section values.
(** [int(s)] and [float(s)] on a string, [None] when they raise
    [ValueError]. *)
Context (int_of_str : string → option Z) (float_of_str : string → option Q).

(** [allowed_type(value)], [None] when it raises [TypeError] or
    [ValueError]. *)
Definition cast (ty : pytype) (v : pyvalue) : option pyvalue :=
  match ty, v with
  | t_int, VInt z => Some (VInt z)
  | t_int, VFloat q => Some (VInt (py_int q))
  | t_int, VStr s => VInt <$> int_of_str s
  | t_float, VInt z => Some (VFloat (inject_Z z))
  | t_float, VFloat q => Some (VFloat q)
  | t_float, VStr s => VFloat <$> float_of_str s
  | _, _ => None
  end.

Fixpoint _type_check_loop (v : pyvalue) (allowed_types : list pytype)
    : result pyvalue :=
  match allowed_types with
  | [] => Raise MacroParsingError
  | t_None :: tys =>
      match v with
      | VNone => Ok v
      | _ => _type_check_loop v tys
      end
  | ty :: tys =>
      match cast ty v with
      | Some v' => Ok v'
      | None => _type_check_loop v tys
      end
  end.

Definition _type_check (v : pyvalue) (allowed_types : list pytype) : result pyvalue :=
  match v with
  | VVariable _ => Ok v
  | _ => _type_check_loop v allowed_types
  end.

(** [Variable.resolve] *)
Definition Variable_resolve (macro_variables : SharedDict) (name : string) : pyvalue :=
  SharedDict_get macro_variables name.

(** [_resolve(argument, allowed_types)]; the empty list stands for
    [allowed_types=None]. *)
Definition _resolve (macro_variables : SharedDict) (argument : pyvalue)
    (allowed_types : list pytype) : result pyvalue :=
  match argument with
  | VVariable name =>
      let v := Variable_resolve macro_variables name in
      match allowed_types with
      | [] => Ok v
      | _ => _type_check v allowed_types
      end
  | _ => Ok argument
  end.
End values.

(** *** The macro object *)

(** The coroutines appended to [self.tasks]; a child macro captured by a
    task is named by its position in [self.child_macros].  The tasks of
    [if_tap] and [if_single], which race against a timer and listen to the
    event reader, are left out. *)
Inductive Task : Type :=
  | TKey (code : Z)
  | TEvent (type code value : pyvalue)
  | TKeycodePause
  | TWait (time : pyvalue)
  | THold
  | THoldKey (code : pyvalue)
  | THoldMacro (macro : nat)
  | TModify (code : Z) (macro : nat)
  | TRepeat (repeats : pyvalue) (macro : nat)
  | TSet (variable : string) (value : pyvalue)
  | TIfeq (variable : string) (value : pyvalue) (then_ otherwise : option nat)
  | TIfEq (value_1 value_2 : pyvalue) (then_ else_ : option nat)
  | TMouse (code value : Z) (speed : pyvalue)
  | TWheel (code value : Z) (speed : pyvalue).

#[local] Unset Elimination Schemes.
(** The macro object.  Its capability sets are bookkeeping for the creation
    of the output device and do not take part in what follows. *)
Inductive t : Type := mkMacro {
  code : option string;
  tasks : list Task;
  _trigger_release_event : bool;
  _trigger_press_event : bool;
  running : bool;
  keystroke_sleep_ms : option Z;
  _triggering_event : option evdev.InputEvent;
  child_macros : list t;
}.
#[local] Set Elimination Schemes.

Definition __init__ (code : option string) : t :=
  mkMacro code [] true false false None None [].

Definition is_holding (self : t) : bool := negb (_trigger_release_event self).

Fixpoint press_trigger (self : t) (event : evdev.InputEvent) : t :=
  if is_holding self then self
  else
    mkMacro (code self) (tasks self) false true (running self)
      (keystroke_sleep_ms self) (Some event)
      ((λ macro, press_trigger macro event) <$> child_macros self).

Fixpoint release_trigger (self : t) : t :=
  mkMacro (code self) (tasks self) true false (running self)
    (keystroke_sleep_ms self) (_triggering_event self)
    (release_trigger <$> child_macros self).

Definition tasks_append (task : Task) (self : t) : t :=
  mkMacro (code self) (tasks self ++ [task]) (_trigger_release_event self)
    (_trigger_press_event self) (running self) (keystroke_sleep_ms self)
    (_triggering_event self) (child_macros self).

Definition child_macros_append (macro : t) (self : t) : t :=
  mkMacro (code self) (tasks self) (_trigger_release_event self)
    (_trigger_press_event self) (running self) (keystroke_sleep_ms self)
    (_triggering_event self) (child_macros self ++ [macro]).

Definition set_running (b : bool) (self : t) : t :=
  mkMacro (code self) (tasks self) (_trigger_release_event self)
    (_trigger_press_event self) b (keystroke_sleep_ms self)
    (_triggering_event self) (child_macros self).

Definition set_keystroke_sleep_ms (ms : option Z) (self : t) : t :=
  mkMacro (code self) (tasks self) (_trigger_release_event self)
    (_trigger_press_event self) (running self) ms
    (_triggering_event self) (child_macros self).

(** *** Functions that prepare the macro *)

(** The argument of [hold]: nothing, a key name, a variable or a macro. *)
Inductive hold_arg : Type :=
  | HoldNone
  | HoldKey (symbol : string)
  | HoldVariable (name : string)
  | HoldMacro (macro : t).

Section prepare.
(** [system_mapping.get] *)
Context (system_mapping : string → option Z).
Context (int_of_str : string → option Z) (float_of_str : string → option Q).

Definition _type_check_keyname (symbol : string) : result Z :=
  match system_mapping symbol with
  | Some code => Ok code
  | None => Raise MacroParsingError
  end.

Definition add_hold (self : t) (macro : hold_arg) : result t :=
  match macro with
  | HoldNone => Ok (tasks_append THold self)
  | HoldKey symbol =>
      code ← _type_check_keyname symbol;
      Ok (tasks_append (THoldKey (VInt code)) self)
  | HoldVariable name => Ok (tasks_append (THoldKey (VVariable name)) self)
  | HoldMacro macro =>
      Ok (child_macros_append macro
            (tasks_append (THoldMacro (length (child_macros self))) self))
  end.

Definition add_modify (self : t) (modifier : string) (macro : t) : result t :=
  match system_mapping modifier with
  | None => Raise MacroParsingError
  | Some code =>
      Ok (tasks_append (TModify code (length (child_macros self)))
            (child_macros_append macro self))
  end.

Definition add_repeat (self : t) (repeats : pyvalue) (macro : t) : result t :=
  repeats ← _type_check int_of_str float_of_str repeats [t_int];
  Ok (child_macros_append macro
        (tasks_append (TRepeat repeats (length (child_macros self))) self)).

Definition add_key (self : t) (symbol : string) : result t :=
  code ← _type_check_keyname symbol;
  Ok (tasks_append (TKey code) self).

(** [add_event] on a type and a code that are integers already. *)
Definition add_event (self : t) (_type code : Z) (value : pyvalue) : result t :=
  Ok (tasks_append TKeycodePause
        (tasks_append (TEvent (VInt _type) (VInt code) value) self)).

Definition add_wait (self : t) (time : pyvalue) : result t :=
  time ← _type_check int_of_str float_of_str time [t_int; t_float];
  Ok (tasks_append (TWait time) self).

(** [^[A-Za-z_][A-Za-z_0-9]*$] *)
Definition is_name_start (c : ascii) : bool :=
  let n := nat_of_ascii c in
  ((65 <=? n) && (n <=? 90)) || ((97 <=? n) && (n <=? 122)) || (n =? 95).
Definition is_name_char (c : ascii) : bool :=
  let n := nat_of_ascii c in
  is_name_start c || ((48 <=? n) && (n <=? 57)).
Fixpoint all_name_chars (s : string) : bool :=
  match s with
  | EmptyString => true
  | String c EmptyString => is_name_char c || bool_decide (c = "010"%char)
  | String c s' => is_name_char c && all_name_chars s'
  end.
Definition _type_check_variablename (name : string) : result () :=
  match name with
  | String c s' =>
      if is_name_start c && all_name_chars s'
      then Ok () else Raise MacroParsingError
  | EmptyString => Raise MacroParsingError
  end.

Definition add_set (self : t) (variable : string) (value : pyvalue) : result t :=
  _ ← _type_check_variablename variable;
  Ok (tasks_append (TSet variable value) self).

Definition add_if_eq (self : t) (value_1 value_2 : pyvalue) (then_ else_ : option t)
    : result t :=
  let n := length (child_macros self) in
  let then_idx := (λ _, n) <$> then_ in
  let else_idx := (λ _, n + length (option_list then_)) <$> else_ in
  let self := foldl (λ m c, child_macros_append c m) self
                (option_list then_ ++ option_list else_) in
  Ok (tasks_append (TIfEq value_1 value_2 then_idx else_idx) self).

Definition mouse_direction (direction : string) : result (Z * Z) :=
  if decide (direction = "up") then Ok (REL_Y, -1)%Z
  else if decide (direction = "down") then Ok (REL_Y, 1)%Z
  else if decide (direction = "left") then Ok (REL_X, -1)%Z
  else if decide (direction = "right") then Ok (REL_X, 1)%Z
  else Raise KeyError.

(** [add_mouse] on a direction in lower case. *)
Definition add_mouse (self : t) (direction : string) (speed : pyvalue) : result t :=
  speed ← _type_check int_of_str float_of_str speed [t_int];
  cv ← mouse_direction direction;
  Ok (tasks_append (TMouse cv.1 cv.2 speed) self).

Definition wheel_direction (direction : string) : result (Z * Z) :=
  if decide (direction = "up") then Ok (REL_WHEEL, 1)%Z
  else if decide (direction = "down") then Ok (REL_WHEEL, -1)%Z
  else if decide (direction = "left") then Ok (REL_HWHEEL, 1)%Z
  else if decide (direction = "right") then Ok (REL_HWHEEL, -1)%Z
  else Raise KeyError.

(** [add_wheel] on a direction in lower case. *)
Definition add_wheel (self : t) (direction : string) (speed : pyvalue) : result t :=
  speed ← _type_check int_of_str float_of_str speed [t_int];
  cv ← wheel_direction direction;
  Ok (tasks_append (TWheel cv.1 cv.2 speed) self).
End prepare.

(** *** Running a macro *)

(** A macro inside the tree of the outermost macro, by child positions. *)
Definition path : Type := list nat.

Fixpoint get_at (p : path) (m : t) : option t :=
  match p with
  | [] => Some m
  | i :: p' => child_macros m !! i ≫= get_at p'
  end.

Fixpoint update_at (p : path) (f : t → t) (m : t) : t :=
  match p with
  | [] => f m
  | i :: p' =>
      mkMacro (code m) (tasks m) (_trigger_release_event m) (_trigger_press_event m)
        (running m) (keystroke_sleep_ms m) (_triggering_event m)
        (alter (update_at p' f) i (child_macros m))
  end.

(** What the rest of the event loop does to the outermost macro while a
    coroutine is suspended. *)
Inductive trigger_call : Type :=
  | PressTrigger (event : evdev.InputEvent)
  | ReleaseTrigger.

#[global] Instance trigger_call_eq_dec : EqDecision trigger_call.
Proof. solve_decision. Defined.

Definition apply_call (m : t) (c : trigger_call) : t :=
  match c with
  | PressTrigger event => press_trigger m event
  | ReleaseTrigger => release_trigger m
  end.

(** The calls that arrive during each of the coming suspensions. *)
Definition schedule : Type := list (list trigger_call).

(** The state of the injection process as far as macros see it: the
    outermost macro, the shared store, and the calls of the write function
    [handler(type, code, value)] so far. *)
Record State : Type := mkState {
  root : t;
  macro_variables : SharedDict;
  written : list (pyvalue * pyvalue * pyvalue);
}.

(** A coroutine: from a state and a schedule either a result or an
    exception, or nothing when it never completes. *)
Definition coro (A : Type) : Type :=
  State → schedule → option (result A * State * schedule).

Definition ret {A} (a : A) : coro A := λ σ env, Some (Ok a, σ, env).
Definition raise {A} (e : exn) : coro A := λ σ env, Some (Raise e, σ, env).
Definition never {A} : coro A := λ _ _, None.
Definition bind {A B} (c : coro A) (k : A → coro B) : coro B := λ σ env,
  match c σ env with
  | Some (Ok a, σ', env') => k a σ' env'
  | Some (Raise e, σ', env') => Some (Raise e, σ', env')
  | None => None
  end.
Definition lift {A} (r : result A) : coro A :=
  match r with
  | Ok a => ret a
  | Raise e => raise e
  end.

Notation "'let*' x ':=' c 'in' k" := (bind c (λ x, k))
  (at level 10, x name, c at level 100, k at level 200).
Notation "c ';;' k" := (bind c (λ _, k))
  (at level 100, k at level 200, right associativity).

Definition get_self (self : path) : coro t := λ σ env,
  match get_at self (root σ) with
  | Some m => Some (Ok m, σ, env)
  | None => None
  end.

Definition modify_self (self : path) (f : t → t) : coro () := λ σ env,
  Some (Ok (), mkState (update_at self f (root σ)) (macro_variables σ) (written σ), env).

Definition get_variables : coro SharedDict := λ σ env,
  Some (Ok (macro_variables σ), σ, env).

Definition set_variable (name : string) (v : pyvalue) : coro () := λ σ env,
  Some (Ok (), mkState (root σ) (<[name := v]> (macro_variables σ)) (written σ), env).

(** [handler(type, code, value)] *)
Definition handler (type code value : pyvalue) : coro () := λ σ env,
  Some (Ok (), mkState (root σ) (macro_variables σ) (written σ ++ [(type, code, value)]), env).

Definition apply_calls (calls : list trigger_call) (σ : State) : State :=
  mkState (foldl apply_call (root σ) calls) (macro_variables σ) (written σ).

(** [await asyncio.sleep(...)]: the coroutine is suspended once; a schedule
    that has run out means that nothing else happens any more. *)
Definition sleep : coro () := λ σ env,
  match env with
  | [] => Some (Ok (), σ, [])
  | calls :: env' => Some (Ok (), apply_calls calls σ, env')
  end.

(** [await event.wait()] on an event that is not set: the coroutine is woken
    by the suspension during which [set()] is called.  [release_trigger] of
    the outermost macro reaches every macro below it. *)
Fixpoint await_release (env : schedule) (σ : State) : option (result () * State * schedule) :=
  match env with
  | [] => None
  | calls :: env' =>
      if bool_decide (ReleaseTrigger ∈ calls)
      then Some (Ok (), apply_calls calls σ, env')
      else await_release env' (apply_calls calls σ)
  end.

(** [await self._trigger_release_event.wait()] *)
Definition wait_release (self : path) : coro () :=
  let* m := get_self self in
  if _trigger_release_event m then ret ()
  else λ σ env, await_release env σ.

(** The use of a resolved value as a number, [TypeError] otherwise. *)
Definition as_int (v : pyvalue) : result Z :=
  match v with
  | VInt z => Ok z
  | _ => Raise TypeError
  end.
Definition as_number (v : pyvalue) : result Q :=
  match v with
  | VInt z => Ok (inject_Z z)
  | VFloat q => Ok q
  | _ => Raise TypeError
  end.

(** [while self.is_holding(): body], for at most [n] rounds. *)
Fixpoint while_holding (n : nat) (self : path) (body : coro ()) : coro () :=
  match n with
  | 0 => never
  | S n' =>
      let* m := get_self self in
      if is_holding m then (body;; while_holding n' self body)
      else ret ()
  end.

(** [for _ in range(n): body] *)
Fixpoint for_range (n : nat) (body : coro ()) : coro () :=
  match n with
  | 0 => ret ()
  | S n' => body;; for_range n' body
  end.

(** [for task in self.tasks: try: await task(handler) except Exception: break] *)
Fixpoint run_tasks (exec : Task → coro ()) (ts : list Task) : coro () :=
  match ts with
  | [] => ret ()
  | task :: ts' => λ σ env,
      match exec task σ env with
      | Some (Ok _, σ', env') => run_tasks exec ts' σ' env'
      | Some (Raise _, σ', env') => Some (Ok (), σ', env')
      | None => None
      end
  end.

Section run.
Context (int_of_str : string → option Z) (float_of_str : string → option Q).
(** [self.context.preset.get("macros.keystroke_sleep_ms")] *)
Context (macros_keystroke_sleep_ms : Z).

Definition resolve (argument : pyvalue) (allowed_types : list pytype) : coro pyvalue :=
  let* d := get_variables in
  lift (_resolve int_of_str float_of_str d argument allowed_types).

Definition _keycode_pause (self : path) : coro () :=
  let* m := get_self self in
  match keystroke_sleep_ms m with
  | Some _ => sleep
  | None => raise TypeError
  end.

Definition run_opt (run_child : path → coro ()) (self : path) (macro : option nat)
    : coro () :=
  match macro with
  | Some i => run_child (self ++ [i])
  | None => ret ()
  end.

(** The body of each task; [run_child] is [macro.run(handler)] of a child
    and [fuel] bounds the rounds of the loops on [is_holding]. *)
Definition exec_task (fuel : nat) (run_child : path → coro ()) (self : path)
    (task : Task) : coro () :=
  match task with
  | TKey code =>
      handler (VInt EV_KEY) (VInt code) (VInt 1);;
      _keycode_pause self;;
      handler (VInt EV_KEY) (VInt code) (VInt 0);;
      _keycode_pause self
  | TEvent type code value => handler type code value
  | TKeycodePause => _keycode_pause self
  | TWait time =>
      let* v := resolve time [t_int; t_float] in
      let* _ := lift (as_number v) in
      sleep
  | THold => wait_release self
  | THoldKey code =>
      let* resolved_code := resolve code [t_int] in
      handler (VInt EV_KEY) resolved_code (VInt 1);;
      wait_release self;;
      handler (VInt EV_KEY) resolved_code (VInt 0)
  | THoldMacro macro =>
      while_holding fuel self (run_child (self ++ [macro]))
  | TModify code macro =>
      let* resolved_code := resolve (VInt code) [t_int] in
      _keycode_pause self;;
      handler (VInt EV_KEY) resolved_code (VInt 1);;
      _keycode_pause self;;
      run_child (self ++ [macro]);;
      _keycode_pause self;;
      handler (VInt EV_KEY) resolved_code (VInt 0);;
      _keycode_pause self
  | TRepeat repeats macro =>
      let* v := resolve repeats [t_int] in
      let* n := lift (as_int v) in
      for_range (Z.to_nat n) (run_child (self ++ [macro]))
  | TSet variable value =>
      let* resolved_value := resolve value [] in
      set_variable variable value
  | TIfeq variable value then_ otherwise =>
      let* d := get_variables in
      if py_eq (SharedDict_get d variable) value
      then run_opt run_child self then_
      else run_opt run_child self otherwise
  | TIfEq value_1 value_2 then_ else_ =>
      let* resolved_value_1 := resolve value_1 [] in
      let* resolved_value_2 := resolve value_2 [] in
      if py_eq resolved_value_1 resolved_value_2
      then run_opt run_child self then_
      else run_opt run_child self else_
  | TMouse code value speed =>
      let* v := resolve speed [t_int] in
      let* n := lift (as_int v) in
      while_holding fuel self
        (handler (VInt EV_REL) (VInt code) (VInt (value * n));;
         _keycode_pause self)
  | TWheel code value speed =>
      let* resolved_speed := resolve speed [t_int] in
      while_holding fuel self
        (handler (VInt EV_REL) (VInt code) (VInt value);;
         let* n := lift (as_int resolved_speed) in
         if decide (n = 0%Z) then raise ZeroDivisionError else sleep)
  end.

(** [Macro.run(handler)], for a write function that is callable; [fuel]
    bounds the depth of the calls and the rounds of the loops, a run that
    needs more does not complete. *)
Fixpoint run (fuel : nat) (self : path) : coro () :=
  match fuel with
  | 0 => never
  | S fuel' =>
      let* m := get_self self in
      if running m then ret ()
      else
        modify_self self (set_keystroke_sleep_ms (Some macros_keystroke_sleep_ms));;
        modify_self self (set_running true);;
        run_tasks (exec_task fuel' (run fuel') self) (tasks m);;
        modify_self self (set_running false)
  end.
End run.
End Macro.

(** ** macros/macro.py: the capabilities of a macro *)

Module MacroCapabilities.

(** The macro object as [get_capabilities] reads it: its own
    [capabilities], a dictionary from event types to sets of codes, and its
    child macros. *)
#[local] Unset Elimination Schemes.
Inductive t : Type := mkMacro {
  capabilities : gmap Z (gset Z);
  child_macros : list t;
}.
#[local] Set Elimination Schemes.

(** The loop over [macro_capabilities]: a type that is new gets the empty
    set first, then the codes of the child are added to the set. *)
Definition update (capabilities macro_capabilities : gmap Z (gset Z))
    : gmap Z (gset Z) :=
  map_fold (λ ev_type codes capabilities,
              <[ev_type := default ∅ (capabilities !! ev_type) ∪ codes]> capabilities)
    capabilities macro_capabilities.

(** [get_capabilities]; it works on a deep copy and leaves the macro as it
    is. *)
Fixpoint get_capabilities (self : t) : gmap Z (gset Z) :=
  foldl (λ capabilities macro, update capabilities (get_capabilities macro))
    (capabilities self) (child_macros self).

End MacroCapabilities.

(** ** mapping_parser.py: classification and assembly *)

Module Parser.
Import ecodes.

Inductive HandlerEnums : Type :=
  | abs2btn | rel2btn | macro | key
  | btn2rel | rel2rel | abs2rel
  | btn2abs | rel2abs | abs2abs
  | combination | hierarchy | axisswitch | disable.

(** The handler classes the table of the parser names. *)
Inductive HandlerClass : Type :=
  | AbsToBtnHandler | RelToBtnHandler | MacroHandler | KeyHandler
  | AbsToRelHandler | CombinationHandler | HierarchyHandler
  | AxisSwitchHandler | NullHandler.

Definition mapping_handler_classes (e : HandlerEnums) : option HandlerClass :=
  match e with
  | abs2btn => Some AbsToBtnHandler
  | rel2btn => Some RelToBtnHandler
  | macro => Some MacroHandler
  | key => Some KeyHandler
  | btn2rel => None
  | rel2rel => None
  | abs2rel => Some AbsToRelHandler
  | btn2abs => None
  | rel2abs => None
  | abs2abs => None
  | combination => Some CombinationHandler
  | hierarchy => Some HierarchyHandler
  | axisswitch => Some AxisSwitchHandler
  | disable => Some NullHandler
  end.

(** The fields of a [Mapping] the parser reads. *)
Record Mapping : Type := mkMapping {
  event_combination : list InputEvent;
  output_symbol : option string;
  output_type : option Z;
  output_code : option Z;
  target_uinput : string;
}.

Definition _maps_axis (combination : list InputEvent) : option InputEvent :=
  snd <$> list_find (λ event, value event = 0%Z) combination.

(** The two places at which the parser raises [MappingParsingError] on a
    mapping. *)
Definition err_no_axis_key_macro : exn :=
  MappingParsingError "this mapping does not map to an axis, key or macro".
Definition err_output_unknown : exn :=
  MappingParsingError "the output of mapping is unknown".
Definition err_no_rank_combination : exn :=
  MappingParsingError
    "claims to need ranking but does not return a combination to rank by".

Section classify.
(** [DISABLE_CODE], [DISABLE_NAME] and [is_this_a_macro] come from modules
    outside of the files at hand. *)
Context (DISABLE_CODE : Z) (DISABLE_NAME : string).
Context (is_this_a_macro : string → bool).

Definition _get_output_handler (mapping : Mapping) : result HandlerEnums :=
  if bool_decide (output_code mapping = Some DISABLE_CODE)
     || bool_decide (output_symbol mapping = Some DISABLE_NAME)
  then Ok disable
  else
    match output_symbol mapping with
    | Some (String c s) =>
        if is_this_a_macro (String c s) then Ok macro else Ok key
    | _ =>
        if bool_decide (output_type mapping = Some EV_KEY) then Ok key
        else
          match _maps_axis (event_combination mapping) with
          | None => Raise err_no_axis_key_macro
          | Some input_event =>
              if bool_decide (output_type mapping = Some EV_REL
                              ∧ type input_event = EV_KEY) then Ok btn2rel
              else if bool_decide (output_type mapping = Some EV_REL
                              ∧ type input_event = EV_REL) then Ok rel2rel
              else if bool_decide (output_type mapping = Some EV_REL
                              ∧ type input_event = EV_ABS) then Ok abs2rel
              else if bool_decide (output_type mapping = Some EV_ABS
                              ∧ type input_event = EV_KEY) then Ok btn2abs
              else if bool_decide (output_type mapping = Some EV_ABS
                              ∧ type input_event = EV_REL) then Ok rel2abs
              else if bool_decide (output_type mapping = Some EV_ABS
                              ∧ type input_event = EV_ABS) then Ok abs2abs
              else Raise err_output_unknown
          end
    end.
End classify.

(** The handler objects.  Most of their classes, and the base class, are
    outside of the files at hand; the parser is stated over what it asks of
    them.  [H] names a handler object, with the identity of objects as its
    equality, and [W] is the state of all handler objects, which the
    constructors, [set_sub_handler] and [set_occluded_input_event] change. *)
Class Handlers (H W : Type) : Type := {
  (** [constructor(combination, mapping, context)] of a class of the table *)
  construct : HandlerClass → list InputEvent → Mapping → W → result H * W;
  (** [HierarchyHandler(sub_handlers, event)] *)
  new_hierarchy_handler : list H → InputEvent → W → H * W;
  needs_wrapping : H → W → bool;
  needs_ranking : H → W → bool;
  rank_by : H → W → option (list InputEvent);
  (** the items of the dictionary [wrap_with()] *)
  wrap_with : H → W → list (list InputEvent * HandlerEnums);
  handler_mapping : H → W → Mapping;
  input_events : H → W → list InputEvent;
  set_sub_handler : H → H → W → W;
  set_occluded_input_event : H → InputEvent → W → W;
}.

(** [s.add(x)] on a set, kept as a list without duplicates; the order in
    which Python iterates a set is left open, here it is the order of
    arrival. *)
Definition set_add {A} `{EqDecision A} (x : A) (s : list A) : list A :=
  if decide (x ∈ s) then s else s ++ [x].

Section parse.
Context (DISABLE_CODE : Z) (DISABLE_NAME : string).
Context (is_this_a_macro : string → bool).
Context {H W : Type} `{EqDecision H} {HW : Handlers H W}.
(** The [==] of [EventCombination], which decides the keys of the
    dictionary [need_ranking].  The events of a preset carry no time and no
    action, their [==] is the equality of the records. *)
Context (combination_eqb : list InputEvent → list InputEvent → bool).
(** The depth at which Python gives up a recursion. *)
Context (recursion_limit : nat).

(** [_create_event_pipeline(handler, context, ignore_ranking)]; [depth] is
    what is left of the recursion limit. *)
Fixpoint _create_event_pipeline (depth : nat) (handler : H) (ignore_ranking : bool)
    (w : W) : result (list H) * W :=
  match depth with
  | 0 => (Raise RecursionError, w)
  | S depth' =>
      if negb (needs_wrapping handler w)
         || (needs_ranking handler w && negb ignore_ranking)
      then (Ok [handler], w)
      else
        let wrapped :=
          (fix loop (items : list (list InputEvent * HandlerEnums))
               (handlers : list H) (w : W) : result (list H) * W :=
             match items with
             | [] => (Ok handlers, w)
             | (wrapped_combination, handler_enum) :: items' =>
                 match mapping_handler_classes handler_enum with
                 | None => (Raise NotImplementedError, w)
                 | Some constructor =>
                     match construct constructor wrapped_combination
                             (handler_mapping handler w) w with
                     | (Raise e, w1) => (Raise e, w1)
                     | (Ok super_handler, w1) =>
                         let w2 := set_sub_handler super_handler handler w1 in
                         let w3 := foldl (λ w event,
                                            set_occluded_input_event handler event w)
                                     w2 wrapped_combination in
                         match _create_event_pipeline depth' super_handler false w3 with
                         | (Raise e, w4) => (Raise e, w4)
                         | (Ok hs, w4) => loop items' (handlers ++ hs) w4
                         end
                     end
                 end
             end) (wrap_with handler w) [] w in
        match wrapped with
        | (Raise e, w') => (Raise e, w')
        | (Ok handlers, w') =>
            match input_events handler w' with
            | [] => (Ok handlers, w')
            | _ :: _ => (Ok (handlers ++ [handler]), w')
            end
        end
  end.

(** The first loop of [parse_mappings]. *)
Fixpoint output_handlers (preset : list Mapping) (handlers : list H) (w : W)
    : result (list H) * W :=
  match preset with
  | [] => (Ok handlers, w)
  | mapping :: preset' =>
      match _get_output_handler DISABLE_CODE DISABLE_NAME is_this_a_macro mapping with
      | Raise e => (Raise e, w)
      | Ok handler_enum =>
          match mapping_handler_classes handler_enum with
          | None => (Raise NotImplementedError, w)
          | Some constructor =>
              match construct constructor (event_combination mapping) mapping w with
              | (Raise e, w1) => (Raise e, w1)
              | (Ok output_handler, w1) =>
                  match _create_event_pipeline recursion_limit output_handler false w1 with
                  | (Raise e, w2) => (Raise e, w2)
                  | (Ok hs, w2) => output_handlers preset' (handlers ++ hs) w2
                  end
              end
          end
      end
  end.

(** [need_ranking[combination] = handler] *)
Fixpoint dict_set (d : list (list InputEvent * H)) (k : list InputEvent) (h : H)
    : list (list InputEvent * H) :=
  match d with
  | [] => [(k, h)]
  | (k', h') :: d' =>
      if combination_eqb k' k then (k', h) :: d' else (k', h') :: dict_set d' k h
  end.

(** [handlers[combination]] *)
Definition dict_get (d : list (list InputEvent * H)) (k : list InputEvent) : result H :=
  match list_find (λ kv, combination_eqb kv.1 k = true) d with
  | Some (_, (_, h)) => Ok h
  | None => Raise KeyError
  end.

(** [handlers.remove(handler)] *)
Fixpoint list_remove (h : H) (handlers : list H) : list H :=
  match handlers with
  | [] => []
  | h' :: handlers' =>
      if decide (h' = h) then handlers' else h' :: list_remove h handlers'
  end.

(** The second loop, over a copy of [handlers]. *)
Fixpoint split_ranking (copy : list H) (handlers : list H)
    (need_ranking : list (list InputEvent * H)) (w : W)
    : result (list H * list (list InputEvent * H)) :=
  match copy with
  | [] => Ok (handlers, need_ranking)
  | handler :: copy' =>
      if needs_ranking handler w then
        match rank_by handler w with
        | None | Some [] => Raise err_no_rank_combination
        | Some ranked_by =>
            split_ranking copy' (list_remove handler handlers)
              (dict_set need_ranking ranked_by handler) w
        end
      else split_ranking copy' handlers need_ranking w
  end.

(** The body of the loop over the events of [_create_hierarchy_handlers]. *)
Definition rank_event (handlers : list (list InputEvent * H)) (event : InputEvent)
    (sorted_handlers : list H) (w : W) : result (list H) * W :=
  let combinations_with_event :=
    filter (λ c, event ∈ c) (fst <$> handlers) in
  match combinations_with_event with
  | [only] =>
      match dict_get handlers only with
      | Ok h => (Ok (set_add h sorted_handlers), w)
      | Raise e => (Raise e, w)
      end
  | _ =>
      match MappingParser._order_combinations combinations_with_event event with
      | Raise e => (Raise e, w)
      | Ok sorted_combinations =>
          match rmapM (dict_get handlers) sorted_combinations with
          | Raise e => (Raise e, w)
          | Ok sub_handlers =>
              let '(hierarchy_handler, w1) := new_hierarchy_handler sub_handlers event w in
              (Ok (set_add hierarchy_handler sorted_handlers),
               foldl (λ w handler, set_occluded_input_event handler event w) w1 sub_handlers)
          end
      end
  end.

Fixpoint rank_events (handlers : list (list InputEvent * H)) (events : list InputEvent)
    (sorted_handlers : list H) (w : W) : result (list H) * W :=
  match events with
  | [] => (Ok sorted_handlers, w)
  | event :: events' =>
      match rank_event handlers event sorted_handlers w with
      | (Raise e, w') => (Raise e, w')
      | (Ok sorted_handlers', w') => rank_events handlers events' sorted_handlers' w'
      end
  end.

Definition _create_hierarchy_handlers (handlers : list (list InputEvent * H)) (w : W)
    : result (list H) * W :=
  let events := foldl (λ events c, foldl (λ events event, set_add event events) events c)
                  [] (fst <$> handlers) in
  rank_events handlers events [] w.

(** The loop over the ranked handlers. *)
Fixpoint ranked_pipelines (ranked_handlers : list H) (handlers : list H) (w : W)
    : result (list H) * W :=
  match ranked_handlers with
  | [] => (Ok handlers, w)
  | handler :: ranked' =>
      match _create_event_pipeline recursion_limit handler true w with
      | (Raise e, w') => (Raise e, w')
      | (Ok hs, w') => ranked_pipelines ranked' (handlers ++ hs) w'
      end
  end.

(** The last loop: every handler is entered under each of its input
    events, in the order of the list. *)
Definition pipelines_add (event_pipelines : list (InputEvent * list H))
    (event : InputEvent) (handler : H) : list (InputEvent * list H) :=
  match list_find (λ kv, kv.1 = event) event_pipelines with
  | Some (i, (_, hs)) => <[i := (event, hs ++ [handler])]> event_pipelines
  | None => event_pipelines ++ [(event, [handler])]
  end.

Definition assemble (handlers : list H) (w : W) : list (InputEvent * list H) :=
  foldl (λ event_pipelines handler,
           foldl (λ ep event, pipelines_add ep event handler)
             event_pipelines (input_events handler w))
    [] handlers.

Definition parse_mappings (preset : list Mapping) (w : W)
    : result (list (InputEvent * list H)) * W :=
  match output_handlers preset [] w with
  | (Raise e, w1) => (Raise e, w1)
  | (Ok handlers, w1) =>
      match split_ranking handlers handlers [] w1 with
      | Raise e => (Raise e, w1)
      | Ok (handlers, need_ranking) =>
          match _create_hierarchy_handlers need_ranking w1 with
          | (Raise e, w2) => (Raise e, w2)
          | (Ok ranked_handlers, w2) =>
              match ranked_pipelines ranked_handlers handlers w2 with
              | (Raise e, w3) => (Raise e, w3)
              | (Ok handlers, w3) => (Ok (assemble handlers w3), w3)
              end
          end
      end
  end.
End parse.
End Parser.

(** * Vocabulary of the properties *)

(** The order a sort by [key] establishes. *)
Definition key_le {A} (key : A → nat) : relation A := λ a b, key a ≤ key b.

Section ranking_vocabulary.
Context {E : Type} `{EqDecision E}.
Import MappingParser.

(** The position of the common event, 0 when absent. *)
Definition index_nat (common_event : E) (x : list E) : nat :=
  match index x common_event with
  | Ok i => i
  | Raise _ => 0
  end.

(** Ascending rank: by length, then by the position of the common event. *)
Definition rank_le (common_event : E) : relation (list E) := λ a b,
  length a < length b ∨
  (length a = length b ∧ index_nat common_event a ≤ index_nat common_event b).

End ranking_vocabulary.

(** Axis ranges as devices report them: sticks, triggers, hat switches. *)
Definition common_ranges : list (Z * Z) :=
  [(0, 255); (-128, 127); (0, 1023); (-32768, 32767); (0, 65535); (-1, 1);
   (-512, 511); (0, 4095); (-2147483648, 2147483647)]%Z.

(** A property of a macro and of every macro below it. *)
Fixpoint every_macro (P : Macro.t → Prop) (m : Macro.t) : Prop :=
  P m ∧ (fix go (cs : list Macro.t) : Prop :=
           match cs with
           | [] => True
           | c :: cs' => every_macro P c ∧ go cs'
           end) (Macro.child_macros m).

(** Exactly one of the two latches is set. *)
Definition complementary (m : Macro.t) : Prop :=
  xorb (Macro._trigger_press_event m) (Macro._trigger_release_event m) = true.

(** The macros that [__init__] and the [add_...] functions build: these only
    append to [tasks] and to [child_macros]. *)
Inductive constructed : Macro.t → Prop :=
  | constructed_init code : constructed (Macro.__init__ code)
  | constructed_task m task :
      constructed m → constructed (Macro.tasks_append task m)
  | constructed_child m child :
      constructed m → constructed child → constructed (Macro.child_macros_append child m).

(** A call of [press_trigger] or [release_trigger] on the macro at a path. *)
Definition apply_call_at (m : Macro.t) (pc : Macro.path * Macro.trigger_call) : Macro.t :=
  Macro.update_at pc.1 (λ x, Macro.apply_call x pc.2) m.

(** A mapping whose output the parser cannot classify. *)
Definition unclassifiable DISABLE_CODE DISABLE_NAME is_this_a_macro
    (mapping : Parser.Mapping) : Prop :=
  ∃ msg, Parser._get_output_handler DISABLE_CODE DISABLE_NAME is_this_a_macro mapping
         = Raise (MappingParsingError msg).

(** A mapping whose output is classified as a kind of handler that has a
    class. *)
Definition implemented DISABLE_CODE DISABLE_NAME is_this_a_macro
    (mapping : Parser.Mapping) : Prop :=
  ∃ handler_enum constructor,
    Parser._get_output_handler DISABLE_CODE DISABLE_NAME is_this_a_macro mapping
    = Ok handler_enum ∧
    Parser.mapping_handler_classes handler_enum = Some constructor.

(** [not combination] *)
Definition no_combination (c : option (list InputEvent)) : Prop :=
  c = None ∨ c = Some [].

(** A small world of handlers for the examples: a handler is a number, no
    handler asks to be wrapped, the state is the list of the hierarchy
    handlers built so far, each with its event and sub-handlers, and a macro
    is a symbol with a parenthesis.  [ranked] says whether the handlers claim
    to need ranking, [named] whether they name the combination to rank by. *)
Definition example_is_macro (s : string) : bool :=
  bool_decide ("("%char ∈ list_ascii_of_string s).
Definition example_handlers (ranked named : bool)
    : Parser.Handlers nat (list (InputEvent * list nat)) := {|
  Parser.construct := λ _ c _ w, (Ok (length c), w);
  Parser.new_hierarchy_handler := λ subs event w, (100 + length w, w ++ [(event, subs)]);
  Parser.needs_wrapping := λ _ _, false;
  Parser.needs_ranking := λ _ _, ranked;
  Parser.rank_by := λ _ _, if named then Some [mkInputEvent 0 0 1 30 1 None] else None;
  Parser.wrap_with := λ _ _, [];
  Parser.handler_mapping := λ _ _, Parser.mkMapping [] None None None "";
  Parser.input_events := λ h _, [mkInputEvent 0 0 1 (Z.of_nat h) 1 None];
  Parser.set_sub_handler := λ _ _ w, w;
  Parser.set_occluded_input_event := λ _ _ w, w;
|}.
Definition example_parse (ranked named : bool) (preset : list Parser.Mapping) :=
  Parser.parse_mappings (HW := example_handlers ranked named)
    (-1) "disable" example_is_macro (λ a b, bool_decide (a = b)) 1000 preset [].

Definition key_mapping : Parser.Mapping :=
  Parser.mkMapping [mkInputEvent 0 0 1 30 1 None] (Some "a") None None "keyboard".
Definition blank_mapping : Parser.Mapping :=
  Parser.mkMapping [mkInputEvent 0 0 1 30 1 None] None None None "keyboard".
Definition rel_to_rel_mapping : Parser.Mapping :=
  Parser.mkMapping [mkInputEvent 0 0 2 0 0 None] None (Some ecodes.EV_REL) (Some 1%Z) "mouse".

#[global] Instance Q_eq_dec : EqDecision Q.
Proof. solve_decision. Defined.
#[global] Instance pyvalue_eq_dec : EqDecision Macro.pyvalue.
Proof. solve_decision. Defined.

(** The press and the release of a key code, as the write function gets
    them. *)
Definition press (k : Z) : Macro.pyvalue * Macro.pyvalue * Macro.pyvalue :=
  (Macro.VInt ecodes.EV_KEY, Macro.VInt k, Macro.VInt 1).
Definition release (k : Z) : Macro.pyvalue * Macro.pyvalue * Macro.pyvalue :=
  (Macro.VInt ecodes.EV_KEY, Macro.VInt k, Macro.VInt 0).




(** The tasks that write a press only together with its release: every task
    but a raw [event] of type [EV_KEY] and value 1 or 0. *)
Definition paired_task (task : Macro.Task) : bool :=
  match task with
  | Macro.TEvent ty _ v =>
      negb (bool_decide (ty = Macro.VInt ecodes.EV_KEY
                         ∧ (v = Macro.VInt 1 ∨ v = Macro.VInt 0)))
  | _ => true
  end.

Definition paired (m : Macro.t) : Prop :=
  every_macro (λ m, forallb paired_task (Macro.tasks m) = true) m.

(** What running and triggering do to a macro tree: the tasks and the shape
    stay, a pause length that was read stays read. *)
#[local] Unset Elimination Schemes.
Inductive evolves : Macro.t → Macro.t → Prop :=
  | evolves_node c ts r p run k te cs c' r' p' run' k' te' cs' :
      (is_Some k → is_Some k') →
      Forall2 evolves cs cs' →
      evolves (Macro.mkMacro c ts r p run k te cs) (Macro.mkMacro c' ts r' p' run' k' te' cs').
#[local] Set Elimination Schemes.

(** The macro at [self] has read the pause length. *)
Definition ready_at (self : Macro.path) (m : Macro.t) : Prop :=
  ∃ x, Macro.get_at self m = Some x ∧ is_Some (Macro.keystroke_sleep_ms x).

(** [n] completed runs of [body], one after the other. *)
Inductive rounds (body : Macro.coro ())
    : nat → Macro.State → Macro.schedule → Macro.State → Macro.schedule → Prop :=
  | rounds_O σ env : rounds body 0 σ env σ env
  | rounds_S n σ env σ1 env1 σ2 env2 :
      body σ env = Some (Ok (), σ1, env1) →
      rounds body n σ1 env1 σ2 env2 →
      rounds body (S n) σ env σ2 env2.

Section run_vocabulary.
(** The key code whose presses and releases are counted. *)
Context (k : Z).


Section run_vocabulary_at.
Context (self : Macro.path).

Definition inv (σ : Macro.State) : Prop :=
  paired (Macro.root σ) ∧ ready_at self (Macro.root σ).



End run_vocabulary_at.
End run_vocabulary.

Section started_vocabulary.
Context (ms : Z).

(** The state in which the tasks of the macro at [p] start. *)
Definition started (p : Macro.path) (σ : Macro.State) : Macro.State :=
  Macro.mkState
    (Macro.update_at p (Macro.set_running true)
       (Macro.update_at p (Macro.set_keystroke_sleep_ms (Some ms)) (Macro.root σ)))
    (Macro.macro_variables σ) (Macro.written σ).

End started_vocabulary.

(** [hold(key(KEY_A))], [hold(event(EV_KEY, KEY_A, 1))] and the state in
    which the run of a held macro starts. *)
Definition key_a_macro : Macro.t :=
  Macro.tasks_append (Macro.TKey 30) (Macro.__init__ None).
Definition hold_macro (child : Macro.t) : Macro.t :=
  Macro.child_macros_append child
    (Macro.tasks_append (Macro.THoldMacro 0) (Macro.__init__ None)).
Definition held (child : Macro.t) : Macro.State :=
  Macro.mkState (Macro.press_trigger (hold_macro child) (evdev.mkInputEvent 0 0 1 44 1)) ∅ [].
Definition no_number (s : string) : option Z := None.
Definition no_float (s : string) : option Q := None.

(** ** Vocabulary of the further properties *)

Section ranking_vocabulary_2.
Context {E : Type} `{EqDecision E}.

(** One number for the pair of the length and the position of the common
    event: the position never exceeds the length, so the numbers order the
    combinations as the pairs do. *)
Definition rank_key (common_event : E) (x : list E) : nat :=
  length x * (length x + 1) + index_nat common_event x.

End ranking_vocabulary_2.

(** The order that a stable sort by [k1] of a list sorted by [k2]
    establishes: by [k1], and among equal ones by [k2]. *)
Definition lex_le {A} (k1 k2 : A → nat) : relation A := λ a b,
  k1 a < k1 b ∨ (k1 a = k1 b ∧ k2 a ≤ k2 b).

(** The error of [ranges_with_constant_length]. *)
Definition unordered_list : exn :=
  MappingParsingError "ranges_with_constant_length was called with an unordered list".

(** [event_pipelines[event]], empty when the event is no key. *)
Fixpoint pipeline_get {H} (event_pipelines : list (InputEvent * list H))
    (event : InputEvent) : list H :=
  match event_pipelines with
  | [] => []
  | (k, hs) :: event_pipelines' =>
      if decide (k = event) then hs else pipeline_get event_pipelines' event
  end.

(** The event is neither of type [EV_MSC] nor [EV_SYN], and some callback
    registered for its type and code reports it as handled. *)
Definition consumed (context : EventReader.Context) (event : evdev.InputEvent) : Prop :=
  evdev.type event ≠ ecodes.EV_MSC ∧ evdev.type event ≠ ecodes.EV_SYN ∧
  ∃ cbs cb,
    EventReader.dict_get (EventReader.callbacks context)
      (evdev.type event, evdev.code event) = Some cbs ∧
    cb ∈ cbs ∧ EventReader.cb_call cb event = true.

(** A key event of value 2, which the environment repeats on its own. *)
Definition is_hold (event : evdev.InputEvent) : Prop :=
  evdev.type event = ecodes.EV_KEY ∧ evdev.value event = 2%Z.

(** The events that pass the reader unchanged. *)
Definition passes (context : EventReader.Context) (event : evdev.InputEvent) : bool :=
  negb (bool_decide (is_hold event)) &&
  negb (EventReader.send_to_handlers context event).1.

(** A context with two callbacks for the key 30 and one listener. *)
Definition example_context : EventReader.Context :=
  EventReader.mkContext
    [((1%Z, 30%Z), [EventReader.mkCallback 0 (λ _, false);
                     EventReader.mkCallback 1 (λ _, true)])] [5].

(** A sub-handler that records the events it is notified of and answers
    with [answer]. *)
Definition recording (answer : InputEvent → bool)
    : InputEvent → bool → list InputEvent → bool * list InputEvent :=
  λ event _ log, (answer event, log ++ [event]).

(** The events of a source, handed to [notify] one after the other, as the
    event reader does; an exception ends it. *)
Fixpoint notify_all {S} (sub_notify : InputEvent → bool → S → bool * S)
    (self : AbsToBtnHandler.t S) (events : list InputEvent)
    (source : AbsToBtnHandler.InputDevice) : result (AbsToBtnHandler.t S) :=
  match events with
  | [] => Ok self
  | event :: events' =>
      r ← AbsToBtnHandler.notify sub_notify self event source false;
      notify_all sub_notify r.2 events' source
  end.

(** Button values that change with every event, the first one away from
    [active]. *)
Fixpoint alternating (active : bool) (values : list Z) : Prop :=
  match values with
  | [] => True
  | v :: values' => v = (if active then 0 else 1)%Z ∧ alternating (negb active) values'
  end.

(** A stick that reports its X axis with the range 0..255, a handler that
    is pressed beyond 50 percent, and a sweep of the stick with an event of
    another axis in between. *)
Definition example_stick : AbsToBtnHandler.InputDevice :=
  AbsToBtnHandler.mkInputDevice [(3%Z, [(0%Z, AbsToBtnHandler.mkAbsInfo 0 0 255 0 0 0)])].
Definition example_axis_handler : AbsToBtnHandler.t (list InputEvent) :=
  AbsToBtnHandler.mkHandler (mkInputEvent 0 0 3 0 50 None) false [].
Definition example_sweep : list InputEvent :=
  [mkInputEvent 0 0 3 0 200 None; mkInputEvent 0 0 3 0 250 None;
   mkInputEvent 0 0 3 1 7 None; mkInputEvent 0 0 3 0 10 None;
   mkInputEvent 0 0 3 0 255 None].
Definition example_sweep_result : AbsToBtnHandler.t (list InputEvent) :=
  match notify_all (recording (λ _, true)) example_axis_handler example_sweep example_stick with
  | Ok h => h
  | Raise _ => example_axis_handler
  end.

#[global] Instance pytype_eq_dec : EqDecision Macro.pytype.
Proof. solve_decision. Defined.


(** The tasks whose one parameter is read as a number when they run. *)
Definition numeric_task (argument : Macro.pyvalue) (task : Macro.Task) : Prop :=
  (∃ macro, task = Macro.TRepeat argument macro) ∨
  task = Macro.TWait argument ∨
  task = Macro.THoldKey argument ∨
  (∃ code value, task = Macro.TMouse code value argument) ∨
  (∃ code value, task = Macro.TWheel code value argument).

(** Every macro of the tree has its latches in the state of a trigger that
    is held, or of one that is not. *)
Definition latched (held : bool) (m : Macro.t) : Prop :=
  every_macro (λ x, Macro._trigger_release_event x = negb held ∧
                    Macro._trigger_press_event x = held) m.

(** What every coroutine of a macro keeps: the tasks and the shape of the
    tree stay, what was written stays and is only added to, and the schedule
    is used up from its front. *)
Definition keeps {A} (c : Macro.coro A) : Prop :=
  ∀ σ env r σ' env',
    c σ env = Some (r, σ', env') →
    evolves (Macro.root σ) (Macro.root σ') ∧
    (∃ d, Macro.written σ' = Macro.written σ ++ d) ∧
    (∃ used, env = used ++ env').

(** The state after the calls of the first [n] suspensions. *)
Definition resumed (n : nat) (σ : Macro.State) (env : Macro.schedule) : Macro.State :=
  foldl (λ σ calls, Macro.apply_calls calls σ) σ (take n env).

(** What a completed coroutine returned. *)
Definition run_result (o : option (result () * Macro.State * Macro.schedule))
    : result () * Macro.State * Macro.schedule :=
  default (Ok (), Macro.mkState (Macro.__init__ None) ∅ [], []) o.

(** The run of [hold(key(KEY_A))] that is released during its fourth
    suspension, [hold(KEY_A)] released during its second one, and
    [modify(KEY_LEFTSHIFT, key(KEY_A))]. *)
Definition example_run : option (result () * Macro.State * Macro.schedule) :=
  Macro.run no_number no_float 10 6 [] (held key_a_macro)
    [[]; []; []; [Macro.ReleaseTrigger]; []].

(** The macro or some macro below it has the code among its own
    capabilities of the type. *)
Inductive has_capability (ev_type code : Z) : MacroCapabilities.t → Prop :=
  | has_capability_own self :
      code ∈ default ∅ (MacroCapabilities.capabilities self !! ev_type) →
      has_capability ev_type code self
  | has_capability_child self macro :
      macro ∈ MacroCapabilities.child_macros self →
      has_capability ev_type code macro →
      has_capability ev_type code self.

(** * Properties *)

(** ** The stable sort *)

Section sort_facts.
Context {A : Type} (key : A → nat).

Lemma insert_by_perm a l : insert_by key a l ≡ₚ a :: l.
Proof.
  induction l as [|b l IH]; simpl; [done|].
  destruct (key a <=? key b); [done|].
  rewrite IH. apply Permutation_swap.
Qed.

Lemma sort_by_perm l : sort_by key l ≡ₚ l.
Proof.
  induction l as [|a l IH]; simpl; [done|].
  fold (sort_by key l). by rewrite insert_by_perm, IH.
Qed.

Lemma insert_by_sorted a l :
  StronglySorted (key_le key) l → StronglySorted (key_le key) (insert_by key a l).
Proof.
  induction 1 as [|b l Hl IH Hb]; simpl.
  - repeat constructor.
  - destruct (Nat.leb_spec (key a) (key b)) as [Hab|Hab].
    + constructor; [by constructor|].
      constructor; [done|].
      eapply Forall_impl; [exact Hb|]. unfold key_le. intros; simpl in *; lia.
    + constructor; [done|].
      rewrite (insert_by_perm a l). constructor; [|done].
      unfold key_le. lia.
Qed.

Lemma sort_by_sorted l : StronglySorted (key_le key) (sort_by key l).
Proof.
  induction l as [|a l IH]; simpl; [constructor|].
  by apply insert_by_sorted.
Qed.

Lemma sort_by_short l : length l ≤ 1 → sort_by key l = l.
Proof. destruct l as [|a [|b l]]; simpl; [done|done|lia]. Qed.

(** Equal keys keep their arrival order: the sort is stable. *)
Lemma insert_by_filter (P : A → bool) a l :
  (∀ b, b ∈ l → P b = true → P a = true → key a ≤ key b) →
  filter (λ x, P x = true) (insert_by key a l) = filter (λ x, P x = true) (a :: l).
Proof.
  induction l as [|b l IH]; intros Hle; simpl; [done|].
  destruct (Nat.leb_spec (key a) (key b)) as [Hab|Hab]; [done|].
  rewrite (filter_cons _ b), IH by (intros; apply Hle; [by right|done..]).
  rewrite !(filter_cons _ a), !(filter_cons _ b).
  destruct (decide (P a = true)) as [Ha|Ha]; [|done].
  destruct (decide (P b = true)) as [Hb|Hb]; [|done].
  specialize (Hle b (list_elem_of_here _ _) Hb Ha). lia.
Qed.

Lemma sort_by_stable k l :
  filter (λ x, bool_decide (key x = k) = true) (sort_by key l)
  = filter (λ x, bool_decide (key x = k) = true) l.
Proof.
  induction l as [|a l IH]; simpl; [done|]. fold (sort_by key l).
  rewrite (insert_by_filter (λ x, bool_decide (key x = k))).
  - by rewrite !(filter_cons _ a), IH.
  - intros b _ Hb Ha. apply bool_decide_eq_true in Hb, Ha. lia.
Qed.
End sort_facts.

Lemma rmapM_ok {A B} (f : A → result B) (g : A → B) l :
  Forall (λ a, f a = Ok (g a)) l → rmapM f l = Ok (g <$> l).
Proof.
  induction 1 as [|a l Ha _ IH]; simpl; [done|]. by rewrite Ha, IH.
Qed.

Lemma insert_by_decorated {A} (k : A → nat) a (l : list A) :
  insert_by fst (k a, a) ((λ a, (k a, a)) <$> l) = (λ a, (k a, a)) <$> insert_by k a l.
Proof.
  induction l as [|b l IH]; [done|].
  rewrite fmap_cons. cbn [insert_by fst].
  destruct (k a <=? k b); [done|]. by rewrite IH.
Qed.

Lemma sort_by_decorated {A} (k : A → nat) (l : list A) :
  sort_by fst ((λ a, (k a, a)) <$> l) = (λ a, (k a, a)) <$> sort_by k l.
Proof.
  unfold sort_by. induction l as [|a l IH]; [done|].
  rewrite fmap_cons. cbn [foldr]. rewrite IH. apply insert_by_decorated.
Qed.

Lemma list_sort_key_ok {A} (key : A → result nat) (k : A → nat) l :
  Forall (λ a, key a = Ok (k a)) l → list_sort_key key l = Ok (sort_by k l).
Proof.
  intros H. unfold list_sort_key.
  rewrite (rmapM_ok _ (λ a, (k a, a))).
  - simpl. rewrite sort_by_decorated, <-list_fmap_compose.
    f_equal. apply list_fmap_id.
  - eapply Forall_impl; [exact H|]. intros a Ha; simpl in *. by rewrite Ha.
Qed.

Lemma slice_middle {A} (pre grp rest : list A) :
  slice (pre ++ grp ++ rest) (length pre) (length pre + length grp) = grp.
Proof.
  unfold slice. rewrite drop_app_length.
  replace (length pre + length grp - length pre) with (length grp) by lia.
  apply take_app_length.
Qed.

Lemma set_slice_middle {A} (pre grp rest sub : list A) :
  set_slice (pre ++ grp ++ rest) (length pre) (length pre + length grp) sub
  = pre ++ sub ++ rest.
Proof.
  unfold set_slice. rewrite take_app_length.
  replace (length pre `max` (length pre + length grp))
    with (length (pre ++ grp)) by (rewrite length_app; lia).
  by rewrite (assoc_L (++) pre grp rest), drop_app_length.
Qed.

(** ** Ranking: [_order_combinations] *)

Section ranking_facts.
Context {E : Type} `{EqDecision E}.
Import MappingParser.

Lemma index_elem_of (x : list E) common_event :
  common_event ∈ x → index x common_event = Ok (index_nat common_event x).
Proof.
  unfold index_nat. induction x as [|y x IH]; intros Hin; simpl.
  - by apply not_elem_of_nil in Hin.
  - destruct (decide (y = common_event)); [done|].
    apply elem_of_cons in Hin as [?|Hin]; [congruence|].
    specialize (IH Hin). destruct (index x common_event); [|done].
    simpl. done.
Qed.

Lemma index_raises (x : list E) common_event :
  common_event ∉ x → index x common_event = Raise ValueError.
Proof.
  induction x as [|y x IH]; intros Hin; simpl; [done|].
  apply not_elem_of_cons in Hin as [? Hin].
  destruct (decide (y = common_event)); [congruence|].
  by rewrite IH.
Qed.

Lemma order_ranges_app (common_event : E) rs1 rs2 l :
  order_ranges common_event (rs1 ++ rs2) l
  = l' ← order_ranges common_event rs1 l; order_ranges common_event rs2 l'.
Proof.
  revert l. induction rs1 as [|[s e] rs1 IH]; intros l; simpl; [done|].
  destruct (list_sort_key _ _); simpl; [apply IH|done].
Qed.

(** Sorting one range in place, when every member holds the common event. *)
Lemma order_ranges_one common_event (pre grp rest : list (list E)) :
  Forall (λ c, common_event ∈ c) grp →
  order_ranges common_event [(length pre, length pre + length grp)] (pre ++ grp ++ rest)
  = Ok (pre ++ sort_by (index_nat common_event) grp ++ rest).
Proof.
  intros Hin. simpl. rewrite slice_middle.
  rewrite (list_sort_key_ok _ (index_nat common_event)).
  - simpl. by rewrite set_slice_middle.
  - eapply Forall_impl; [exact Hin|]. intros c Hc. by apply index_elem_of.
Qed.

Lemma rank_le_group common_event last (grp : list (list E)) :
  Forall (λ c, length c = last) grp →
  StronglySorted (rank_le common_event) (sort_by (index_nat common_event) grp).
Proof.
  intros Hlen.
  assert (Hlen' : Forall (λ c, length c = last) (sort_by (index_nat common_event) grp))
    by by rewrite sort_by_perm.
  pose proof (sort_by_sorted (index_nat common_event) grp) as Hs.
  induction Hs as [|c l Hl IH Hc]; [constructor|].
  apply Forall_cons in Hlen' as [Hc' Hl'].
  constructor; [by apply IH|].
  rewrite Forall_forall in *. intros d Hd. right. split.
  - by rewrite Hc', (Hl' d Hd).
  - by apply Hc.
Qed.

Lemma rank_le_short common_event (grp : list (list E)) :
  length grp ≤ 1 → StronglySorted (rank_le common_event) grp.
Proof.
  destruct grp as [|a [|b grp]]; simpl; intros; [repeat constructor..|lia].
Qed.

(** The loop invariant of [ranges_with_constant_length] together with the
    loop of [_order_combinations]: [pre] is the part already left behind,
    [grp] the open run of constant length, [rest] what is still to be read.
    The ranges only depend on lengths, so the result holds for any content
    of [pre]. *)
Lemma ranges_loop_spec common_event n : ∀ (rest grp : list (list E)) pre_len last,
  Forall (λ c, length c = last) grp →
  Forall (λ c, last ≤ length c) rest →
  StronglySorted (key_le length) rest →
  Forall (λ c, common_event ∈ c) (grp ++ rest) →
  (rest = [] → length grp ≤ 1) →
  n = pre_len + length grp + length rest →
  ∃ rs, ranges_loop length n (pre_len + length grp) pre_len last rest = (rs, None) ∧
    ∀ pre, length pre = pre_len → ∃ tail,
      order_ranges common_event rs (pre ++ grp ++ rest) = Ok (pre ++ tail) ∧
      tail ≡ₚ grp ++ rest ∧
      StronglySorted (rank_le common_event) tail.
Proof.
  induction rest as [|y rest IH]; intros grp pre_len last Hgrp Hrest Hsorted Hin Hend Hn.
  { exists []. split; [done|]. intros pre _. exists grp. simpl.
    rewrite !app_nil_r. split_and!; [done..|]. apply rank_le_short; auto. }
  apply Forall_cons in Hrest as [Hy Hrest].
  apply StronglySorted_cons in Hsorted as [Hyrest Hsorted].
  apply Forall_app in Hin as [Hingrp Hinrest].
  apply Forall_cons in Hinrest as [Hiny Hinrest].
  cbn [ranges_loop].
  rewrite (bool_decide_eq_false_2 (length y < last)) by lia.
  destruct (decide (last < length y)) as [Hlt|Hge].
  - (* a longer combination closes the open run *)
    rewrite (bool_decide_eq_true_2 (last < length y)) by done.
    rewrite (bool_decide_eq_false_2 (length y = last ∧ _)) by lia.
    destruct (IH [y] (pre_len + length grp) (length y)) as (rs & Hrs & Hord).
    { by repeat constructor. }
    { eapply Forall_impl; [exact Hyrest|]. unfold key_le. by intros. }
    { done. }
    { by constructor. }
    { simpl. lia. }
    { simpl in *. lia. }
    replace (pre_len + length grp + length [y]) with (S (pre_len + length grp)) in Hrs
      by (simpl; lia).
    rewrite Hrs.
    assert (Hsep : ∀ tail', tail' ≡ₚ [y] ++ rest → ∀ g, g ≡ₚ grp →
              ∀ x1 x2, x1 ∈ g → x2 ∈ tail' → rank_le common_event x1 x2).
    { intros tail' Ht g Hg x1 x2 H1 H2. left.
      rewrite Hg in H1. rewrite Ht in H2.
      rewrite Forall_forall in Hgrp. rewrite (Hgrp _ H1).
      simpl in H2. apply elem_of_cons in H2 as [->|H2]; [done|].
      rewrite Forall_forall in Hyrest. specialize (Hyrest _ H2).
      unfold key_le in Hyrest. lia. }
    destruct (decide (1 < length grp)) as [Hbig|Hsmall].
    + rewrite bool_decide_eq_true_2
        by (split; [done|]; lia).
      eexists. split; [done|]. intros pre Hpre.
      destruct (Hord (pre ++ sort_by (index_nat common_event) grp)) as (tail & Ht & Hp & Hs).
      { rewrite length_app, (Permutation_length (sort_by_perm _ grp)). lia. }
      exists (sort_by (index_nat common_event) grp ++ tail).
      split_and!.
      * cbn [app]. change ((pre_len, pre_len + length grp) :: rs)
          with ([(pre_len, pre_len + length grp)] ++ rs).
        rewrite order_ranges_app. subst pre_len.
        rewrite order_ranges_one by done. simpl.
        change (y :: rest) with ([y] ++ rest).
        rewrite (assoc_L (++) pre), Ht. by rewrite <-(assoc_L (++)).
      * rewrite Hp, sort_by_perm. done.
      * apply StronglySorted_app_2; [|by eapply rank_le_group|done].
        apply (Hsep tail Hp). apply sort_by_perm.
    + rewrite bool_decide_eq_false_2 by lia.
      eexists. split; [done|]. intros pre Hpre.
      destruct (Hord (pre ++ grp)) as (tail & Ht & Hp & Hs).
      { rewrite length_app. lia. }
      exists (grp ++ tail).
      split_and!.
      * simpl. change (y :: rest) with ([y] ++ rest).
        rewrite (assoc_L (++) pre), Ht. by rewrite <-(assoc_L (++)).
      * by rewrite Hp.
      * apply StronglySorted_app_2; [|apply rank_le_short; lia|done].
        by apply (Hsep tail Hp).
  - (* the open run goes on *)
    assert (length y = last) as Hylast by lia.
    rewrite (bool_decide_eq_false_2 (last < length y ∧ _)) by lia.
    rewrite (bool_decide_eq_false_2 (last < length y)) by done.
    destruct rest as [|z rest].
    + (* the last element closes it *)
      rewrite bool_decide_eq_true_2 by (simpl in Hn; lia).
      cbn [ranges_loop]. eexists. split; [done|]. intros pre Hpre.
      exists (sort_by (index_nat common_event) (grp ++ [y])).
      split_and!.
      * cbn [app]. subst pre_len.
        replace (length pre + length grp + 1) with (length pre + length (grp ++ [y]))
          by (rewrite length_app; simpl; lia).
        pose proof (order_ranges_one common_event pre (grp ++ [y]) []) as Hone.
        rewrite !app_nil_r in Hone. apply Hone.
        apply Forall_app. by repeat constructor.
      * apply sort_by_perm.
      * eapply rank_le_group. apply Forall_app. split; [exact Hgrp|].
        by repeat constructor.
    + rewrite bool_decide_eq_false_2 by (simpl in Hn; lia).
      destruct (IH (grp ++ [y]) pre_len last) as (rs & Hrs & Hord).
      { apply Forall_app. by repeat constructor. }
      { done. }
      { done. }
      { rewrite <-(assoc_L (++)). apply Forall_app. split; [done|]. by constructor. }
      { done. }
      { rewrite length_app. simpl in *. lia. }
      replace (pre_len + length (grp ++ [y])) with (S (pre_len + length grp)) in Hrs
        by (rewrite length_app; simpl; lia).
      rewrite Hylast, Hrs. eexists. split; [done|]. intros pre Hpre.
      destruct (Hord pre Hpre) as (tail & Ht & Hp & Hs).
      exists tail. rewrite <-!(assoc_L (++) grp) in *. by split_and!.
Qed.
End ranking_facts.

Lemma StronglySorted_lookup_lt {A} (R : relation A) (l : list A) i j a b :
  StronglySorted R l → l !! i = Some a → l !! j = Some b → i < j → R a b.
Proof.
  intros Hs. revert i j. induction Hs as [|x l Hl IH Hx]; intros i j Hi Hj Hij.
  - by rewrite lookup_nil in Hi.
  - destruct j as [|j]; [lia|]. destruct i as [|i]; simpl in *.
    + injection Hi as ->. rewrite Forall_forall in Hx.
      apply Hx. by eapply list_elem_of_lookup_2.
    + apply (IH i j); [done..|lia].
Qed.

Section order_combinations_facts.
Context {E : Type} `{EqDecision E}.
Import MappingParser.

(** [_order_combinations] returns the reverse of the ascending ranking. *)
Lemma order_combinations_spec (combinations : list (list E)) common_event :
  (∀ c, c ∈ combinations → common_event ∈ c) →
  ∃ ranked,
    _order_combinations combinations common_event = Ok (reverse ranked) ∧
    ranked ≡ₚ combinations ∧
    StronglySorted (rank_le common_event) ranked.
Proof.
  intros Hin. unfold _order_combinations, ranges_with_constant_length.
  set (l := sort_by length combinations).
  assert (Hl : l ≡ₚ combinations) by apply sort_by_perm.
  destruct (ranges_loop_spec common_event (length l) l [] 0 0) as (rs & Hrs & Hord).
  { constructor. }
  { apply Forall_forall. intros; lia. }
  { apply sort_by_sorted. }
  { simpl. apply Forall_forall. intros c Hc. apply Hin. by rewrite <-Hl. }
  { simpl. lia. }
  { simpl. lia. }
  simpl in Hrs. rewrite Hrs.
  destruct (Hord [] eq_refl) as (tail & Ht & Hp & Hs). simpl in Ht, Hp.
  rewrite Ht. simpl. exists tail. split_and!; [done| |done]. by rewrite Hp.
Qed.
End order_combinations_facts.

(** C10: when every combination holds the common event, [_order_combinations]
    returns, and what it returns is a permutation of its argument: each
    combination appears as often in the output as in the input. *)
Theorem order_combinations_permutation {E : Type} `{EqDecision E}
    (combinations : list (list E)) (common_event : E) :
  (∀ c, c ∈ combinations → common_event ∈ c) →
  ∃ ordered,
    MappingParser._order_combinations combinations common_event = Ok ordered ∧
    ordered ≡ₚ combinations.
Proof.
  intros Hin.
  destruct (order_combinations_spec combinations common_event Hin) as (r & Hr & Hp & _).
  exists (reverse r). split; [done|]. by rewrite reverse_Permutation.
Qed.

(** C1: when every combination holds the common event, [_order_combinations]
    returns a list that holds every combination of its argument, each as
    often as the argument does, and in which a strictly longer combination
    stands before a shorter one, and of two combinations of equal length the
    one holding the common event at the higher index stands first. *)
Theorem order_combinations_priority {E : Type} `{EqDecision E}
    (combinations : list (list E)) (common_event : E) :
  (∀ c, c ∈ combinations → common_event ∈ c) →
  ∃ ordered,
    MappingParser._order_combinations combinations common_event = Ok ordered ∧
    ordered ≡ₚ combinations ∧
    ∀ i j a b ia ib,
      ordered !! i = Some a → ordered !! j = Some b →
      MappingParser.index a common_event = Ok ia →
      MappingParser.index b common_event = Ok ib →
      length b < length a ∨ (length a = length b ∧ ib < ia) →
      i < j.
Proof.
  intros Hin.
  destruct (order_combinations_spec combinations common_event Hin) as (r & Hr & Hp & Hs).
  exists (reverse r). split; [done|]. split; [by rewrite reverse_Permutation|].
  intros i j a b ia ib Hi Hj Hia Hib Hrank.
  assert (Hia' : index_nat common_event a = ia) by (unfold index_nat; by rewrite Hia).
  assert (Hib' : index_nat common_event b = ib) by (unfold index_nat; by rewrite Hib).
  pose proof (lookup_lt_Some _ _ _ Hi) as Hli.
  pose proof (lookup_lt_Some _ _ _ Hj) as Hlj.
  rewrite length_reverse in Hli, Hlj.
  rewrite reverse_lookup in Hi, Hj by done.
  destruct (decide (i < j)) as [|Hge]; [done|]. exfalso.
  destruct (decide (i = j)) as [->|Hne].
  - assert (a = b) by congruence. subst b. lia.
  - assert (Hab : rank_le common_event a b).
    { eapply (StronglySorted_lookup_lt _ r); [done|exact Hi|exact Hj|lia]. }
    unfold rank_le in Hab. lia.
Qed.

Lemma order_combinations_permutation_witness :
  ∃ ordered,
    MappingParser._order_combinations
      [[2; 1]; [1]; [1; 3]; [4; 5; 1]; [1; 6; 7]] 1 = Ok ordered ∧
    ordered ≡ₚ [[2; 1]; [1]; [1; 3]; [4; 5; 1]; [1; 6; 7]].
Proof.
  apply (order_combinations_permutation [[2; 1]; [1]; [1; 3]; [4; 5; 1]; [1; 6; 7]] 1).
  intros c Hc. repeat (apply elem_of_cons in Hc as [->|Hc]; [set_solver|]).
  by apply not_elem_of_nil in Hc.
Defined.

Lemma order_combinations_priority_witness :
  ∃ ordered,
    MappingParser._order_combinations
      [[2; 1]; [1]; [1; 3]; [4; 5; 1]; [1; 6; 7]] 1 = Ok ordered ∧
    ordered ≡ₚ [[2; 1]; [1]; [1; 3]; [4; 5; 1]; [1; 6; 7]] ∧
    ∀ i j a b ia ib,
      ordered !! i = Some a → ordered !! j = Some b →
      MappingParser.index a 1 = Ok ia →
      MappingParser.index b 1 = Ok ib →
      length b < length a ∨ (length a = length b ∧ ib < ia) →
      i < j.
Proof.
  apply (order_combinations_priority [[2; 1]; [1]; [1; 3]; [4; 5; 1]; [1; 6; 7]] 1).
  intros c Hc. repeat (apply elem_of_cons in Hc as [->|Hc]; [set_solver|]).
  by apply not_elem_of_nil in Hc.
Defined.

(** The examples of the docstring of [_order_combinations], with a = 1,
    b = 2, c = 3, d = 4, e = 5 and the common key b. *)
Example order_combinations_docstring :
  MappingParser._order_combinations [[2]; [1; 2; 3]; [1; 2]] 2
  = Ok [[1; 2; 3]; [1; 2]; [2]] ∧
  MappingParser._order_combinations [[2; 4; 5]; [1; 2; 3]] 2
  = Ok [[1; 2; 3]; [2; 4; 5]].
Proof. by split. Qed.

(** ** The event reader *)

(** C2 (as amended): an event of type [EV_MSC] or [EV_SYN] is scheduled for no
    listener and handed to no callback, and [handle] does exactly one thing
    with it: it writes its type, code and value to the forwarding device. *)
Theorem handle_msc_syn (context : EventReader.Context) (event : evdev.InputEvent) :
  evdev.type event = ecodes.EV_MSC ∨ evdev.type event = ecodes.EV_SYN →
  EventReader.send_to_listeners context event = [] ∧
  EventReader.send_to_handlers context event = (false, []) ∧
  EventReader.handle context event
  = [EventReader.ForwardWritten (evdev.type event) (evdev.code event) (evdev.value event)].
Proof.
  intros Hty. unfold EventReader.handle, EventReader.send_to_listeners,
    EventReader.send_to_handlers, EventReader.forward.
  assert (Hkey : ¬ (evdev.type event = ecodes.EV_KEY ∧ evdev.value event = 2%Z)).
  { unfold ecodes.EV_KEY, ecodes.EV_MSC, ecodes.EV_SYN in *. lia. }
  rewrite (decide_False (P := _ ∧ _)) by done.
  destruct Hty as [Hty|Hty].
  - rewrite !(decide_True (P := evdev.type event = ecodes.EV_MSC)) by done. done.
  - assert (evdev.type event ≠ ecodes.EV_MSC)
      by (unfold ecodes.EV_MSC, ecodes.EV_SYN in *; lia).
    rewrite !(decide_False (P := evdev.type event = ecodes.EV_MSC)) by done.
    rewrite !(decide_True (P := evdev.type event = ecodes.EV_SYN)) by done. done.
Qed.

Lemma handle_msc_syn_witness :
  EventReader.send_to_listeners
    (EventReader.mkContext [] [7]) (evdev.mkInputEvent 0 0 ecodes.EV_MSC 4 458756) = [] ∧
  EventReader.send_to_handlers
    (EventReader.mkContext [] [7]) (evdev.mkInputEvent 0 0 ecodes.EV_MSC 4 458756)
  = (false, []) ∧
  EventReader.handle
    (EventReader.mkContext [] [7]) (evdev.mkInputEvent 0 0 ecodes.EV_MSC 4 458756)
  = [EventReader.ForwardWritten ecodes.EV_MSC 4 458756].
Proof.
  apply (handle_msc_syn (EventReader.mkContext [] [7])
           (evdev.mkInputEvent 0 0 ecodes.EV_MSC 4 458756)).
  left. reflexivity.
Defined.

(** C2 as stated fails: a synchronization event is forwarded. *)
Lemma handle_syn_forwarded :
  ¬ Forall (λ e, EventReader.is_forward_effect e = false)
      (EventReader.handle (EventReader.mkContext [] [])
         (evdev.mkInputEvent 0 0 ecodes.EV_SYN 0 0)).
Proof.
  vm_compute. intros Hall. apply Forall_cons in Hall as [Hfw _]. discriminate.
Qed.

(** An event of another type goes to the listeners and to its callbacks, and
    is forwarded only when no callback reports it as handled. *)
Example handle_key_event :
  EventReader.handle
    (EventReader.mkContext
       [((1%Z, 30%Z), [EventReader.mkCallback 0 (λ _, false);
                        EventReader.mkCallback 1 (λ _, true)])] [5])
    (evdev.mkInputEvent 0 0 1 30 1)
  = [EventReader.ListenerScheduled 5 (evdev.mkInputEvent 0 0 1 30 1);
     EventReader.Slept0;
     EventReader.CallbackCalled 0 (evdev.mkInputEvent 0 0 1 30 1);
     EventReader.CallbackCalled 1 (evdev.mkInputEvent 0 0 1 30 1)].
Proof. reflexivity. Qed.

(** ** The axis to button handler *)






(** On doubles the handler computes the same trigger points: checked for
    every percent from -100 to 100 on each of the ranges above. *)
Lemma trigger_point_b64_agrees :
  Forall (λ r : Z * Z,
    Forall (λ percent : Z,
      AbsToBtnHandler._trigger_point_b64 percent r.1 r.2
      = Ok (AbsToBtnHandler._trigger_point
              (AbsToBtnHandler.mkHandler (mkInputEvent 0 0 3 0 percent None) false ())
              r.1 r.2))
      ((λ n : nat, (Z.of_nat n - 100)%Z) <$> seq 0 201))
    common_ranges.
Proof.
  apply (bool_decide_unpack _). vm_compute. reflexivity.
Qed.

(** C6: on an event of the configured axis whose range the source reports,
    [notify] computes the pressed state; when it equals the latched state the
    event is consumed and neither the handler nor its sub-handler changes;
    when it differs the state is latched and the sub-handler is notified
    once, with the event rewritten to a button event of value 1 or 0, and its
    answer is returned. *)
Theorem abs_to_btn_notify_edge {S : Type} (sub_notify : InputEvent → bool → S → bool * S)
    (self : AbsToBtnHandler.t S) (event : InputEvent)
    (source : AbsToBtnHandler.InputDevice) (supress : bool)
    (entries : list (Z * AbsToBtnHandler.AbsInfo)) (info : AbsToBtnHandler.AbsInfo) :
  type_and_code event = type_and_code (AbsToBtnHandler._input_event self) →
  AbsToBtnHandler.dict_item (AbsToBtnHandler.capabilities source) ecodes.EV_ABS = Ok entries →
  AbsToBtnHandler.absinfo_dict entries !! code event = Some info →
  let now := AbsToBtnHandler.pressed self info (value event) in
  (now = AbsToBtnHandler._active self →
   AbsToBtnHandler.notify sub_notify self event source supress = Ok (true, self)) ∧
  (now ≠ AbsToBtnHandler._active self →
   AbsToBtnHandler.notify sub_notify self event source supress
   = let '(r, sub) := sub_notify (modify event (if now then 1 else 0)%Z as_key) supress
                        (AbsToBtnHandler._sub_handler self) in
     Ok (r, AbsToBtnHandler.mkHandler (AbsToBtnHandler._input_event self) now sub)).
Proof.
  intros Htc Hcaps Hinfo now.
  unfold AbsToBtnHandler.notify.
  rewrite decide_False by (intros Hne; by apply Hne).
  rewrite Hcaps. simpl. rewrite Hinfo. simpl.
  set (tp := AbsToBtnHandler._trigger_point self _ _).
  assert (Hnow : now = if decide (0 < value (AbsToBtnHandler._input_event self))%Z
                       then bool_decide (tp < value event)%Z
                       else bool_decide (value event < tp)%Z) by done.
  set (ev' := if decide (0 < value (AbsToBtnHandler._input_event self))%Z then _ else _).
  assert (Hev : ev' = modify event (if now then 1 else 0)%Z as_key).
  { subst ev'. rewrite Hnow. repeat case_decide; by rewrite ?bool_decide_eq_true_2,
      ?bool_decide_eq_false_2 by done. }
  assert (Hb : py_bool (value ev') = now) by (rewrite Hev; by destruct now).
  rewrite Hb. split; intros Hcmp.
  - by rewrite decide_True.
  - rewrite decide_False by done. by rewrite Hev.
Qed.

Lemma abs_to_btn_notify_edge_witness :
  let sub_notify := λ (e : InputEvent) (_ : bool) (log : list InputEvent), (true, log ++ [e]) in
  let self := AbsToBtnHandler.mkHandler (mkInputEvent 0 0 3 0 10 None) false [] in
  let event := mkInputEvent 5 0 3 0 200 None in
  let source := AbsToBtnHandler.mkInputDevice
                  [(3%Z, [(0%Z, AbsToBtnHandler.mkAbsInfo 0 0 255 0 0 0)])] in
  let now := AbsToBtnHandler.pressed self (AbsToBtnHandler.mkAbsInfo 0 0 255 0 0 0) 200 in
  (now = false →
   AbsToBtnHandler.notify sub_notify self event source false = Ok (true, self)) ∧
  (now ≠ false →
   AbsToBtnHandler.notify sub_notify self event source false
   = let '(r, sub) := sub_notify (modify event (if now then 1 else 0)%Z as_key) false [] in
     Ok (r, AbsToBtnHandler.mkHandler (mkInputEvent 0 0 3 0 10 None) now sub)).
Proof.
  intros sub_notify self event source.
  apply (abs_to_btn_notify_edge sub_notify self event source false
           [(0%Z, AbsToBtnHandler.mkAbsInfo 0 0 255 0 0 0)]
           (AbsToBtnHandler.mkAbsInfo 0 0 255 0 0 0)); reflexivity.
Defined.

(** A press followed by the same side of the trigger point: one
    notification. *)
Example abs_to_btn_two_events :
  let sub_notify := λ (e : InputEvent) (_ : bool) (log : list InputEvent), (true, log ++ [e]) in
  let source := AbsToBtnHandler.mkInputDevice
                  [(3%Z, [(0%Z, AbsToBtnHandler.mkAbsInfo 0 0 255 0 0 0)])] in
  (r1 ← AbsToBtnHandler.notify sub_notify
          (AbsToBtnHandler.mkHandler (mkInputEvent 0 0 3 0 10 None) false [])
          (mkInputEvent 5 0 3 0 200 None) source false;
   AbsToBtnHandler.notify sub_notify r1.2 (mkInputEvent 6 0 3 0 210 None) source false)
  = Ok (true, AbsToBtnHandler.mkHandler (mkInputEvent 0 0 3 0 10 None) true
                [mkInputEvent 5 0 3 0 1 (Some as_key)]).
Proof. vm_compute. reflexivity. Qed.

(** ** The key handler *)

(** C8: when the write to the output device succeeds, [notify] returns
    [True]; when the write raises because the device is not available or
    cannot emit the code, [notify] returns [False] and raises nothing. *)
Theorem key_handler_notify {G : Type} (write : Z * Z * Z → string → G → result () * G)
    (self : KeyHandler.t) (event : InputEvent) (g : G) :
  let event_tuple :=
    ((KeyHandler._maps_to self).1, (KeyHandler._maps_to self).2, value event) in
  (∀ g', write event_tuple (KeyHandler.target_uinput self) g = (Ok (), g') →
     KeyHandler.notify write self event g
     = (Ok true,
        KeyHandler.mkHandler (KeyHandler._maps_to self) (py_bool (value event))
          (KeyHandler.target_uinput self), g')) ∧
  (∀ e g', write event_tuple (KeyHandler.target_uinput self) g = (Raise e, g') →
     e = UinputNotAvailable ∨ e = EventNotHandled →
     KeyHandler.notify write self event g = (Ok false, self, g')).
Proof.
  intros event_tuple. unfold KeyHandler.notify. fold event_tuple. split.
  - intros g' ->. done.
  - intros e g' -> [-> | ->]; done.
Qed.

Lemma key_handler_notify_witness :
  let devices : GlobalUInputs.t :=
    {[ "keyboard" := GlobalUInputs.mkUInput [(1%Z, [30%Z; 31%Z])] [] ]} in
  let self := KeyHandler.mkHandler (1%Z, 30%Z) false "keyboard" in
  let missing := KeyHandler.mkHandler (1%Z, 30%Z) false "mouse" in
  let event := mkInputEvent 0 0 1 44 1 None in
  KeyHandler.notify GlobalUInputs.write self event devices
  = (Ok true, KeyHandler.mkHandler (1%Z, 30%Z) true "keyboard",
     <["keyboard" := GlobalUInputs.mkUInput [(1%Z, [30%Z; 31%Z])] [(1%Z, 30%Z, 1%Z)]]> devices) ∧
  KeyHandler.notify GlobalUInputs.write missing event devices = (Ok false, missing, devices).
Proof.
  intros devices self missing event. split.
  - apply (proj1 (key_handler_notify GlobalUInputs.write self event devices)).
    reflexivity.
  - apply (proj2 (key_handler_notify GlobalUInputs.write missing event devices)
             UinputNotAvailable devices); [reflexivity | by left].
Defined.

(** ** Macros: the trigger latches *)

(** Induction over a macro and the macros below it. *)
Lemma Macro_ind (P : Macro.t → Prop) :
  (∀ code tasks rel press running ms ev children,
     Forall P children →
     P (Macro.mkMacro code tasks rel press running ms ev children)) →
  ∀ m, P m.
Proof.
  intros Hstep. fix IH 1. intros [c ts r p run k te cs].
  apply Hstep. induction cs as [|m cs IHcs]; constructor; [apply IH|apply IHcs].
Qed.

Lemma every_macro_unfold P m :
  every_macro P m ↔ P m ∧ Forall (every_macro P) (Macro.child_macros m).
Proof.
  destruct m as [c ts r p run k te cs]. simpl.
  assert (Hgo : (fix go (cs : list Macro.t) : Prop :=
                   match cs with
                   | [] => True
                   | c :: cs' => every_macro P c ∧ go cs'
                   end) cs ↔ Forall (every_macro P) cs).
  { induction cs as [|m cs IH]; [by split; [constructor|]|].
    rewrite Forall_cons, <-IH. done. }
  by rewrite Hgo.
Qed.

Lemma constructed_complementary m : constructed m → every_macro complementary m.
Proof.
  induction 1 as [code|m task _ IH|m child _ IHm _ IHc].
  - apply every_macro_unfold. by split; [|constructor].
  - apply every_macro_unfold in IH as [? ?]. apply every_macro_unfold. by split.
  - apply every_macro_unfold in IHm as [? ?]. apply every_macro_unfold.
    split; [done|]. simpl. apply Forall_app. by split; [|repeat constructor].
Qed.

Lemma press_trigger_complementary m event :
  every_macro complementary m → every_macro complementary (Macro.press_trigger m event).
Proof.
  induction m as [c ts r p run k te cs IH] using Macro_ind. intros Hm.
  pose proof Hm as Hm'. apply every_macro_unfold in Hm' as [Hc Hcs]. simpl in Hcs.
  destruct r.
  - apply every_macro_unfold. simpl. split; [done|].
    rewrite Forall_fmap. rewrite Forall_forall in *. intros x Hx. simpl.
    apply IH; [done|]. by apply Hcs.
  - exact Hm.
Qed.

Lemma release_trigger_complementary m :
  every_macro complementary (Macro.release_trigger m).
Proof.
  induction m as [c ts r p run k te cs IH] using Macro_ind.
  apply every_macro_unfold. simpl. split; [done|].
  rewrite Forall_fmap. eapply Forall_impl; [exact IH|]. done.
Qed.

Lemma add_hold_constructed system_mapping self arg m :
  Macro.add_hold system_mapping self arg = Ok m →
  constructed self →
  (∀ child, arg = Macro.HoldMacro child → constructed child) →
  constructed m.
Proof.
  intros Hadd Hself Harg. destruct arg as [|symbol|name|child]; simpl in Hadd.
  - injection Hadd as <-. by constructor.
  - unfold Macro._type_check_keyname in Hadd.
    destruct (system_mapping symbol); simpl in Hadd; [|done].
    injection Hadd as <-. by constructor.
  - injection Hadd as <-. by constructor.
  - injection Hadd as <-. constructor; [by constructor|by apply Harg].
Qed.

Lemma update_at_complementary p f m :
  (∀ x, every_macro complementary x → every_macro complementary (f x)) →
  every_macro complementary m →
  every_macro complementary (Macro.update_at p f m).
Proof.
  intros Hf. revert m. induction p as [|i p IH]; intros m Hm; [by apply Hf|].
  cbn [Macro.update_at].
  apply every_macro_unfold in Hm as [Hc Hcs]. apply every_macro_unfold.
  split; [done|]. cbn [Macro.child_macros]. rewrite Forall_forall in *. intros x Hx.
  apply list_elem_of_lookup in Hx as [j Hj].
  rewrite list_lookup_alter in Hj. case_decide.
  - destruct (Macro.child_macros m !! i) as [y|] eqn:Hy; simpl in Hj; [|done].
    injection Hj as <-. apply IH, Hcs. by eapply list_elem_of_lookup_2.
  - apply Hcs. by eapply list_elem_of_lookup_2.
Qed.

(** C7: in a macro built by [__init__] and the [add_...] functions, and in
    every macro below it, exactly one of the trigger-press latch and the
    trigger-release latch is set, right after construction and after any
    sequence of calls of [press_trigger] and [release_trigger], on the macro
    itself or on any macro below it. *)
Theorem trigger_latches_complementary (m : Macro.t)
    (calls : list (Macro.path * Macro.trigger_call)) :
  constructed m →
  every_macro complementary (foldl apply_call_at m calls).
Proof.
  intros Hm. apply constructed_complementary in Hm.
  revert m Hm. induction calls as [|[p c] calls IH]; intros m Hm; simpl; [done|].
  apply IH. unfold apply_call_at. simpl. apply update_at_complementary; [|done].
  intros x Hx. destruct c as [event|]; simpl.
  - by apply press_trigger_complementary.
  - apply release_trigger_complementary.
Qed.

Lemma trigger_latches_complementary_witness :
  every_macro complementary
    (foldl apply_call_at (hold_macro key_a_macro)
       [([], Macro.PressTrigger (evdev.mkInputEvent 0 0 1 30 1));
        ([], Macro.PressTrigger (evdev.mkInputEvent 0 0 1 30 1));
        ([0], Macro.ReleaseTrigger);
        ([], Macro.ReleaseTrigger)]).
Proof.
  apply (trigger_latches_complementary (hold_macro key_a_macro)).
  repeat constructor.
Defined.

(** Two presses in a row: the second one is ignored, and the release reaches
    the child. *)
Example press_press_release :
  let m := foldl apply_call_at (hold_macro key_a_macro)
             [([], Macro.PressTrigger (evdev.mkInputEvent 0 0 1 30 1));
              ([], Macro.PressTrigger (evdev.mkInputEvent 9 0 1 31 1))] in
  Macro.is_holding m = true ∧
  Macro._triggering_event m = Some (evdev.mkInputEvent 0 0 1 30 1) ∧
  Macro.is_holding <$> Macro.child_macros m = [true] ∧
  Macro.is_holding <$> Macro.child_macros (Macro.release_trigger m) = [false].
Proof. by split_and!. Qed.

(** ** Macros: [set] and the resolution of variables *)

Section set_facts.
Context (int_of_str : string → option Z) (float_of_str : string → option Q).
Context (ms : Z).

(** What the task of [set] does: it never raises, and it stores its
    argument as it was given. *)
Lemma exec_set fuel run_child self variable value σ env :
  Macro.exec_task int_of_str float_of_str fuel run_child self
    (Macro.TSet variable value) σ env
  = Some (Ok (),
          Macro.mkState (Macro.root σ) (<[variable := value]> (Macro.macro_variables σ))
            (Macro.written σ),
          env).
Proof.
  unfold Macro.exec_task, Macro.resolve, Macro.bind, Macro.get_variables,
    Macro.lift, Macro._resolve, Macro.set_variable.
  destruct value; done.
Qed.

(** For a literal the later resolution of the name gives the literal. *)
Lemma set_literal_resolves fuel run_child self variable value σ env σ' env' r :
  (∀ name, value ≠ Macro.VVariable name) →
  Macro.exec_task int_of_str float_of_str fuel run_child self
    (Macro.TSet variable value) σ env = Some (r, σ', env') →
  Macro._resolve int_of_str float_of_str (Macro.macro_variables σ')
    (Macro.VVariable variable) [] = Ok value.
Proof.
  intros Hlit. rewrite exec_set. intros [= <- <- <-].
  unfold Macro._resolve, Macro.Variable_resolve, Macro.SharedDict_get.
  cbn [Macro.macro_variables]. by rewrite lookup_insert_eq.
Qed.
End set_facts.

(** C4, on the failing input: with [b] set to 5, the task of [set(a, $b)]
    leaves the [Variable] object of [b] in the store under [a]; the later
    resolution of [$a] yields that object and not 5, the value [b] had when
    the task ran. *)
Theorem set_variable_not_copied :
  let int_of_str := λ _ : string, None in
  let float_of_str := λ _ : string, None in
  let σ := Macro.mkState (Macro.tasks_append (Macro.TSet "a" (Macro.VVariable "b"))
                            (Macro.__init__ None))
             {[ "b" := Macro.VInt 5 ]} [] in
  ∃ σ',
    Macro.run int_of_str float_of_str 10 2 [] σ [] = Some (Ok (), σ', []) ∧
    Macro._resolve int_of_str float_of_str (Macro.macro_variables σ)
      (Macro.VVariable "b") [] = Ok (Macro.VInt 5) ∧
    Macro._resolve int_of_str float_of_str (Macro.macro_variables σ')
      (Macro.VVariable "a") [] = Ok (Macro.VVariable "b") ∧
    Macro._resolve int_of_str float_of_str (Macro.macro_variables σ')
      (Macro.VVariable "a") [Macro.t_int] = Ok (Macro.VVariable "b").
Proof.
  intros int_of_str float_of_str σ. eexists. split_and!.
  - unfold Macro.run, Macro.bind; simpl. unfold Macro.bind; simpl. reflexivity.
  - reflexivity.
  - reflexivity.
  - reflexivity.
Qed.

(** ** The parser: fatal errors *)

Section parser_facts.
Context (DISABLE_CODE : Z) (DISABLE_NAME : string) (is_this_a_macro : string → bool).
Context {H W : Type} `{EqDecision H} {HW : Parser.Handlers H W}.
Context (combination_eqb : list InputEvent → list InputEvent → bool).
Context (recursion_limit : nat).

Abbreviation _get_output_handler :=
  (Parser._get_output_handler DISABLE_CODE DISABLE_NAME is_this_a_macro).
Abbreviation output_handlers :=
  (Parser.output_handlers DISABLE_CODE DISABLE_NAME is_this_a_macro recursion_limit).
Abbreviation split_ranking := (Parser.split_ranking combination_eqb).
Abbreviation parse_mappings :=
  (Parser.parse_mappings DISABLE_CODE DISABLE_NAME is_this_a_macro
     combination_eqb recursion_limit).

Lemma output_handlers_raises preset handlers w mapping e :
  mapping ∈ preset →
  _get_output_handler mapping = Raise e →
  ∃ e' w', output_handlers preset handlers w = (Raise e', w').
Proof.
  intros Hin Hraise. revert handlers w.
  induction preset as [|m preset IH]; intros handlers w.
  { by apply not_elem_of_nil in Hin. }
  simpl. destruct (_get_output_handler m) as [handler_enum|e0] eqn:Hm; [|by eauto].
  destruct (Parser.mapping_handler_classes handler_enum) as [cls|]; [|by eauto].
  destruct (Parser.construct cls _ m w) as [[h|e1] w1]; [|by eauto].
  destruct (Parser._create_event_pipeline _ h false w1) as [[hs|e2] w2]; [|by eauto].
  apply elem_of_cons in Hin as [->|Hin]; [congruence|]. by apply IH.
Qed.

Lemma split_ranking_raises copy handlers need_ranking w handler :
  handler ∈ copy →
  Parser.needs_ranking handler w = true →
  no_combination (Parser.rank_by handler w) →
  split_ranking copy handlers need_ranking w = Raise Parser.err_no_rank_combination.
Proof.
  intros Hin Hneeds Hnone. revert handlers need_ranking.
  induction copy as [|h copy IH]; intros handlers need_ranking.
  { by apply not_elem_of_nil in Hin. }
  simpl. destruct (decide (h = handler)) as [->|Hne].
  - rewrite Hneeds. by destruct Hnone as [-> | ->].
  - apply elem_of_cons in Hin as [?|Hin]; [congruence|].
    destruct (Parser.needs_ranking h w); [|by apply IH].
    destruct (Parser.rank_by h w) as [[|ev c]|]; [done| |done]. by apply IH.
Qed.

Lemma split_ranking_returns copy handlers need_ranking w :
  (∀ h, h ∈ copy → Parser.needs_ranking h w = true →
        ¬ no_combination (Parser.rank_by h w)) →
  ∃ r, split_ranking copy handlers need_ranking w = Ok r.
Proof.
  revert handlers need_ranking.
  induction copy as [|h copy IH]; intros handlers need_ranking Hrank; simpl; [by eauto|].
  assert (Hcopy : ∀ h', h' ∈ copy → Parser.needs_ranking h' w = true →
                    ¬ no_combination (Parser.rank_by h' w))
    by (intros h' Hh'; apply Hrank; by right).
  destruct (Parser.needs_ranking h w) eqn:Hneeds; [|by apply IH].
  specialize (Hrank h (list_elem_of_here _ _) Hneeds).
  destruct (Parser.rank_by h w) as [[|ev c]|].
  - exfalso. apply Hrank. by right.
  - by apply IH.
  - exfalso. apply Hrank. by left.
Qed.

Lemma dict_get_returns (d : list (list InputEvent * H)) k :
  (∀ c, combination_eqb c c = true) →
  k ∈ fst <$> d → ∃ h, Parser.dict_get combination_eqb d k = Ok h.
Proof.
  intros Hrefl Hk. apply list_elem_of_fmap in Hk as ([k' h] & -> & Hin).
  unfold Parser.dict_get.
  destruct (list_find _ d) as [[i [k'' h'']]|] eqn:Hfind; [by eauto|].
  apply list_find_None in Hfind. rewrite Forall_forall in Hfind.
  exfalso. apply (Hfind _ Hin). apply Hrefl.
Qed.

Lemma rmapM_returns {A B} (f : A → result B) l :
  (∀ x, x ∈ l → ∃ y, f x = Ok y) → ∃ ys, rmapM f l = Ok ys.
Proof.
  induction l as [|x l IH]; intros Hf; simpl; [by eauto|].
  destruct (Hf x (list_elem_of_here _ _)) as [y ->].
  destruct IH as [ys ->]; [intros; apply Hf; by right|]. simpl. eauto.
Qed.

(** The ranking itself cannot fail: the combinations that are ranked
    against an event all hold it, so that [_order_combinations] returns, and
    what it returns are keys of the dictionary. *)
Lemma rank_event_returns (d : list (list InputEvent * H)) event sorted_handlers w :
  (∀ c, combination_eqb c c = true) →
  ∃ hs w', Parser.rank_event combination_eqb d event sorted_handlers w = (Ok hs, w').
Proof.
  intros Hrefl. unfold Parser.rank_event.
  set (cs := filter (λ c, event ∈ c) (fst <$> d)).
  assert (Hcs : ∀ c, c ∈ cs → event ∈ c ∧ c ∈ fst <$> d).
  { intros c Hc. by apply list_elem_of_filter in Hc. }
  assert (Hmany : ∃ hs w',
    match MappingParser._order_combinations cs event with
    | Raise e => (Raise e, w)
    | Ok sorted_combinations =>
        match rmapM (Parser.dict_get combination_eqb d) sorted_combinations with
        | Raise e => (Raise e, w)
        | Ok sub_handlers =>
            let '(hierarchy_handler, w1) :=
              Parser.new_hierarchy_handler sub_handlers event w in
            (Ok (Parser.set_add hierarchy_handler sorted_handlers),
             foldl (λ w handler, Parser.set_occluded_input_event handler event w)
               w1 sub_handlers)
        end
    end = (Ok hs, w')).
  { destruct (order_combinations_spec cs event) as (ranked & -> & Hperm & _).
    { intros c Hc. by apply Hcs. }
    destruct (rmapM_returns (Parser.dict_get combination_eqb d) (reverse ranked))
      as [subs ->].
    { intros c Hc. apply dict_get_returns; [done|]. apply Hcs.
      by rewrite <-Hperm, <-(reverse_Permutation ranked). }
    destruct (Parser.new_hierarchy_handler subs event w). eauto. }
  destruct cs as [|c [|c' cs']] eqn:Heq; [done| |done].
  destruct (dict_get_returns d c Hrefl) as [h ->]; [|by eauto].
  apply Hcs. by left.
Qed.

Lemma create_hierarchy_handlers_returns (d : list (list InputEvent * H)) w :
  (∀ c, combination_eqb c c = true) →
  ∃ hs w', Parser._create_hierarchy_handlers combination_eqb d w = (Ok hs, w').
Proof.
  intros Hrefl. unfold Parser._create_hierarchy_handlers.
  generalize (@nil H) as sorted_handlers.
  generalize (foldl (λ events c, foldl (λ events event, Parser.set_add event events) events c)
                [] (fst <$> d)) as events.
  intros events. revert w. induction events as [|event events IH]; intros w sorted_handlers.
  { simpl. eauto. }
  simpl. destruct (rank_event_returns d event sorted_handlers w Hrefl) as (hs & w' & ->).
  apply IH.
Qed.

(** C9 (as amended): parsing ends with an exception and without a result
    whenever the output of some mapping cannot be classified; it ends with
    the error of the ranking whenever the handlers of all mappings were
    built and one of them claims to need ranking without a combination to
    rank by; and when the handlers of all mappings were built (every mapping
    classified as a kind of handler that has a class, its handler
    constructed and wrapped without error) and every handler that needs
    ranking names a combination, the ranking does not fail, and parsing
    returns the pipelines of the handlers unless the wrapping of a ranked
    handler raises, which is then the exception of parsing. *)
Theorem parse_mappings_errors (preset : list Parser.Mapping) (w : W) :
  ((∃ mapping, mapping ∈ preset ∧
      unclassifiable DISABLE_CODE DISABLE_NAME is_this_a_macro mapping) →
   ∃ e w', parse_mappings preset w = (Raise e, w')) ∧
  (∀ handlers w' handler,
     output_handlers preset [] w = (Ok handlers, w') →
     handler ∈ handlers →
     Parser.needs_ranking handler w' = true →
     no_combination (Parser.rank_by handler w') →
     parse_mappings preset w = (Raise Parser.err_no_rank_combination, w')) ∧
  (∀ handlers w1,
     output_handlers preset [] w = (Ok handlers, w1) →
     (∀ c, combination_eqb c c = true) →
     (∀ h, h ∈ handlers → Parser.needs_ranking h w1 = true →
           ¬ no_combination (Parser.rank_by h w1)) →
     ∃ unranked need_ranking ranked_handlers w2,
       split_ranking handlers handlers [] w1 = Ok (unranked, need_ranking) ∧
       Parser._create_hierarchy_handlers combination_eqb need_ranking w1
       = (Ok ranked_handlers, w2) ∧
       (∀ e w3,
          Parser.ranked_pipelines recursion_limit ranked_handlers unranked w2
          = (Raise e, w3) →
          parse_mappings preset w = (Raise e, w3)) ∧
       (∀ all_handlers w3,
          Parser.ranked_pipelines recursion_limit ranked_handlers unranked w2
          = (Ok all_handlers, w3) →
          parse_mappings preset w = (Ok (Parser.assemble all_handlers w3), w3))).
Proof.
  split_and!.
  - intros (mapping & Hin & msg & Hraise). unfold Parser.parse_mappings.
    destruct (output_handlers_raises preset [] w mapping _ Hin Hraise)
      as (e' & w' & ->). eauto.
  - intros handlers w' handler Hout Hin Hneeds Hnone.
    unfold Parser.parse_mappings. rewrite Hout.
    by rewrite (split_ranking_raises handlers handlers [] w' handler).
  - intros handlers w1 Hout Hrefl Hrank. unfold Parser.parse_mappings. rewrite Hout.
    destruct (split_ranking_returns handlers handlers [] w1 Hrank) as ([hs' nr] & Hsplit).
    rewrite Hsplit.
    destruct (create_hierarchy_handlers_returns nr w1 Hrefl) as (ranked & w2 & Hranked).
    rewrite Hranked. exists hs', nr, ranked, w2.
    split_and!; [done..| |]; by intros ? ? ->.
Qed.
End parser_facts.

Lemma parse_mappings_errors_witness :
  (∃ e w', example_parse false true [key_mapping; blank_mapping] = (Raise e, w')) ∧
  example_parse true false [key_mapping] = (Raise Parser.err_no_rank_combination, []) ∧
  example_parse true true [key_mapping; key_mapping]
  = (Ok [(mkInputEvent 0 0 1 1 1 None, [1])], []).
Proof.
  split_and!.
  - apply (proj1 (parse_mappings_errors (-1) "disable" example_is_macro
                    (HW := example_handlers false true)
                    (λ a b, bool_decide (a = b)) 1000 [key_mapping; blank_mapping] [])).
    exists blank_mapping. split; [set_solver|]. eexists. reflexivity.
  - apply (proj1 (proj2 (parse_mappings_errors (-1) "disable" example_is_macro
                    (HW := example_handlers true false)
                    (λ a b, bool_decide (a = b)) 1000 [key_mapping] [])) [1] [] 1).
    + reflexivity.
    + set_solver.
    + reflexivity.
    + by left.
  - destruct (proj2 (proj2 (parse_mappings_errors (-1) "disable" example_is_macro
                    (HW := example_handlers true true)
                    (λ a b, bool_decide (a = b)) 1000 [key_mapping; key_mapping] []))
                [1; 1] [] eq_refl)
      as (unranked & need_ranking & ranked_handlers & w2 & Hsplit & Hranked & _ & Hok).
    + intros c. by apply bool_decide_eq_true_2.
    + intros h _ _ [|]; done.
    + injection Hsplit as <- <-. injection Hranked as <- <-.
      apply (Hok [1] []). reflexivity.
Defined.

(** The docstring of [_order_combinations] inside the parser: handlers ranked
    by a+b+c, a+b and b (keys 30, 31, 32 for a, b, c).  The hierarchy handler
    of b gets the sub-handlers of a+b+c, a+b and b in this order, the one of
    a those of a+b+c and a+b, and c leads to the handler of its one
    combination. *)
Example hierarchy_of_docstring :
  let a := mkInputEvent 0 0 1 30 1 None in
  let b := mkInputEvent 0 0 1 31 1 None in
  let c := mkInputEvent 0 0 1 32 1 None in
  Parser._create_hierarchy_handlers (HW := example_handlers true true)
    (λ x y, bool_decide (x = y)) [([b], 1); ([a; b; c], 3); ([a; b], 2)] []
  = (Ok [100; 101; 3], [(b, [3; 2; 1]); (a, [3; 2])]).
Proof. vm_compute. reflexivity. Qed.

(** C9 as stated fails: the output of a mapping from a relative axis
    to a relative axis is classified, no handler exists that could lack a
    combination, and yet parsing raises and returns no pipeline. *)
Lemma parse_mappings_not_implemented :
  Parser._get_output_handler (-1) "disable" example_is_macro rel_to_rel_mapping
  = Ok Parser.rel2rel ∧
  Parser.output_handlers (HW := example_handlers false true)
    (-1) "disable" example_is_macro 1000 [rel_to_rel_mapping] [] []
  = (Raise NotImplementedError, []) ∧
  example_parse false true [rel_to_rel_mapping] = (Raise NotImplementedError, []).
Proof. by split_and!. Qed.


(** ** Macros: what a run writes *)






Lemma evolves_refl m : evolves m m.
Proof.
  induction m as [c ts r p run k te cs IH] using Macro_ind.
  constructor; [done|]. induction IH; by constructor.
Qed.

Lemma evolves_trans m1 m2 m3 : evolves m1 m2 → evolves m2 m3 → evolves m1 m3.
Proof.
  revert m2 m3. induction m1 as [c ts r p run k te cs IH] using Macro_ind.
  intros m2 m3 H12 H23. inv H12. inv H23.
  constructor; [by auto|].
  match goal with
  | H1 : Forall2 evolves cs ?cs2, H2 : Forall2 evolves ?cs2 ?cs3 |- _ =>
      revert cs3 H2; induction H1 as [|x y xs ys Hxy Hxs IHxs];
        intros cs3 H2; inv H2; constructor
  end.
  - apply Forall_cons in IH as [IHx _]. by eapply IHx.
  - apply Forall_cons in IH as [_ IHxs']. by apply IHxs.
Qed.

Lemma evolves_press_trigger m event : evolves m (Macro.press_trigger m event).
Proof.
  induction m as [c ts r p run k te cs IH] using Macro_ind.
  destruct r; simpl; [|apply evolves_refl].
  constructor; [done|]. induction IH; simpl; by constructor.
Qed.

Lemma evolves_release_trigger m : evolves m (Macro.release_trigger m).
Proof.
  induction m as [c ts r p run k te cs IH] using Macro_ind. simpl.
  constructor; [done|]. induction IH; simpl; by constructor.
Qed.

Lemma evolves_apply_calls calls m : evolves m (foldl Macro.apply_call m calls).
Proof.
  revert m. induction calls as [|c calls IH]; intros m; simpl; [apply evolves_refl|].
  eapply evolves_trans; [|apply IH].
  destruct c; [apply evolves_press_trigger|apply evolves_release_trigger].
Qed.

Lemma evolves_update_at p f m :
  (∀ x, evolves x (f x)) → evolves m (Macro.update_at p f m).
Proof.
  intros Hf. revert m. induction p as [|i p IH]; intros m; simpl; [apply Hf|].
  destruct m as [c ts r pr run k te cs]. simpl. constructor; [done|].
  revert i. induction cs as [|x cs IHcs]; intros i; [constructor|].
  destruct i as [|i]; simpl.
  - constructor; [apply IH|]. clear. induction cs; constructor; [apply evolves_refl|done].
  - constructor; [apply evolves_refl|apply IHcs].
Qed.


Lemma evolves_get_at p m m' x :
  evolves m m' → Macro.get_at p m = Some x →
  ∃ x', Macro.get_at p m' = Some x' ∧ evolves x x'.
Proof.
  revert m m' x. induction p as [|i p IH]; intros m m' x Hev Hget; simpl in *.
  { injection Hget as <-. eauto. }
  inv Hev. simpl in *.
  destruct (cs !! i) as [y|] eqn:Hy; simpl in Hget; [|done].
  match goal with H : Forall2 evolves cs ?cs' |- _ =>
    destruct (Forall2_lookup_l _ _ _ _ _ H Hy) as (y' & Hy' & Hyy') end.
  rewrite Hy'. simpl. by eapply IH.
Qed.

Lemma evolves_tasks m m' : evolves m m' → Macro.tasks m' = Macro.tasks m.
Proof. by inversion 1. Qed.

Lemma evolves_ready self m m' : evolves m m' → ready_at self m → ready_at self m'.
Proof.
  intros Hev (x & Hx & Hk).
  destruct (evolves_get_at _ _ _ _ Hev Hx) as (x' & Hx' & Hxx').
  exists x'. split; [done|]. inv Hxx'. simpl in *. auto.
Qed.



Section run_facts.
Context (int_of_str : string → option Z) (float_of_str : string → option Q).
Context (ms : Z).
(** The key code whose presses and releases are counted. *)
Context (k : Z).

Section at_self.
Context (self : Macro.path).

























End at_self.
End run_facts.

Lemma evolves_refl_list cs : Forall2 evolves cs cs.
Proof. induction cs; constructor; [apply evolves_refl|done]. Qed.

Lemma evolves_set_running b x : evolves x (Macro.set_running b x).
Proof. destruct x. constructor; [done|apply evolves_refl_list]. Qed.

Lemma evolves_set_keystroke_sleep_ms z x :
  evolves x (Macro.set_keystroke_sleep_ms (Some z) x).
Proof. destruct x. constructor; [by eauto|apply evolves_refl_list]. Qed.

Lemma run_tasks_ok exec ts σ env r σ' env' :
  Macro.run_tasks exec ts σ env = Some (r, σ', env') → r = Ok ().
Proof.
  revert σ env. induction ts as [|task ts IH]; intros σ env Hrun; simpl in Hrun.
  { by injection Hrun as <- _ _. }
  destruct (exec task σ env) as [[[[[]|e] σ1] env1]|]; [by eapply IH| |done].
  by injection Hrun as <- _ _.
Qed.

Section run_macro_facts.
Context (int_of_str : string → option Z) (float_of_str : string → option Q).
Context (ms : Z).

Lemma run_unfold fuel p σ env m :
  Macro.get_at p (Macro.root σ) = Some m →
  Macro.running m = false →
  Macro.run int_of_str float_of_str ms (S fuel) p σ env
  = Macro.bind
      (Macro.run_tasks
         (Macro.exec_task int_of_str float_of_str fuel
            (Macro.run int_of_str float_of_str ms fuel) p) (Macro.tasks m))
      (λ _, Macro.modify_self p (Macro.set_running false)) (started ms p σ) env.
Proof.
  intros Hm Hrunning. cbn [Macro.run]. unfold Macro.bind at 1, Macro.get_self.
  rewrite Hm, Hrunning. reflexivity.
Qed.

Lemma run_ok fuel p σ env r σ' env' :
  Macro.run int_of_str float_of_str ms fuel p σ env = Some (r, σ', env') → r = Ok ().
Proof.
  destruct fuel as [|fuel]; [done|]. intros Hrun.
  destruct (Macro.get_at p (Macro.root σ)) as [m|] eqn:Hm; cycle 1.
  { cbn [Macro.run] in Hrun. unfold Macro.bind at 1, Macro.get_self in Hrun.
    by rewrite Hm in Hrun. }
  destruct (Macro.running m) eqn:Hrunning.
  { cbn [Macro.run] in Hrun. unfold Macro.bind at 1, Macro.get_self in Hrun.
    rewrite Hm, Hrunning in Hrun. by injection Hrun as <- _ _. }
  rewrite (run_unfold _ _ _ _ m) in Hrun by done. unfold Macro.bind in Hrun.
  destruct (Macro.run_tasks _ _ _ _) as [[[[[]|e] σ1] env1]|] eqn:Htasks; [| |done].
  - by injection Hrun as <- _ _.
  - by apply run_tasks_ok in Htasks.
Qed.


End run_macro_facts.



(** Held over two repetitions of [key(KEY_A)], released during the second. *)
Example hold_key_a_written :
  (λ o, (λ x : result () * Macro.State * Macro.schedule, Macro.written x.1.2) <$> o)
    (Macro.run no_number no_float 10 6 [] (held key_a_macro)
       [[]; []; []; [Macro.ReleaseTrigger]; []])
  = Some [press 30; release 30; press 30; release 30].
Proof. vm_compute. reflexivity. Qed.


(** * Further properties *)

(** ** The stable sort, again *)

Section sort_facts_2.
Context {A : Type} (key : A → nat).

Lemma insert_by_app a l1 l2 :
  Forall (λ b, key a ≤ key b) l2 →
  insert_by key a (l1 ++ l2) = insert_by key a l1 ++ l2.
Proof.
  intros Hl2. induction l1 as [|b l1 IH]; simpl.
  - destruct l2 as [|c l2]; [done|]. apply Forall_cons in Hl2 as [Hc _].
    simpl. by rewrite (proj2 (Nat.leb_le _ _) Hc).
  - destruct (key a <=? key b); [done|]. by rewrite IH.
Qed.

Lemma sort_by_app l1 l2 :
  (∀ a b, a ∈ l1 → b ∈ l2 → key a ≤ key b) →
  sort_by key (l1 ++ l2) = sort_by key l1 ++ sort_by key l2.
Proof.
  induction l1 as [|a l1 IH]; intros Hle; [done|].
  simpl. fold (sort_by key (l1 ++ l2)) (sort_by key l1).
  rewrite IH by (intros; apply Hle; [by right|done]).
  apply insert_by_app. apply Forall_forall. intros b Hb.
  apply Hle; [by left|]. by rewrite <-(sort_by_perm key l2).
Qed.

Lemma insert_by_ext (key' : A → nat) a l :
  (∀ b, b ∈ l → (key a <=? key b) = (key' a <=? key' b)) →
  insert_by key a l = insert_by key' a l.
Proof.
  induction l as [|b l IH]; intros Hk; simpl; [done|].
  rewrite <-(Hk b) by by left.
  destruct (key a <=? key b); [done|]. rewrite IH; [done|].
  intros; apply Hk. by right.
Qed.

Lemma sort_by_ext (key' : A → nat) l :
  (∀ a b, a ∈ l → b ∈ l → (key a <=? key b) = (key' a <=? key' b)) →
  sort_by key l = sort_by key' l.
Proof.
  induction l as [|a l IH]; intros Hk; simpl; [done|].
  fold (sort_by key l) (sort_by key' l).
  rewrite <-IH by (intros; apply Hk; by right).
  apply insert_by_ext. intros b Hb. rewrite (sort_by_perm key l) in Hb.
  apply Hk; [by left|by right].
Qed.

(** A stable sort keeps the arrival order within every class that the key
    does not split. *)
Lemma sort_by_stable_class (P : A → bool) l :
  (∀ a b, P a = true → P b = true → key a = key b) →
  filter (λ x, P x = true) (sort_by key l) = filter (λ x, P x = true) l.
Proof.
  intros HP. induction l as [|a l IH]; simpl; [done|]. fold (sort_by key l).
  rewrite (insert_by_filter key P).
  - by rewrite !(filter_cons _ a), IH.
  - intros b _ Hb Ha. by rewrite (HP a b).
Qed.

(** Two sorted lists with the same classes of equal keys, each in the same
    order, are the same list. *)
Lemma sorted_classes_eq l1 l2 :
  StronglySorted (key_le key) l1 → StronglySorted (key_le key) l2 →
  (∀ k, filter (λ x, bool_decide (key x = k) = true) l1
        = filter (λ x, bool_decide (key x = k) = true) l2) →
  l1 = l2.
Proof.
  intros H1. revert l2. induction H1 as [|a l1 Hl1 IH Ha]; intros l2 H2 Hf.
  - destruct l2 as [|b l2]; [done|].
    specialize (Hf (key b)). rewrite filter_nil, filter_cons in Hf.
    rewrite decide_True in Hf by by apply bool_decide_eq_true. done.
  - destruct H2 as [|b l2 Hl2 Hb].
    { specialize (Hf (key a)). rewrite filter_nil, filter_cons in Hf.
      rewrite decide_True in Hf by by apply bool_decide_eq_true. done. }
    assert (Hab : key a = key b).
    { assert (key b ≤ key a).
      { pose proof (Hf (key a)) as Hfa. rewrite (filter_cons _ a) in Hfa.
        rewrite decide_True in Hfa by by apply bool_decide_eq_true.
        assert (Hin : a ∈ filter (λ x, bool_decide (key x = key a) = true) (b :: l2))
          by (rewrite <-Hfa; by left).
        apply list_elem_of_filter in Hin as [_ Hin].
        apply elem_of_cons in Hin as [->|Hin]; [done|].
        rewrite Forall_forall in Hb. by apply Hb. }
      assert (key a ≤ key b).
      { pose proof (Hf (key b)) as Hfb. rewrite (filter_cons _ b) in Hfb.
        rewrite (decide_True (P := bool_decide (key b = key b) = true)) in Hfb
          by by apply bool_decide_eq_true.
        assert (Hin : b ∈ filter (λ x, bool_decide (key x = key b) = true) (a :: l1))
          by (rewrite Hfb; by left).
        apply list_elem_of_filter in Hin as [_ Hin].
        apply elem_of_cons in Hin as [->|Hin]; [done|].
        rewrite Forall_forall in Ha. by apply Ha. }
      lia. }
    pose proof (Hf (key a)) as Hfa. rewrite !filter_cons in Hfa.
    rewrite decide_True in Hfa by by apply bool_decide_eq_true.
    rewrite decide_True in Hfa by (apply bool_decide_eq_true; done).
    injection Hfa as -> Hfa. f_equal. apply IH; [done|].
    intros k. specialize (Hf k). rewrite !filter_cons in Hf.
    destruct (decide (bool_decide (key b = k) = true)); [by injection Hf|done].
Qed.

Lemma sort_by_unique l l' :
  StronglySorted (key_le key) l' →
  (∀ k, filter (λ x, bool_decide (key x = k) = true) l'
        = filter (λ x, bool_decide (key x = k) = true) l) →
  l' = sort_by key l.
Proof.
  intros Hs Hf. apply sorted_classes_eq; [done|apply sort_by_sorted|].
  intros k. by rewrite Hf, sort_by_stable.
Qed.
End sort_facts_2.

(** ** Ranking: [_order_combinations] as one sort *)

Section ranking_facts_2.
Context {E : Type} `{EqDecision E}.
Import MappingParser.

Lemma index_lt (x : list E) common_event i :
  index x common_event = Ok i → i < length x.
Proof.
  revert i. induction x as [|y x IH]; intros i; simpl; [done|].
  destruct (decide (y = common_event)); [intros [= <-]; lia|].
  destruct (index x common_event) as [j|]; simpl; [|done].
  intros [= <-]. specialize (IH j eq_refl). lia.
Qed.

Lemma index_nat_le common_event (x : list E) : index_nat common_event x ≤ length x.
Proof.
  unfold index_nat. destruct (index x common_event) as [i|] eqn:Hi; [|lia].
  apply index_lt in Hi. lia.
Qed.

Lemma rank_key_le common_event (a b : list E) :
  rank_key common_event a ≤ rank_key common_event b ↔ rank_le common_event a b.
Proof.
  unfold rank_key, rank_le.
  pose proof (index_nat_le common_event a). pose proof (index_nat_le common_event b).
  destruct (Nat.lt_trichotomy (length a) (length b)) as [Hlt|[Heq|Hgt]].
  - split; [by left|]. intros _. nia.
  - rewrite Heq. split; [intros; right; split; [done|lia]|]. intros [?|[_ ?]]; lia.
  - split; [|lia]. intros. nia.
Qed.

Lemma rank_key_length common_event (a b : list E) :
  rank_key common_event a = rank_key common_event b → length a = length b.
Proof.
  intros Hk.
  assert (H1 : rank_le common_event a b) by (apply rank_key_le; lia).
  assert (H2 : rank_le common_event b a) by (apply rank_key_le; lia).
  unfold rank_le in *. lia.
Qed.

Lemma sort_by_rank_group common_event last (grp : list (list E)) :
  Forall (λ c, length c = last) grp →
  sort_by (index_nat common_event) grp = sort_by (rank_key common_event) grp.
Proof.
  intros Hlen. apply sort_by_ext. intros a b Ha Hb.
  rewrite Forall_forall in Hlen. unfold rank_key.
  rewrite (Hlen a Ha), (Hlen b Hb).
  destruct (Nat.leb_spec (index_nat common_event a) (index_nat common_event b));
    symmetry; [apply Nat.leb_le|apply Nat.leb_gt]; lia.
Qed.

(** The loop of [_order_combinations] over the ranges of
    [ranges_with_constant_length] sorts what lies behind [pre] by length and
    position. *)
Lemma ranges_loop_exact common_event n : ∀ (rest grp : list (list E)) pre_len last,
  Forall (λ c, length c = last) grp →
  Forall (λ c, last ≤ length c) rest →
  StronglySorted (key_le length) rest →
  Forall (λ c, common_event ∈ c) (grp ++ rest) →
  (rest = [] → length grp ≤ 1) →
  n = pre_len + length grp + length rest →
  ∀ pre, length pre = pre_len →
    order_ranges common_event
      (ranges_loop length n (pre_len + length grp) pre_len last rest).1
      (pre ++ grp ++ rest)
    = Ok (pre ++ sort_by (rank_key common_event) (grp ++ rest)).
Proof.
  induction rest as [|y rest IH];
    intros grp pre_len last Hgrp Hrest Hsorted Hin Hend Hn pre Hpre.
  { simpl. rewrite !app_nil_r. by rewrite sort_by_short by auto. }
  apply Forall_cons in Hrest as [Hy Hrest].
  apply StronglySorted_cons in Hsorted as [Hyrest Hsorted].
  apply Forall_app in Hin as [Hingrp Hinrest].
  apply Forall_cons in Hinrest as [Hiny Hinrest].
  cbn [ranges_loop].
  rewrite (bool_decide_eq_false_2 (length y < last)) by lia.
  destruct (decide (last < length y)) as [Hlt|Hge].
  - rewrite (bool_decide_eq_true_2 (last < length y)) by done.
    rewrite (bool_decide_eq_false_2 (length y = last ∧ _)) by lia.
    specialize (IH [y] (pre_len + length grp) (length y)).
    replace (pre_len + length grp + length [y]) with (S (pre_len + length grp)) in IH
      by (simpl; lia).
    destruct (ranges_loop length n (S (pre_len + length grp)) (pre_len + length grp)
                (length y) rest) as [ys e] eqn:Hr.
    assert (Hgo : ∀ pre', length pre' = pre_len + length grp →
              order_ranges common_event ys (pre' ++ [y] ++ rest)
              = Ok (pre' ++ sort_by (rank_key common_event) ([y] ++ rest))).
    { intros pre' Hpre'. apply IH; [by repeat constructor| |done|by constructor|
        simpl; lia|simpl in *; lia|done].
      eapply Forall_impl; [exact Hyrest|]. unfold key_le. by intros. }
    rewrite (sort_by_app _ grp (y :: rest)).
    2:{ intros a b Ha Hb. apply rank_key_le. left.
        rewrite Forall_forall in Hgrp. rewrite (Hgrp a Ha).
        apply elem_of_cons in Hb as [->|Hb]; [done|].
        rewrite Forall_forall in Hyrest. specialize (Hyrest b Hb).
        unfold key_le in Hyrest. lia. }
    destruct (decide (1 < length grp)) as [Hbig|Hsmall].
    + rewrite bool_decide_eq_true_2 by (split; [done|]; lia).
      cbn [app fst].
      change ((pre_len, pre_len + length grp) :: ys)
        with ([(pre_len, pre_len + length grp)] ++ ys).
      rewrite order_ranges_app. subst pre_len.
      rewrite order_ranges_one by done. cbn [mbind result_bind].
      rewrite (assoc_L (++) pre), (Hgo (pre ++ sort_by (index_nat common_event) grp)).
      * rewrite <-(assoc_L (++)).
        by rewrite (sort_by_rank_group common_event last grp).
      * rewrite length_app, (Permutation_length (sort_by_perm _ grp)). lia.
    + rewrite bool_decide_eq_false_2 by lia. cbn [app fst].
      change (y :: rest) with ([y] ++ rest).
      rewrite (assoc_L (++) pre), (Hgo (pre ++ grp)) by (rewrite length_app; lia).
      rewrite <-(assoc_L (++)). by rewrite (sort_by_short _ grp) by lia.
  - assert (length y = last) as Hylast by lia.
    rewrite (bool_decide_eq_false_2 (last < length y ∧ _)) by lia.
    rewrite (bool_decide_eq_false_2 (last < length y)) by done.
    destruct rest as [|z rest].
    + rewrite bool_decide_eq_true_2 by (simpl in Hn; lia).
      cbn [ranges_loop app fst]. subst pre_len.
      replace (length pre + length grp + 1) with (length pre + length (grp ++ [y]))
        by (rewrite length_app; simpl; lia).
      pose proof (order_ranges_one common_event pre (grp ++ [y]) []) as Hone.
      rewrite !app_nil_r in Hone. rewrite Hone.
      * by rewrite (sort_by_rank_group common_event last)
          by (apply Forall_app; by repeat constructor).
      * apply Forall_app. by repeat constructor.
    + rewrite bool_decide_eq_false_2 by (simpl in Hn; lia).
      specialize (IH (grp ++ [y]) pre_len last).
      replace (pre_len + length (grp ++ [y])) with (S (pre_len + length grp)) in IH
        by (rewrite length_app; simpl; lia).
      rewrite Hylast.
      destruct (ranges_loop length n (S (pre_len + length grp)) pre_len last (z :: rest))
        as [ys e] eqn:Hr.
      cbn [app fst]. rewrite <-!(assoc_L (++) grp) in IH.
      apply IH; [apply Forall_app; by repeat constructor|done|done| |done| |done].
      * apply Forall_app. split; [done|]. by constructor.
      * simpl in *. lia.
Qed.

(** Sorting by length first does not change what the sort by length and
    position returns. *)
Lemma sort_by_rank_after_length common_event (l : list (list E)) :
  sort_by (rank_key common_event) (sort_by length l) = sort_by (rank_key common_event) l.
Proof.
  apply sort_by_unique; [apply sort_by_sorted|].
  intros k. rewrite sort_by_stable.
  apply (sort_by_stable_class length (λ x, bool_decide (rank_key common_event x = k))).
  intros a b Ha Hb. apply bool_decide_eq_true in Ha, Hb.
  apply (rank_key_length common_event). lia.
Qed.

Lemma order_combinations_exact (combinations : list (list E)) common_event :
  (∀ c, c ∈ combinations → common_event ∈ c) →
  _order_combinations combinations common_event
  = Ok (reverse (sort_by (rank_key common_event) combinations)).
Proof.
  intros Hin. unfold _order_combinations, ranges_with_constant_length.
  set (l := sort_by length combinations).
  assert (Hl : l ≡ₚ combinations) by apply sort_by_perm.
  assert (Hall : Forall (λ c, common_event ∈ c) l).
  { apply Forall_forall. intros c Hc. apply Hin. by rewrite <-Hl. }
  destruct (ranges_loop_spec common_event (length l) l [] 0 0) as (rs & Hrs & _);
    [constructor|apply Forall_forall; intros; lia|apply sort_by_sorted|done|
     simpl; lia|simpl; lia|].
  simpl in Hrs.
  assert (Hex : order_ranges common_event rs l
                = Ok (sort_by (rank_key common_event) l)).
  { pose proof (ranges_loop_exact common_event (length l) l [] 0 0) as Hex.
    simpl in Hex. rewrite Hrs in Hex.
    apply (λ a b c d e f, Hex a b c d e f [] eq_refl);
      [constructor|apply Forall_forall; intros; lia|apply sort_by_sorted|done|lia|done]. }
  rewrite Hrs, Hex. simpl. unfold l.
  by rewrite sort_by_rank_after_length.
Qed.
End ranking_facts_2.

Lemma StronglySorted_mono {A} (R R' : relation A) (l : list A) :
  (∀ a b, R a b → R' a b) → StronglySorted R l → StronglySorted R' l.
Proof.
  intros HR. induction 1 as [|a l Hl IH Ha]; constructor; [done|].
  eapply Forall_impl; [exact Ha|]. apply HR.
Qed.

Section radix.
Context {A : Type} (k1 k2 : A → nat).

Lemma insert_by_lex a s :
  StronglySorted (lex_le k1 k2) s → Forall (λ b, k2 a ≤ k2 b) s →
  StronglySorted (lex_le k1 k2) (insert_by k1 a s).
Proof.
  induction 1 as [|b s Hs IH Hb]; intros Ha; simpl; [repeat constructor|].
  apply Forall_cons in Ha as [Hab Ha].
  destruct (Nat.leb_spec (k1 a) (k1 b)) as [Hle|Hgt].
  - constructor; [by constructor|]. constructor.
    + unfold lex_le. lia.
    + rewrite Forall_forall in *. intros x Hx.
      specialize (Hb x Hx). specialize (Ha x Hx). unfold lex_le in *. lia.
  - constructor; [by apply IH|].
    rewrite (insert_by_perm k1 a s). constructor; [|done]. unfold lex_le. lia.
Qed.

Lemma sort_by_lex l :
  StronglySorted (key_le k2) l → StronglySorted (lex_le k1 k2) (sort_by k1 l).
Proof.
  induction 1 as [|a l Hl IH Ha]; simpl; [constructor|]. fold (sort_by k1 l).
  apply insert_by_lex; [done|]. by rewrite (sort_by_perm k1 l).
Qed.
End radix.

Section ranking_facts_3.
Context {E : Type} `{EqDecision E}.
Import MappingParser.

Lemma sort_by_rank_radix common_event (l : list (list E)) :
  sort_by length (sort_by (index_nat common_event) l) = sort_by (rank_key common_event) l.
Proof.
  apply sort_by_unique.
  - eapply StronglySorted_mono;
      [|apply (sort_by_lex length (index_nat common_event)), sort_by_sorted].
    intros a b Hab. unfold key_le. by apply rank_key_le.
  - intros k.
    rewrite (sort_by_stable_class length (λ x, bool_decide (rank_key common_event x = k))).
    + apply (sort_by_stable_class (index_nat common_event)
               (λ x, bool_decide (rank_key common_event x = k))).
      intros a b Ha Hb. apply bool_decide_eq_true in Ha, Hb.
      assert (length a = length b) by (apply (rank_key_length common_event); lia).
      unfold rank_key in *. nia.
    + intros a b Ha Hb. apply bool_decide_eq_true in Ha, Hb.
      apply (rank_key_length common_event). lia.
Qed.
End ranking_facts_3.

(** X1: when every combination holds the common event, [_order_combinations]
    returns what two stable sorts in a row return, read backwards: the
    combinations sorted by the position of the common event, then sorted by
    length, and the whole list reversed. *)
Theorem order_combinations_two_sorts {E : Type} `{EqDecision E}
    (combinations : list (list E)) (common_event : E) :
  (∀ c, c ∈ combinations → common_event ∈ c) →
  MappingParser._order_combinations combinations common_event
  = Ok (reverse (sort_by length (sort_by (index_nat common_event) combinations))).
Proof.
  intros Hin. rewrite sort_by_rank_radix. by apply order_combinations_exact.
Qed.

Lemma order_combinations_two_sorts_witness :
  MappingParser._order_combinations [[2; 1]; [1; 3]; [1; 2]; [1]; [3; 1]] 1
  = Ok (reverse (sort_by length (sort_by (index_nat 1) [[2; 1]; [1; 3]; [1; 2]; [1]; [3; 1]]))).
Proof.
  apply (order_combinations_two_sorts [[2; 1]; [1; 3]; [1; 2]; [1]; [3; 1]] 1).
  intros c Hc. repeat (apply elem_of_cons in Hc as [->|Hc]; [set_solver|]).
  by apply not_elem_of_nil in Hc.
Defined.

(** X2: when every combination holds the common event, the combinations
    that tie, of one length and with the common event at one position, come
    out in the reverse of the order in which they came in. *)
Theorem order_combinations_ties {E : Type} `{EqDecision E}
    (combinations : list (list E)) (common_event : E) :
  (∀ c, c ∈ combinations → common_event ∈ c) →
  ∃ ordered,
    MappingParser._order_combinations combinations common_event = Ok ordered ∧
    ∀ n i,
      filter (λ c, length c = n ∧ MappingParser.index c common_event = Ok i) ordered
      = reverse (filter (λ c, length c = n ∧ MappingParser.index c common_event = Ok i)
                   combinations).
Proof.
  intros Hin. eexists. split; [by apply order_combinations_exact|].
  intros n i. rewrite filter_reverse. f_equal.
  pose proof (sort_by_stable_class (rank_key common_event)
    (λ c, bool_decide (length c = n ∧ MappingParser.index c common_event = Ok i))
    combinations) as Hst.
  assert (Hext : ∀ l : list (list E),
    filter (λ c, length c = n ∧ MappingParser.index c common_event = Ok i) l
    = filter (λ c, bool_decide (length c = n ∧ MappingParser.index c common_event = Ok i)
                   = true) l).
  { intros l. apply list_filter_iff. intros c. by rewrite bool_decide_eq_true. }
  rewrite !Hext. apply Hst.
  intros a b Ha Hb. apply bool_decide_eq_true in Ha as [Ha1 Ha2], Hb as [Hb1 Hb2].
  unfold rank_key, index_nat. by rewrite Ha1, Ha2, Hb1, Hb2.
Qed.

Ltac combination_holds :=
  let c := fresh "c" in let Hc := fresh "Hc" in
  intros c Hc; repeat (apply elem_of_cons in Hc as [->|Hc]; [set_solver|]);
  by apply not_elem_of_nil in Hc.

Lemma order_combinations_ties_witness :
  ∃ ordered,
    MappingParser._order_combinations [[2; 1]; [1; 3]; [1; 2]; [1]; [3; 1]] 1 = Ok ordered ∧
    ∀ n i,
      filter (λ c, length c = n ∧ MappingParser.index c 1 = Ok i) ordered
      = reverse (filter (λ c, length c = n ∧ MappingParser.index c 1 = Ok i)
                   [[2; 1]; [1; 3]; [1; 2]; [1]; [3; 1]]).
Proof.
  apply (order_combinations_ties [[2; 1]; [1; 3]; [1; 2]; [1]; [3; 1]] 1).
  combination_holds.
Defined.

(** ** Ranking: [ranges_with_constant_length] *)

Section ranges_facts.
Context {A : Type} (len : A → nat).
Import MappingParser.

Lemma ranges_loop_error n : ∀ x idx start last,
  (ranges_loop len n idx start last x).2
  = if bool_decide (StronglySorted le (last :: (len <$> x))) then None
    else Some unordered_list.
Proof.
  induction x as [|y x IH]; intros idx start last.
  { cbn [ranges_loop snd]. rewrite bool_decide_eq_true_2; [done|]. repeat constructor. }
  cbn [ranges_loop].
  destruct (Nat.ltb_spec (len y) last) as [Hlt|Hge].
  - rewrite (bool_decide_eq_true_2 (len y < last)) by done. cbn [snd].
    rewrite bool_decide_eq_false_2; [done|].
    intros Hs. apply StronglySorted_cons in Hs as [Hs _].
    rewrite fmap_cons in Hs. apply Forall_cons in Hs as [? _]. lia.
  - rewrite (bool_decide_eq_false_2 (len y < last)) by lia.
    specialize (IH (S idx) (if bool_decide (last < len y) then idx else start) (len y)).
    destruct (ranges_loop len n (S idx) _ (len y) x) as [ys e]. cbn [snd] in *.
    rewrite IH. rewrite fmap_cons.
    apply (f_equal (λ b : bool, if b then None else Some unordered_list)).
    apply bool_decide_ext.
    rewrite (StronglySorted_cons _ (_ :: _)), Forall_cons.
    split; [|by intros [_ ?]].
    intros Hs. split_and!; [lia| |done].
    apply StronglySorted_cons in Hs as [Hall _].
    eapply Forall_impl; [exact Hall|]. intros; simpl in *; lia.
Qed.

(** The loop invariant of the generator: [pre] is what was read, the open
    run of elements of length [last_len] starts at [start_idx]. *)
Lemma ranges_loop_runs (l : list A) : ∀ x pre start last,
  l = pre ++ x →
  start ≤ length pre →
  (start < length pre ∨ last = 0) →
  (∀ i a, start ≤ i < length pre → l !! i = Some a → len a = last) →
  Forall (λ y, last ≤ len y) x →
  StronglySorted (key_le len) x →
  Forall (λ y, 0 < len y) x →
  (x = [] → length pre ≤ start + 1) →
  (∀ s e, (s, e) ∈ (ranges_loop len (length l) (length pre) start last x).1 →
     start ≤ s ∧ s + 2 ≤ e ≤ length l ∧
     ∃ L, ∀ i a, s ≤ i < e → l !! i = Some a → len a = L) ∧
  (∀ i j a b, start ≤ i < j → l !! i = Some a → l !! j = Some b → len a = len b →
     ∃ s e, (s, e) ∈ (ranges_loop len (length l) (length pre) start last x).1 ∧
            s ≤ i ∧ j < e).
Proof.
  induction x as [|y x IH];
    intros pre start last Hl Hstart Hopen Hrun Hge Hsorted Hpos Hend.
  { split; [intros s e Hin; by apply not_elem_of_nil in Hin|].
    intros i j a b Hij _ Hj _. apply lookup_lt_Some in Hj.
    rewrite Hl, app_nil_r in Hj. specialize (Hend eq_refl). lia. }
  apply Forall_cons in Hge as [Hy Hge].
  apply StronglySorted_cons in Hsorted as [Hyx Hsorted].
  apply Forall_cons in Hpos as [Hypos Hpos].
  assert (Hat : l !! length pre = Some y) by (rewrite Hl; apply list_lookup_middle; done).
  assert (Hlen : length l = length pre + S (length x))
    by (rewrite Hl, length_app; done).
  assert (Hl' : l = (pre ++ [y]) ++ x) by (by rewrite <-(assoc_L (++))).
  assert (Hpre' : length (pre ++ [y]) = S (length pre))
    by (rewrite length_app; simpl; lia).
  cbn [ranges_loop].
  rewrite (bool_decide_eq_false_2 (len y < last)) by lia.
  destruct (decide (last < len y)) as [Hlt|Hnlt].
  - rewrite (bool_decide_eq_true_2 (last < len y)) by done.
    rewrite (bool_decide_eq_false_2 (len y = last ∧ _)) by lia.
    destruct (IH (pre ++ [y]) (length pre) (len y)) as [IHv IHc];
      [done|lia|lia| | |done|done|lia|].
    { intros i a Hi Ha. assert (i = length pre) by lia. subst i. congruence. }
    { eapply Forall_impl; [exact Hyx|]. unfold key_le. by intros. }
    rewrite Hpre' in IHv, IHc.
    destruct (ranges_loop len (length l) (S (length pre)) (length pre) (len y) x)
      as [ys err]. cbn [fst app] in *.
    split.
    + intros s e Hin. apply elem_of_app in Hin as [Hin|Hin].
      * case_bool_decide as Hbig; [|by apply not_elem_of_nil in Hin].
        apply list_elem_of_singleton in Hin as [= -> ->].
        split_and!; [lia..|]. exists last. intros i a Hi. by apply Hrun.
      * destruct (IHv s e Hin) as (? & ? & ?). split_and!; [lia|lia|lia|done].
    + intros i j a b Hij Ha Hb Hab.
      destruct (decide (i < length pre)) as [Hi|Hi].
      * assert (Hla : len a = last) by (apply (Hrun i); [lia|done]).
        assert (Hj : j < length pre).
        { destruct (decide (j < length pre)) as [|Hj]; [done|]. exfalso.
          destruct (decide (j = length pre)) as [->|Hne].
          - assert (b = y) by congruence. subst b. lia.
          - rewrite Hl' in Hb. rewrite lookup_app_r in Hb by lia.
            apply list_elem_of_lookup_2 in Hb.
            rewrite Forall_forall in Hyx. specialize (Hyx b Hb).
            unfold key_le in Hyx. lia. }
        exists start, (length pre). split; [|lia].
        apply elem_of_app. left.
        rewrite bool_decide_eq_true_2 by (split; [done|lia]). by left.
      * destruct (IHc i j a b) as (s & e & Hin & ?); [lia|done..|].
        exists s, e. split; [|done]. apply elem_of_app. by right.
  - assert (Hylast : len y = last) by lia.
    rewrite (bool_decide_eq_false_2 (last < len y ∧ _)) by lia.
    rewrite (bool_decide_eq_false_2 (last < len y)) by done.
    assert (Hopen' : start < length pre) by lia.
    assert (Hrun' : ∀ i a, start ≤ i < S (length pre) → l !! i = Some a → len a = last).
    { intros i a Hi Ha. destruct (decide (i = length pre)) as [->|Hne].
      - congruence.
      - apply (Hrun i); [lia|done]. }
    destruct x as [|z x].
    + rewrite bool_decide_eq_true_2 by (simpl in Hlen; lia).
      cbn [ranges_loop fst app]. split.
      * intros s e Hin. apply list_elem_of_singleton in Hin as [= -> ->].
        split_and!; [lia|lia|simpl in Hlen; lia|]. exists last.
        intros i a Hi. apply Hrun'. lia.
      * intros i j a b Hij Ha Hb Hab. exists start, (length pre + 1).
        split; [by left|]. apply lookup_lt_Some in Hb. simpl in Hlen. lia.
    + rewrite bool_decide_eq_false_2 by (simpl in Hlen; lia).
      destruct (IH (pre ++ [y]) start last) as [IHv IHc];
        [done|lia|lia| |done|done|done|done|].
      { intros i a Hi. apply Hrun'. lia. }
      rewrite Hpre' in IHv, IHc. rewrite Hylast.
      destruct (ranges_loop len (length l) (S (length pre)) start last (z :: x))
        as [ys err]. cbn [fst app] in *. by split.
Qed.
End ranges_facts.

(** X3: [ranges_with_constant_length] ends with its [MappingParsingError]
    exactly when the lengths of the elements are not in ascending order. *)
Theorem ranges_raise_iff_unordered {A} (len : A → nat) (x : list A) :
  (MappingParser.ranges_with_constant_length len x).2
  = if bool_decide (StronglySorted le (len <$> x)) then None else Some unordered_list.
Proof.
  unfold MappingParser.ranges_with_constant_length. rewrite ranges_loop_error.
  apply (f_equal (λ b : bool, if b then None else Some unordered_list)).
  apply bool_decide_ext. rewrite StronglySorted_cons. split; [by intros [_ ?]|].
  intros Hs. split; [|done]. apply Forall_forall. intros; lia.
Qed.

(** X4: on non-empty elements ordered by length, every range that
    [ranges_with_constant_length] yields lies within the list, has at least
    two elements and holds elements of one length; and any two elements of
    equal length lie in one of the yielded ranges. *)
Theorem ranges_are_the_runs {A} (len : A → nat) (x : list A) :
  StronglySorted (key_le len) x →
  Forall (λ y, 0 < len y) x →
  (∀ s e, (s, e) ∈ (MappingParser.ranges_with_constant_length len x).1 →
     s + 2 ≤ e ≤ length x ∧
     ∃ L, ∀ i a, s ≤ i < e → x !! i = Some a → len a = L) ∧
  (∀ i j a b, i < j → x !! i = Some a → x !! j = Some b → len a = len b →
     ∃ s e, (s, e) ∈ (MappingParser.ranges_with_constant_length len x).1 ∧
            s ≤ i ∧ j < e).
Proof.
  intros Hs Hpos.
  destruct (ranges_loop_runs len x x [] 0 0) as [Hv Hc];
    [done|simpl; lia|by right|simpl; intros; lia|apply Forall_forall; intros; lia|
     done|done|simpl; lia|].
  split.
  - intros s e Hin. destruct (Hv s e Hin) as (_ & ? & ?). done.
  - intros i j a b Hij. apply Hc. lia.
Qed.

Lemma ranges_are_the_runs_witness :
  (∀ s e, (s, e) ∈ (MappingParser.ranges_with_constant_length length
                      [[1]; [1; 2]; [3; 4]; [1; 2; 3]]).1 →
     s + 2 ≤ e ≤ length [[1]; [1; 2]; [3; 4]; [1; 2; 3]] ∧
     ∃ L, ∀ i a, s ≤ i < e → [[1]; [1; 2]; [3; 4]; [1; 2; 3]] !! i = Some a → length a = L) ∧
  (∀ i j a b, i < j → [[1]; [1; 2]; [3; 4]; [1; 2; 3]] !! i = Some a →
     [[1]; [1; 2]; [3; 4]; [1; 2; 3]] !! j = Some b → length a = length b →
     ∃ s e, (s, e) ∈ (MappingParser.ranges_with_constant_length length
                        [[1]; [1; 2]; [3; 4]; [1; 2; 3]]).1 ∧
            s ≤ i ∧ j < e).
Proof.
  apply (ranges_are_the_runs length [[1]; [1; 2]; [3; 4]; [1; 2; 3]]).
  - repeat first [apply SSorted_nil | apply SSorted_cons | apply Forall_nil_2
                 | apply Forall_cons_2 | (unfold key_le; simpl; lia)].
  - repeat first [apply Forall_nil_2 | apply Forall_cons_2 | (simpl; lia)].
Defined.

(** ** Ranking: the exceptions of [_order_combinations] *)

Lemma set_slice_slice {A} (l : list A) s e : set_slice l s e (slice l s e) = l.
Proof.
  unfold set_slice, slice.
  rewrite <-(take_drop s l) at 4. f_equal.
  rewrite <-(take_drop (e - s) (drop s l)) at 2. f_equal.
  rewrite drop_drop. f_equal. lia.
Qed.

Lemma set_slice_perm {A} (l sub : list A) s e :
  sub ≡ₚ slice l s e → set_slice l s e sub ≡ₚ l.
Proof.
  intros Hp. rewrite <-(set_slice_slice l s e) at 2.
  unfold set_slice. by rewrite Hp.
Qed.

Lemma slice_elem_of {A} (l : list A) s e x : x ∈ slice l s e → x ∈ l.
Proof.
  unfold slice. intros Hx.
  eapply elem_of_sublist; [exact Hx|].
  etrans; [apply sublist_take|apply sublist_drop].
Qed.

Section order_total.
Context {E : Type} `{EqDecision E}.
Import MappingParser.

Lemma rmapM_index_key (common_event : E) (l : list (list E)) :
  match rmapM (λ a, k ← index a common_event; Ok (k, a)) l with
  | Ok keyed => keyed = (λ a, (index_nat common_event a, a)) <$> l
  | Raise x => x = ValueError ∧ ∃ c, c ∈ l ∧ common_event ∉ c
  end.
Proof.
  induction l as [|a l IH]; simpl; [done|].
  destruct (decide (common_event ∈ a)) as [Hin|Hnin].
  - rewrite (index_elem_of a common_event Hin). simpl.
    destruct (rmapM _ l) as [keyed|x]; simpl.
    + by rewrite IH.
    + destruct IH as (-> & c & Hc & Hn). split; [done|]. exists c. split; [by right|done].
  - rewrite (index_raises a common_event Hnin). simpl.
    split; [done|]. exists a. split; [by left|done].
Qed.

Lemma list_sort_key_index (common_event : E) (l : list (list E)) :
  match list_sort_key (λ x, index x common_event) l with
  | Ok l' => l' ≡ₚ l
  | Raise x => x = ValueError ∧ ∃ c, c ∈ l ∧ common_event ∉ c
  end.
Proof.
  unfold list_sort_key. pose proof (rmapM_index_key common_event l) as Hk.
  destruct (rmapM _ l) as [keyed|x]; simpl; [|done].
  rewrite Hk, sort_by_decorated, <-list_fmap_compose.
  etrans; [|apply (sort_by_perm (index_nat common_event))].
  apply reflexive_eq. apply list_fmap_id.
Qed.

Lemma order_ranges_total (common_event : E) rs (l : list (list E)) :
  match order_ranges common_event rs l with
  | Ok l' => l' ≡ₚ l
  | Raise x => x = ValueError ∧ ∃ c, c ∈ l ∧ common_event ∉ c
  end.
Proof.
  revert l. induction rs as [|[s e] rs IH]; intros l; simpl; [done|].
  pose proof (list_sort_key_index common_event (slice l s e)) as Hs.
  destruct (list_sort_key _ (slice l s e)) as [sub|x]; simpl.
  - pose proof (set_slice_perm l sub s e Hs) as Hp.
    specialize (IH (set_slice l s e sub)).
    destruct (order_ranges _ rs _) as [l'|x].
    + by rewrite IH.
    + destruct IH as (-> & c & Hc & Hn). split; [done|]. exists c.
      split; [by rewrite <-Hp|done].
  - destruct Hs as (-> & c & Hc & Hn). split; [done|]. exists c.
    split; [by eapply slice_elem_of|done].
Qed.
End order_total.

(** X5: whatever the combinations, [_order_combinations] returns a
    permutation of its argument or raises [ValueError], and it raises only
    when some combination does not hold the common event; the error of
    [ranges_with_constant_length] cannot happen, since the list was just
    sorted by length. *)
Theorem order_combinations_total {E : Type} `{EqDecision E}
    (combinations : list (list E)) (common_event : E) :
  match MappingParser._order_combinations combinations common_event with
  | Ok ordered => ordered ≡ₚ combinations
  | Raise x => x = ValueError ∧ ∃ c, c ∈ combinations ∧ common_event ∉ c
  end.
Proof.
  unfold MappingParser._order_combinations, MappingParser.ranges_with_constant_length.
  pose proof (ranges_loop_error length (length (sort_by length combinations))
                (sort_by length combinations) 0 0 0) as He.
  rewrite bool_decide_eq_true_2 in He.
  2:{ constructor; [|apply Forall_forall; intros; lia].
      apply (StronglySorted_fmap length (key_le length)); [done|apply sort_by_sorted]. }
  destruct (MappingParser.ranges_loop _ _ _ _ _ _) as [rs e]. simpl in He. subst e.
  pose proof (order_ranges_total common_event rs (sort_by length combinations)) as Ho.
  destruct (MappingParser.order_ranges _ rs _) as [l'|x]; simpl.
  - by rewrite reverse_Permutation, Ho, sort_by_perm.
  - destruct Ho as (-> & c & Hc & Hn). split; [done|]. exists c.
    split; [by rewrite <-(sort_by_perm length combinations)|done].
Qed.

(** ** The parser: what it accepts and what it builds *)

Section parser_facts_2.
Context (DISABLE_CODE : Z) (DISABLE_NAME : string) (is_this_a_macro : string → bool).
Context {H W : Type} `{EqDecision H} {HW : Parser.Handlers H W}.
Context (combination_eqb : list InputEvent → list InputEvent → bool).
Context (recursion_limit : nat).

Abbreviation _get_output_handler :=
  (Parser._get_output_handler DISABLE_CODE DISABLE_NAME is_this_a_macro).
Abbreviation output_handlers :=
  (Parser.output_handlers DISABLE_CODE DISABLE_NAME is_this_a_macro recursion_limit).
Abbreviation split_ranking := (Parser.split_ranking combination_eqb).
Abbreviation parse_mappings :=
  (Parser.parse_mappings DISABLE_CODE DISABLE_NAME is_this_a_macro
     combination_eqb recursion_limit).

Lemma classified_implemented mapping handler_enum cls :
  _get_output_handler mapping = Ok handler_enum →
  Parser.mapping_handler_classes handler_enum = Some cls →
  handler_enum ∈ [Parser.disable; Parser.macro; Parser.key; Parser.abs2rel].
Proof.
  unfold Parser._get_output_handler. intros Hm Hcls.
  repeat (case_match; simplify_eq; try done);
    repeat first [by apply list_elem_of_here | apply list_elem_of_further].
Qed.

Lemma output_handlers_accepts preset handlers w hs w' :
  output_handlers preset handlers w = (Ok hs, w') →
  Forall (λ mapping, ∃ handler_enum,
            _get_output_handler mapping = Ok handler_enum ∧
            handler_enum ∈ [Parser.disable; Parser.macro; Parser.key; Parser.abs2rel])
    preset.
Proof.
  revert handlers w. induction preset as [|m preset IH]; intros handlers w Hout.
  { constructor. }
  simpl in Hout.
  destruct (_get_output_handler m) as [handler_enum|] eqn:Hm; [|done].
  destruct (Parser.mapping_handler_classes handler_enum) as [cls|] eqn:Hcls; [|done].
  destruct (Parser.construct cls _ m w) as [[h|] w1]; [|done].
  destruct (Parser._create_event_pipeline _ h false w1) as [[hs1|] w2]; [|done].
  constructor; [|by eapply IH].
  exists handler_enum. split; [done|]. by eapply classified_implemented.
Qed.

(** X6: [parse_mappings] returns pipelines only for a preset in which
    every mapping is classified as [disable], [macro], [key] or [abs2rel], the
    four kinds of output that have a handler class. *)
Theorem parse_mappings_accepts preset w event_pipelines w' :
  parse_mappings preset w = (Ok event_pipelines, w') →
  Forall (λ mapping, ∃ handler_enum,
            _get_output_handler mapping = Ok handler_enum ∧
            handler_enum ∈ [Parser.disable; Parser.macro; Parser.key; Parser.abs2rel])
    preset.
Proof.
  unfold Parser.parse_mappings.
  destruct (output_handlers preset [] w) as [[hs|] w1] eqn:Hout; [|done].
  intros _. by eapply output_handlers_accepts.
Qed.

Lemma list_remove_middle (h : H) kept rest :
  h ∉ kept → Parser.list_remove h (kept ++ h :: rest) = kept ++ rest.
Proof.
  induction kept as [|x kept IH]; intros Hnin; simpl.
  - by rewrite decide_True.
  - apply not_elem_of_cons in Hnin as [Hne Hnin].
    rewrite decide_False by done. by rewrite IH.
Qed.

Lemma dict_set_elem_of (d : list (list InputEvent * H)) k h k' h' :
  (k', h') ∈ Parser.dict_set combination_eqb d k h →
  (k', h') ∈ d ∨ (h' = h ∧ (k' = k ∨ combination_eqb k' k = true)).
Proof.
  induction d as [|[k0 h0] d IH]; simpl.
  - intros Hin. apply list_elem_of_singleton in Hin as [= -> ->]. by auto.
  - destruct (combination_eqb k0 k) eqn:Heq; intros Hin;
      apply elem_of_cons in Hin as [[= -> ->]|Hin].
    + by auto.
    + left. by right.
    + left. by left.
    + destruct (IH Hin) as [?|?]; [left; by right|by right].
Qed.

Lemma dict_set_keys (d : list (list InputEvent * H)) k h k' :
  k' ∈ d.*1 → k' ∈ (Parser.dict_set combination_eqb d k h).*1.
Proof.
  induction d as [|[k0 h0] d IH]; simpl; [by intros ?%not_elem_of_nil|].
  destruct (combination_eqb k0 k); simpl; intros Hin; [done|].
  apply elem_of_cons in Hin as [->|Hin]; [by left|]. right. by apply IH.
Qed.

Lemma dict_set_key (d : list (list InputEvent * H)) k h :
  ∃ k', k' ∈ (Parser.dict_set combination_eqb d k h).*1 ∧
        (k' = k ∨ combination_eqb k' k = true).
Proof.
  induction d as [|[k0 h0] d IH]; simpl.
  - exists k. split; [by left|by left].
  - destruct (combination_eqb k0 k) eqn:Heq; simpl.
    + exists k0. split; [by left|by right].
    + destruct IH as (k' & Hin & Hk). exists k'. split; [by right|done].
Qed.

Lemma split_ranking_spec copy kept need_ranking w handlers' need_ranking' :
  split_ranking copy (kept ++ copy) need_ranking w = Ok (handlers', need_ranking') →
  Forall (λ h, Parser.needs_ranking h w = false) kept →
  handlers' = kept ++ filter (λ h, Parser.needs_ranking h w = false) copy ∧
  (∀ k h, (k, h) ∈ need_ranking' →
     (k, h) ∈ need_ranking ∨
     (h ∈ copy ∧ Parser.needs_ranking h w = true ∧
      ∃ c, Parser.rank_by h w = Some c ∧ c ≠ [] ∧
           (k = c ∨ combination_eqb k c = true))) ∧
  (∀ k, k ∈ need_ranking.*1 → k ∈ need_ranking'.*1) ∧
  (∀ h, h ∈ copy → Parser.needs_ranking h w = true →
     ∃ c k, Parser.rank_by h w = Some c ∧ k ∈ need_ranking'.*1 ∧
            (k = c ∨ combination_eqb k c = true)).
Proof.
  revert kept need_ranking.
  induction copy as [|h copy IH]; intros kept need_ranking Hsplit Hkept.
  { simpl in Hsplit. injection Hsplit as <- <-.
    split_and!; [done|by auto|done|]. by intros h ?%not_elem_of_nil. }
  simpl in Hsplit. rewrite filter_cons.
  destruct (Parser.needs_ranking h w) eqn:Hneeds.
  - destruct (Parser.rank_by h w) as [[|ev c]|] eqn:Hrank; [done| |done].
    rewrite list_remove_middle in Hsplit.
    2:{ intros Hin. rewrite Forall_forall in Hkept. specialize (Hkept h Hin). congruence. }
    destruct (IH _ _ Hsplit Hkept) as (Hh & Hnr & Hkeys & Hcov).
    rewrite decide_False by done. split_and!; [done| | |].
    + intros k h' Hin. destruct (Hnr k h' Hin) as [Hin'|(? & ? & ?)].
      * apply dict_set_elem_of in Hin' as [?|[-> Hk]]; [by left|].
        right. split_and!; [by left|done|]. exists (ev :: c). by split_and!.
      * right. split; [by right|done].
    + intros k Hk. by apply Hkeys, dict_set_keys.
    + intros h' Hin Hn. apply elem_of_cons in Hin as [->|Hin]; [|by apply Hcov].
      destruct (dict_set_key need_ranking (ev :: c) h) as (k & Hk & Heq).
      exists (ev :: c), k. split_and!; [done|by apply Hkeys|done].
  - rewrite decide_True by done.
    replace (kept ++ h :: copy) with ((kept ++ [h]) ++ copy) in Hsplit
      by by rewrite <-(assoc_L (++)).
    destruct (IH _ _ Hsplit) as (Hh & Hnr & Hkeys & Hcov).
    { apply Forall_app. by repeat constructor. }
    rewrite <-(assoc_L (++)) in Hh. split_and!; [done| |done|].
    + intros k h' Hin. destruct (Hnr k h' Hin) as [?|(? & ?)]; [by left|].
      right. split; [by right|done].
    + intros h' Hin Hn. apply elem_of_cons in Hin as [->|Hin]; [congruence|].
      by apply Hcov.
Qed.

(** X7: the loop over the copy of [handlers] leaves in [handlers] exactly
    the handlers that do not need ranking, in their order; every entry of
    [need_ranking] is a handler of the list that needs ranking, under a key
    equal to its combination, and the combination of every such handler is
    covered by a key. *)
Theorem split_ranking_partitions handlers w kept need_ranking :
  split_ranking handlers handlers [] w = Ok (kept, need_ranking) →
  kept = filter (λ h, Parser.needs_ranking h w = false) handlers ∧
  (∀ k h, (k, h) ∈ need_ranking →
     h ∈ handlers ∧ Parser.needs_ranking h w = true ∧
     ∃ c, Parser.rank_by h w = Some c ∧ c ≠ [] ∧ (k = c ∨ combination_eqb k c = true)) ∧
  (∀ h, h ∈ handlers → Parser.needs_ranking h w = true →
     ∃ c k, Parser.rank_by h w = Some c ∧ k ∈ need_ranking.*1 ∧
            (k = c ∨ combination_eqb k c = true)).
Proof.
  intros Hsplit.
  destruct (split_ranking_spec handlers [] [] w kept need_ranking Hsplit)
    as (Hk & Hnr & _ & Hcov); [constructor|].
  split_and!; [done| |done].
  intros k h Hin. destruct (Hnr k h Hin) as [?%not_elem_of_nil|?]; done.
Qed.

(** X8: when a combination equals itself, [_create_hierarchy_handlers]
    returns: neither the [KeyError] of the dictionary, nor the [ValueError] of
    [index], nor the error of [ranges_with_constant_length] can happen. *)
Theorem create_hierarchy_handlers_never_raises (d : list (list InputEvent * H)) w :
  (∀ c, combination_eqb c c = true) →
  ∃ hs w', Parser._create_hierarchy_handlers combination_eqb d w = (Ok hs, w').
Proof. apply create_hierarchy_handlers_returns. Qed.

Lemma pipelines_add_cons k hs (ep : list (InputEvent * list H)) event handler :
  Parser.pipelines_add ((k, hs) :: ep) event handler
  = if decide (k = event) then (event, hs ++ [handler]) :: ep
    else (k, hs) :: Parser.pipelines_add ep event handler.
Proof.
  unfold Parser.pipelines_add. cbn [list_find fst].
  destruct (decide (k = event)) as [->|Hne]; [done|].
  destruct (list_find _ ep) as [[i [k' hs']]|]; done.
Qed.

Lemma pipelines_add_spec (ep : list (InputEvent * list H)) event handler :
  (∀ e, pipeline_get (Parser.pipelines_add ep event handler) e
        = pipeline_get ep e ++ (if decide (e = event) then [handler] else [])) ∧
  (∀ e, e ∈ (Parser.pipelines_add ep event handler).*1 ↔ e = event ∨ e ∈ ep.*1) ∧
  (NoDup ep.*1 → NoDup (Parser.pipelines_add ep event handler).*1).
Proof.
  induction ep as [|[k hs] ep (IHget & IHkeys & IHnd)].
  { split_and!.
    - intros e. simpl. destruct (decide (event = e)) as [->|Hne].
      + by rewrite decide_True.
      + by rewrite decide_False by congruence.
    - intros e. simpl. rewrite list_elem_of_singleton, elem_of_nil. tauto.
    - intros _. simpl. apply NoDup_singleton. }
  rewrite pipelines_add_cons. destruct (decide (k = event)) as [->|Hne].
  - split_and!.
    + intros e. simpl. destruct (decide (event = e)) as [->|Hne].
      * by rewrite decide_True.
      * rewrite decide_False by congruence. by rewrite app_nil_r.
    + intros e. simpl. rewrite !elem_of_cons. tauto.
    + done.
  - split_and!.
    + intros e. simpl. destruct (decide (k = e)) as [->|Hne'].
      * rewrite decide_False by done. by rewrite app_nil_r.
      * apply IHget.
    + intros e. rewrite !fmap_cons, !elem_of_cons, IHkeys. simpl. tauto.
    + rewrite !fmap_cons. simpl. intros [Hk Hnd]%NoDup_cons.
      apply NoDup_cons. split; [|by apply IHnd].
      rewrite IHkeys. intros [?|?]; [congruence|done].
Qed.

(** What one handler adds to the pipeline of an event. *)
Lemma pipelines_add_events (ep : list (InputEvent * list H)) events handler :
  let ep' := foldl (λ ep event, Parser.pipelines_add ep event handler) ep events in
  (∀ e, pipeline_get ep' e
        = pipeline_get ep e ++ ((λ _, handler) <$> filter (λ ev, ev = e) events)) ∧
  (∀ e, e ∈ ep'.*1 ↔ e ∈ events ∨ e ∈ ep.*1) ∧
  (NoDup ep.*1 → NoDup ep'.*1).
Proof.
  revert ep. induction events as [|event events IH]; intros ep; simpl.
  { split_and!; [intros; by rewrite app_nil_r| |done].
    intros e. rewrite elem_of_nil. tauto. }
  destruct (pipelines_add_spec ep event handler) as (Hget & Hkeys & Hnd).
  destruct (IH (Parser.pipelines_add ep event handler)) as (IHget & IHkeys & IHnd).
  split_and!.
  - intros e. rewrite IHget, Hget, filter_cons, <-(assoc_L (++)). f_equal.
    destruct (decide (e = event)) as [->|Hne].
    + by rewrite decide_True.
    + by rewrite decide_False by congruence.
  - intros e. rewrite IHkeys, Hkeys, elem_of_cons. tauto.
  - intros Hep. by apply IHnd, Hnd.
Qed.

Lemma assemble_spec handlers (ep : list (InputEvent * list H)) w :
  let ep' := foldl (λ event_pipelines handler,
                      foldl (λ ep event, Parser.pipelines_add ep event handler)
                        event_pipelines (Parser.input_events handler w))
               ep handlers in
  (∀ e, pipeline_get ep' e
        = pipeline_get ep e ++
          (handlers ≫= λ h, (λ _, h) <$> filter (λ ev, ev = e) (Parser.input_events h w))) ∧
  (∀ e, e ∈ ep'.*1 ↔ (∃ h, h ∈ handlers ∧ e ∈ Parser.input_events h w) ∨ e ∈ ep.*1) ∧
  (NoDup ep.*1 → NoDup ep'.*1).
Proof.
  revert ep. induction handlers as [|h handlers IH]; intros ep; simpl.
  { split_and!; [intros; by rewrite app_nil_r| |done].
    intros e. split; [by right|]. intros [(h & ?%not_elem_of_nil & _)|?]; done. }
  destruct (pipelines_add_events ep (Parser.input_events h w) h) as (Hget & Hkeys & Hnd).
  destruct (IH (foldl (λ ep event, Parser.pipelines_add ep event h) ep
                  (Parser.input_events h w))) as (IHget & IHkeys & IHnd).
  split_and!.
  - intros e. by rewrite IHget, Hget, <-(assoc_L (++)).
  - intros e. rewrite IHkeys, Hkeys. split.
    + intros [(h' & Hin & He)|[He|He]].
      * left. exists h'. split; [by right|done].
      * left. exists h. split; [by left|done].
      * by right.
    + intros [(h' & Hin & He)|He]; [|by auto].
      apply elem_of_cons in Hin as [->|Hin]; [by auto|].
      left. by exists h'.
  - intros Hep. by apply IHnd, Hnd.
Qed.

(** X9: the pipelines have one entry per event; an event is a key exactly
    when it is an input event of some handler, and its list holds the handlers
    with this input event in the order of [handlers], once for each time the
    event occurs among the input events of the handler. *)
Theorem assemble_pipelines handlers w :
  NoDup (Parser.assemble handlers w).*1 ∧
  (∀ e, e ∈ (Parser.assemble handlers w).*1 ↔
        ∃ h, h ∈ handlers ∧ e ∈ Parser.input_events h w) ∧
  (∀ e, pipeline_get (Parser.assemble handlers w) e
        = handlers ≫= λ h, (λ _, h) <$> filter (λ ev, ev = e) (Parser.input_events h w)).
Proof.
  destruct (assemble_spec handlers [] w) as (Hget & Hkeys & Hnd).
  split_and!.
  - apply Hnd. constructor.
  - intros e. rewrite (Hkeys e). split; [|by left].
    intros [?|?%not_elem_of_nil]; done.
  - intros e. apply Hget.
Qed.
End parser_facts_2.

Lemma parse_mappings_accepts_witness :
  Forall (λ mapping, ∃ handler_enum,
            Parser._get_output_handler (-1) "disable" example_is_macro mapping
            = Ok handler_enum ∧
            handler_enum ∈ [Parser.disable; Parser.macro; Parser.key; Parser.abs2rel])
    [key_mapping].
Proof.
  apply (parse_mappings_accepts (-1) "disable" example_is_macro
           (HW := example_handlers false true) (λ a b, bool_decide (a = b)) 1000
           [key_mapping] [] [(mkInputEvent 0 0 1 1 1 None, [1])] []).
  vm_compute. reflexivity.
Defined.

Lemma split_ranking_partitions_witness :
  [] = filter (λ h, Parser.needs_ranking (Handlers := example_handlers true true) h [] = false)
         [1; 2] ∧
  (∀ k h, (k, h) ∈ [([mkInputEvent 0 0 1 30 1 None], 2)] →
     h ∈ [1; 2] ∧ Parser.needs_ranking (Handlers := example_handlers true true) h [] = true ∧
     ∃ c, Parser.rank_by (Handlers := example_handlers true true) h [] = Some c ∧ c ≠ [] ∧
          (k = c ∨ bool_decide (k = c) = true)) ∧
  (∀ h, h ∈ [1; 2] →
     Parser.needs_ranking (Handlers := example_handlers true true) h [] = true →
     ∃ c k, Parser.rank_by (Handlers := example_handlers true true) h [] = Some c ∧
            k ∈ [([mkInputEvent 0 0 1 30 1 None], 2)].*1 ∧
            (k = c ∨ bool_decide (k = c) = true)).
Proof.
  apply (split_ranking_partitions (HW := example_handlers true true)
           (λ a b, bool_decide (a = b)) [1; 2] [] []
           [([mkInputEvent 0 0 1 30 1 None], 2)]).
  vm_compute. reflexivity.
Defined.

Lemma create_hierarchy_handlers_never_raises_witness :
  ∃ hs w',
    Parser._create_hierarchy_handlers (HW := example_handlers true true)
      (λ a b, bool_decide (a = b))
      [([mkInputEvent 0 0 1 31 1 None], 1);
       ([mkInputEvent 0 0 1 30 1 None; mkInputEvent 0 0 1 31 1 None], 2)] []
    = (Ok hs, w').
Proof.
  apply (create_hierarchy_handlers_never_raises (HW := example_handlers true true)
           (λ a b, bool_decide (a = b))
           [([mkInputEvent 0 0 1 31 1 None], 1);
            ([mkInputEvent 0 0 1 30 1 None; mkInputEvent 0 0 1 31 1 None], 2)] []).
  intros c. by apply bool_decide_eq_true_2.
Defined.

(** ** The event reader: what is forwarded *)

Lemma copy_event_id event : EventReader.copy_event event = event.
Proof. by destruct event. Qed.

Lemma send_to_handlers_consumed context event :
  (EventReader.send_to_handlers context event).1 = true ↔ consumed context event.
Proof.
  unfold EventReader.send_to_handlers, consumed.
  destruct (decide (evdev.type event = ecodes.EV_MSC)) as [Hmsc|Hmsc].
  { simpl. split; [done|]. by intros [? _]. }
  destruct (decide (evdev.type event = ecodes.EV_SYN)) as [Hsyn|Hsyn].
  { simpl. split; [done|]. by intros (_ & ? & _). }
  rewrite copy_event_id.
  destruct (EventReader.dict_get _ _) as [cbs|]; simpl.
  - rewrite bool_decide_eq_true, list_elem_of_fmap. split.
    + intros (cb & Hcb & Hin). split_and!; [done..|]. by exists cbs, cb.
    + intros (_ & _ & cbs' & cb & [= <-] & Hin & Hcb). by exists cb.
  - split; [done|]. by intros (_ & _ & ? & ? & ? & _).
Qed.

Lemma handle_forward_effects context event :
  filter (λ e, EventReader.is_forward_effect e = true) (EventReader.handle context event)
  = if passes context event then EventReader.forward event else [].
Proof.
  unfold passes, EventReader.handle, is_hold.
  destruct (decide (evdev.type event = ecodes.EV_KEY ∧ evdev.value event = 2%Z))
    as [Hhold|Hhold].
  { by rewrite bool_decide_eq_true_2. }
  rewrite bool_decide_eq_false_2 by done. cbn [negb andb].
  assert (Hl : filter (λ e, EventReader.is_forward_effect e = true)
                 (EventReader.send_to_listeners context event) = []).
  { unfold EventReader.send_to_listeners. repeat case_decide; [done..|].
    induction (EventReader.listeners context) as [|l ls IH]; [done|].
    rewrite bind_cons, filter_app, IH. done. }
  assert (Hh : filter (λ e, EventReader.is_forward_effect e = true)
                 (EventReader.send_to_handlers context event).2 = []).
  { unfold EventReader.send_to_handlers. repeat case_decide; [done..|].
    destruct (EventReader.dict_get _ _) as [cbs|]; [|done]. cbn [snd].
    induction cbs as [|cb cbs IH]; [done|]. rewrite fmap_cons, filter_cons. done. }
  destruct (EventReader.send_to_handlers context event) as [handled to_handlers].
  cbn [fst snd] in *. rewrite !filter_app, Hl, Hh.
  by destruct handled.
Qed.

(** X10: an event that is no key-hold event is not forwarded when a
    callback registered for its type and code reports it as handled, and is
    forwarded exactly once, unchanged, otherwise. *)
Theorem handle_forwards_unless_consumed (context : EventReader.Context)
    (event : evdev.InputEvent) :
  ¬ is_hold event →
  (consumed context event →
   Forall (λ e, EventReader.is_forward_effect e = false)
     (EventReader.handle context event)) ∧
  (¬ consumed context event →
   filter (λ e, EventReader.is_forward_effect e = true) (EventReader.handle context event)
   = [EventReader.ForwardWritten (evdev.type event) (evdev.code event)
        (evdev.value event)]).
Proof.
  intros Hhold. pose proof (handle_forward_effects context event) as Hf.
  unfold passes in Hf. rewrite bool_decide_eq_false_2 in Hf by done.
  cbn [negb andb] in Hf.
  pose proof (send_to_handlers_consumed context event) as Hc.
  destruct (EventReader.send_to_handlers context event).1.
  - split; [|intros Hn; exfalso; apply Hn; by apply Hc].
    intros _. apply Forall_forall. intros e He.
    destruct (EventReader.is_forward_effect e) eqn:Hfw; [|done].
    assert (Hin : e ∈ filter (λ e, EventReader.is_forward_effect e = true)
                  (EventReader.handle context event))
      by by apply list_elem_of_filter.
    rewrite Hf in Hin. by apply not_elem_of_nil in Hin.
  - split; [|done]. intros Hcons. assert (false = true); [|done].
    by apply Hc.
Qed.

Lemma handle_forwards_unless_consumed_witness :
  (consumed example_context (evdev.mkInputEvent 0 0 1 30 1) →
   Forall (λ e, EventReader.is_forward_effect e = false)
     (EventReader.handle example_context (evdev.mkInputEvent 0 0 1 30 1))) ∧
  (¬ consumed example_context (evdev.mkInputEvent 0 0 1 30 1) →
   filter (λ e, EventReader.is_forward_effect e = true)
     (EventReader.handle example_context (evdev.mkInputEvent 0 0 1 30 1))
   = [EventReader.ForwardWritten 1 30 1]).
Proof.
  apply (handle_forwards_unless_consumed example_context (evdev.mkInputEvent 0 0 1 30 1)).
  unfold is_hold. simpl. intros [_ Hv]. discriminate Hv.
Defined.

(** X11: over the events of a source, [run] forwards exactly the events
    that are neither key-hold events nor handled when they arrive, in the
    order of arrival. *)
Theorem run_forwards_in_order (reads : list (EventReader.Context * evdev.InputEvent)) :
  filter (λ e, EventReader.is_forward_effect e = true) (EventReader.run reads)
  = (λ r, EventReader.ForwardWritten (evdev.type r.2) (evdev.code r.2) (evdev.value r.2))
    <$> filter (λ r, passes r.1 r.2 = true) reads.
Proof.
  unfold EventReader.run. induction reads as [|[context event] reads IH]; [done|].
  rewrite bind_cons, filter_app, IH, handle_forward_effects, filter_cons.
  cbn [fst snd]. destruct (passes context event); [|done].
  rewrite decide_True by done. done.
Qed.

(** X12: within [handle] every listener is scheduled before any callback
    is called, and both get the event that arrived. *)
Theorem handle_listeners_first (context : EventReader.Context)
    (event : evdev.InputEvent) (i j : nat) l c e1 e2 :
  EventReader.handle context event !! i = Some (EventReader.ListenerScheduled l e1) →
  EventReader.handle context event !! j = Some (EventReader.CallbackCalled c e2) →
  i < j ∧ e1 = event ∧ e2 = event.
Proof.
  unfold EventReader.handle. case_decide; [by rewrite lookup_nil|].
  assert (Hl : Forall (λ e, e = EventReader.Slept0 ∨
                 ∃ l, e = EventReader.ListenerScheduled l event)
                 (EventReader.send_to_listeners context event)).
  { unfold EventReader.send_to_listeners. repeat case_decide; [done..|].
    induction (EventReader.listeners context) as [|l' ls IH]; [done|].
    rewrite bind_cons. apply Forall_app. split; [|done].
    apply Forall_cons. split; [right; by eexists|]. apply Forall_cons. split; [by left|done]. }
  assert (Hh : Forall (λ e, ∃ c, e = EventReader.CallbackCalled c event)
                 (EventReader.send_to_handlers context event).2).
  { unfold EventReader.send_to_handlers. repeat case_decide; [done..|].
    destruct (EventReader.dict_get _ _) as [cbs|]; [|done]. cbn [snd].
    rewrite copy_event_id. apply Forall_fmap, Forall_forall. intros; simpl; eauto. }
  destruct (EventReader.send_to_handlers context event) as [handled to_handlers].
  cbn [snd] in Hh. set (ls := EventReader.send_to_listeners context event) in *.
  assert (Hf : Forall (λ e, EventReader.is_forward_effect e = true)
                 (if handled then [] else EventReader.forward event))
    by (destruct handled; repeat constructor).
  rewrite Forall_forall in Hl, Hh, Hf.
  intros Hi Hj.
  assert (Hi' : i < length ls).
  { destruct (decide (i < length ls)) as [|Hge]; [done|]. exfalso.
    rewrite lookup_app_r in Hi by lia. apply list_elem_of_lookup_2 in Hi.
    apply elem_of_app in Hi as [Hi|Hi].
    - by destruct (Hh _ Hi).
    - by specialize (Hf _ Hi). }
  assert (Hj' : ¬ j < length ls).
  { intros Hlt. rewrite lookup_app_l in Hj by done.
    apply list_elem_of_lookup_2 in Hj. destruct (Hl _ Hj) as [|[? ?]]; done. }
  split_and!; [lia| |].
  - rewrite lookup_app_l in Hi by done. apply list_elem_of_lookup_2 in Hi.
    destruct (Hl _ Hi) as [|[? ?]]; congruence.
  - rewrite lookup_app_r in Hj by lia. apply list_elem_of_lookup_2 in Hj.
    apply elem_of_app in Hj as [Hj|Hj].
    + destruct (Hh _ Hj). congruence.
    + by specialize (Hf _ Hj).
Qed.

Lemma handle_listeners_first_witness :
  0 < 2 ∧ evdev.mkInputEvent 0 0 1 30 1 = evdev.mkInputEvent 0 0 1 30 1
  ∧ evdev.mkInputEvent 0 0 1 30 1 = evdev.mkInputEvent 0 0 1 30 1.
Proof.
  apply (handle_listeners_first example_context (evdev.mkInputEvent 0 0 1 30 1) 0 2 5 0
           (evdev.mkInputEvent 0 0 1 30 1) (evdev.mkInputEvent 0 0 1 30 1));
    reflexivity.
Defined.

(** ** The axis to button handler: the trigger point and the latch *)








Lemma notify_recording_step answer (self : AbsToBtnHandler.t (list InputEvent))
    event source supress r :
  AbsToBtnHandler.notify (recording answer) self event source supress = Ok r →
  AbsToBtnHandler._input_event r.2 = AbsToBtnHandler._input_event self ∧
  ((r.2 = self) ∨
   (∃ e, AbsToBtnHandler._sub_handler r.2 = AbsToBtnHandler._sub_handler self ++ [e] ∧
         AbsToBtnHandler._active r.2 = negb (AbsToBtnHandler._active self) ∧
         value e = (if AbsToBtnHandler._active self then 0 else 1)%Z ∧
         type_and_code e = type_and_code event ∧ action e = Some as_key)).
Proof.
  unfold AbsToBtnHandler.notify. case_decide; [intros [= <-]; by auto|].
  destruct (AbsToBtnHandler.dict_item _ _) as [entries|]; [|done]. simpl.
  destruct (AbsToBtnHandler.absinfo_dict entries !! code event) as [info|]; [|done].
  simpl. set (tp := AbsToBtnHandler._trigger_point self _ _).
  set (ev := if decide (0 < value (AbsToBtnHandler._input_event self))%Z then _ else _).
  assert (Hev : ∃ b : bool, ev = modify event (if b then 1 else 0)%Z as_key).
  { subst ev. repeat case_decide; [by exists true|by exists false|
      by exists true|by exists false]. }
  destruct Hev as [b Hev]. rewrite Hev.
  assert (Hb : py_bool (value (modify event (if b then 1 else 0)%Z as_key)) = b)
    by by destruct b.
  rewrite Hb. case_decide as Hact; [intros [= <-]; by auto|].
  intros [= <-]. simpl. split; [done|]. right. eexists. split; [done|].
  destruct b, (AbsToBtnHandler._active self); done.
Qed.

(** X16: over any sequence of events that [notify] accepts, the
    sub-handler is notified of button events whose values alternate, the
    first one opposite to the latched state (a press for a new handler); each
    carries the type and code of the configured axis, and the latch changes
    with each of them. *)
Theorem abs_to_btn_alternates answer (self self' : AbsToBtnHandler.t (list InputEvent))
    (events : list InputEvent) (source : AbsToBtnHandler.InputDevice) :
  notify_all (recording answer) self events source = Ok self' →
  ∃ sent,
    AbsToBtnHandler._sub_handler self' = AbsToBtnHandler._sub_handler self ++ sent ∧
    alternating (AbsToBtnHandler._active self) (value <$> sent) ∧
    Forall (λ e, action e = Some as_key ∧
                 type_and_code e = type_and_code (AbsToBtnHandler._input_event self)) sent ∧
    AbsToBtnHandler._active self'
    = (if Nat.even (length sent) then AbsToBtnHandler._active self
       else negb (AbsToBtnHandler._active self)).
Proof.
  revert self. induction events as [|event events IH]; intros self Hrun; simpl in Hrun.
  { injection Hrun as <-. exists []. rewrite app_nil_r. by split_and!. }
  destruct (AbsToBtnHandler.notify _ self event source false) as [r|] eqn:Hn; [|done].
  simpl in Hrun.
  assert (Htc : r.2 ≠ self →
            type_and_code event = type_and_code (AbsToBtnHandler._input_event self)).
  { intros Hne. unfold AbsToBtnHandler.notify in Hn.
    case_decide as Htc; [injection Hn as <-; by destruct Hne|].
    destruct (decide (type_and_code event
                      = type_and_code (AbsToBtnHandler._input_event self)));
      [done|by destruct Htc]. }
  destruct (notify_recording_step _ _ _ _ _ _ Hn) as [Hie [Heq|(e & Hsub & Hact & Hval & Hetc & Hea)]].
  - rewrite Heq in Hrun. by apply IH.
  - destruct (IH _ Hrun) as (sent & Hs & Halt & Hall & Hfin).
    exists (e :: sent). split_and!.
    + rewrite Hs, Hsub, <-(assoc_L (++)). done.
    + rewrite fmap_cons. cbn [alternating]. split; [done|]. by rewrite <-Hact.
    + constructor.
      * split; [done|]. rewrite Hetc. apply Htc. intros Heq.
        rewrite Heq in Hact. by destruct (AbsToBtnHandler._active self).
      * eapply Forall_impl; [exact Hall|]. intros x [? ?]. split; [done|]. congruence.
    + rewrite Hfin, Hact. cbn [length]. rewrite Nat.even_succ, <-Nat.negb_even.
      destruct (Nat.even (length sent)), (AbsToBtnHandler._active self); done.
Qed.

Lemma abs_to_btn_alternates_witness :
  ∃ sent,
    AbsToBtnHandler._sub_handler example_sweep_result
    = AbsToBtnHandler._sub_handler example_axis_handler ++ sent ∧
    alternating (AbsToBtnHandler._active example_axis_handler) (value <$> sent) ∧
    Forall (λ e, action e = Some as_key ∧
                 type_and_code e
                 = type_and_code (AbsToBtnHandler._input_event example_axis_handler)) sent ∧
    AbsToBtnHandler._active example_sweep_result
    = (if Nat.even (length sent) then AbsToBtnHandler._active example_axis_handler
       else negb (AbsToBtnHandler._active example_axis_handler)).
Proof.
  apply (abs_to_btn_alternates (λ _, true) example_axis_handler example_sweep_result
           example_sweep example_stick).
  vm_compute. reflexivity.
Defined.

Lemma absinfo_dict_lookup_None entries (c : Z) :
  c ∉ entries.*1 → AbsToBtnHandler.absinfo_dict entries !! c = None.
Proof.
  unfold AbsToBtnHandler.absinfo_dict.
  assert (Hgen : ∀ d : gmap Z AbsToBtnHandler.AbsInfo, d !! c = None → c ∉ entries.*1 →
            foldl (λ d entry, <[entry.1 := entry.2]> d) d entries !! c = None).
  { induction entries as [|[k v] entries IH]; intros d Hd Hnin; simpl; [done|].
    rewrite fmap_cons in Hnin. apply not_elem_of_cons in Hnin as [Hne Hnin].
    apply IH; [|done]. simpl in *. by rewrite lookup_insert_ne. }
  intros Hnin. by apply Hgen.
Qed.

(** X17: on an event of the configured axis, [notify] raises [KeyError]
    when the source reports no [EV_ABS] capabilities, or none for the code of
    the event. *)
Theorem abs_to_btn_unreported_axis {S} (sub_notify : InputEvent → bool → S → bool * S)
    (self : AbsToBtnHandler.t S) (event : InputEvent)
    (source : AbsToBtnHandler.InputDevice) (supress : bool) :
  type_and_code event = type_and_code (AbsToBtnHandler._input_event self) →
  (∀ entries,
     AbsToBtnHandler.dict_item (AbsToBtnHandler.capabilities source) ecodes.EV_ABS
     = Ok entries → code event ∉ entries.*1) →
  AbsToBtnHandler.notify sub_notify self event source supress = Raise KeyError.
Proof.
  intros Htc Hcaps. unfold AbsToBtnHandler.notify.
  rewrite decide_False by (intros Hne; by apply Hne).
  destruct (AbsToBtnHandler.dict_item _ _) as [entries|e] eqn:Hd.
  - simpl. by rewrite absinfo_dict_lookup_None by by apply Hcaps.
  - unfold AbsToBtnHandler.dict_item in Hd.
    destruct (list_find _ _) as [[? [? ?]]|]; [done|]. by injection Hd as <-.
Qed.

Lemma abs_to_btn_unreported_axis_witness :
  AbsToBtnHandler.notify (recording (λ _, true)) example_axis_handler
    (mkInputEvent 0 0 3 0 200 None) (AbsToBtnHandler.mkInputDevice []) false
  = Raise KeyError.
Proof.
  apply (abs_to_btn_unreported_axis (recording (λ _, true)) example_axis_handler
           (mkInputEvent 0 0 3 0 200 None) (AbsToBtnHandler.mkInputDevice []) false).
  - reflexivity.
  - intros entries Hd. simpl in Hd. discriminate Hd.
Defined.

(** ** Macros: values and variables *)

Section value_facts.
Context (int_of_str : string → option Z) (float_of_str : string → option Q).




Lemma type_check_loop_None tys :
  Macro._type_check_loop int_of_str float_of_str Macro.VNone tys
  = if bool_decide (Macro.t_None ∈ tys) then Ok Macro.VNone else Raise MacroParsingError.
Proof.
  induction tys as [|ty tys IH]; cbn [Macro._type_check_loop].
  { rewrite bool_decide_eq_false_2; [done|]. apply not_elem_of_nil. }
  destruct ty; cbn [Macro._type_check_loop Macro.cast].
  - rewrite IH. apply (f_equal (λ b : bool, if b then _ else _)).
    apply bool_decide_ext. rewrite elem_of_cons.
    split; [by right|]. intros [?|?]; done.
  - rewrite IH. apply (f_equal (λ b : bool, if b then _ else _)).
    apply bool_decide_ext. rewrite elem_of_cons.
    split; [by right|]. intros [?|?]; done.
  - rewrite bool_decide_eq_true_2; [done|]. by left.
Qed.

Lemma resolve_unset (d : Macro.SharedDict) name tys :
  d !! name = None →
  Macro._resolve int_of_str float_of_str d (Macro.VVariable name) tys
  = if bool_decide (tys = [] ∨ Macro.t_None ∈ tys) then Ok Macro.VNone
    else Raise MacroParsingError.
Proof.
  intros Hd. unfold Macro._resolve, Macro.Variable_resolve, Macro.SharedDict_get.
  rewrite Hd. cbn [default]. destruct tys as [|ty tys].
  { by rewrite bool_decide_eq_true_2 by by left. }
  unfold Macro._type_check. rewrite type_check_loop_None.
  apply (f_equal (λ b : bool, if b then _ else _)).
  apply bool_decide_ext. split; [by right|]. intros [?|?]; done.
Qed.

(** X19: a variable that was never set resolves to [None], and a task that
    reads its parameter as a number ([repeat], [wait], [hold], [mouse],
    [wheel]) raises [MacroParsingError] on it before it writes anything or is
    suspended. *)
Theorem unset_variable_aborts (fuel : nat) (run_child : Macro.path → Macro.coro ())
    (self : Macro.path) (name : string) (task : Macro.Task) σ env :
  Macro.macro_variables σ !! name = None →
  numeric_task (Macro.VVariable name) task →
  Macro._resolve int_of_str float_of_str (Macro.macro_variables σ)
    (Macro.VVariable name) [] = Ok Macro.VNone ∧
  Macro.exec_task int_of_str float_of_str fuel run_child self task σ env
  = Some (Raise MacroParsingError, σ, env).
Proof.
  intros Hd Htask. split; [by rewrite resolve_unset|].
  assert (H1 : Macro._resolve int_of_str float_of_str (Macro.macro_variables σ)
                 (Macro.VVariable name) [Macro.t_int] = Raise MacroParsingError)
    by by rewrite resolve_unset.
  assert (H2 : Macro._resolve int_of_str float_of_str (Macro.macro_variables σ)
                 (Macro.VVariable name) [Macro.t_int; Macro.t_float]
               = Raise MacroParsingError)
    by by rewrite resolve_unset.
  destruct Htask as [[m ->]|[->|[->|[(c & v & ->)|(c & v & ->)]]]];
    cbn [Macro.exec_task]; unfold Macro.resolve, Macro.bind, Macro.get_variables;
    rewrite ?H1, ?H2; done.
Qed.
End value_facts.

Lemma unset_variable_aborts_witness :
  Macro._resolve no_number no_float ∅ (Macro.VVariable "n") [] = Ok Macro.VNone ∧
  Macro.exec_task no_number no_float 5 (Macro.run no_number no_float 10 5) []
    (Macro.TRepeat (Macro.VVariable "n") 0) (held key_a_macro) []
  = Some (Raise MacroParsingError, held key_a_macro, []).
Proof.
  apply (unset_variable_aborts no_number no_float 5 (Macro.run no_number no_float 10 5)
           [] "n" (Macro.TRepeat (Macro.VVariable "n") 0) (held key_a_macro) []).
  - reflexivity.
  - left. by exists 0.
Defined.

(** ** Macros: the latches of a tree *)

Lemma constructed_latched m : constructed m → latched false m.
Proof.
  unfold latched.
  induction 1 as [code|m task _ IH|m child _ IHm _ IHc].
  - apply every_macro_unfold. by split; [|constructor].
  - apply every_macro_unfold in IH as [? ?]. apply every_macro_unfold. by split.
  - apply every_macro_unfold in IHm as [? ?]. apply every_macro_unfold.
    split; [done|]. simpl. apply Forall_app. by split; [|repeat constructor].
Qed.

Lemma press_trigger_latched held m event :
  latched held m → latched true (Macro.press_trigger m event).
Proof.
  unfold latched.
  induction m as [c ts r p run k te cs IH] using Macro_ind. intros Hm.
  pose proof Hm as Hm'. apply every_macro_unfold in Hm' as [[Hr Hp] Hcs].
  simpl in Hr, Hp, Hcs. destruct r.
  - apply every_macro_unfold. simpl. split; [done|].
    rewrite Forall_fmap. rewrite Forall_forall in *. intros x Hx. simpl.
    apply IH; [done|]. by apply Hcs.
  - destruct held; [exact Hm|done].
Qed.

Lemma release_trigger_latched m : latched false (Macro.release_trigger m).
Proof.
  unfold latched. induction m as [c ts r p run k te cs IH] using Macro_ind.
  apply every_macro_unfold. simpl. split; [done|].
  rewrite Forall_fmap. eapply Forall_impl; [exact IH|]. done.
Qed.

Lemma latched_root held m : latched held m → Macro.is_holding m = held.
Proof.
  intros Hm. apply every_macro_unfold in Hm as [[Hr _] _].
  unfold Macro.is_holding. rewrite Hr. by destruct held.
Qed.

Lemma latched_get_at held p m x :
  latched held m → Macro.get_at p m = Some x → latched held x.
Proof.
  revert m. induction p as [|i p IH]; intros m Hm Hget; simpl in Hget.
  { by injection Hget as <-. }
  destruct (Macro.child_macros m !! i) as [y|] eqn:Hy; simpl in Hget; [|done].
  apply (IH y); [|done]. apply every_macro_unfold in Hm as [_ Hcs].
  rewrite Forall_forall in Hcs. apply Hcs. by eapply list_elem_of_lookup_2.
Qed.

Lemma apply_calls_latched m calls :
  latched false m →
  ∃ held, latched held (foldl Macro.apply_call m calls).
Proof.
  intros Hm. assert (Hgen : ∃ held, latched held m) by by exists false.
  clear Hm. revert m Hgen.
  induction calls as [|c calls IH]; intros m [held Hm]; simpl; [by exists held|].
  apply IH. destruct c as [event|]; simpl.
  - exists true. by eapply press_trigger_latched.
  - exists false. apply release_trigger_latched.
Qed.

(** X20: after any calls of [press_trigger] and [release_trigger] on a
    macro built by [__init__] and the [add_...] functions, every macro below
    it is holding exactly when it is, which is when the last call was a
    press. *)
Theorem trigger_reaches_every_macro (m : Macro.t) (calls : list Macro.trigger_call)
    (p : Macro.path) (x : Macro.t) :
  constructed m →
  Macro.get_at p (foldl Macro.apply_call m calls) = Some x →
  Macro.is_holding x = Macro.is_holding (foldl Macro.apply_call m calls) ∧
  Macro.is_holding x
  = match last calls with
    | Some (Macro.PressTrigger _) => true
    | _ => false
    end.
Proof.
  intros Hm Hget.
  destruct (apply_calls_latched m calls (constructed_latched m Hm)) as [held Hl].
  rewrite (latched_root held _ Hl), (latched_root held x (latched_get_at _ _ _ _ Hl Hget)).
  split; [done|]. clear Hget.
  destruct calls as [|c calls _] using rev_ind.
  { simpl in Hl. pose proof (constructed_latched m Hm) as Hl'.
    apply latched_root in Hl, Hl'. simpl. congruence. }
  rewrite last_snoc. rewrite foldl_app in Hl. simpl in Hl.
  destruct c as [event|]; simpl in Hl.
  - destruct (apply_calls_latched m calls (constructed_latched m Hm)) as [h Hl'].
    pose proof (press_trigger_latched h _ event Hl') as Hl''.
    apply latched_root in Hl, Hl''. congruence.
  - pose proof (release_trigger_latched (foldl Macro.apply_call m calls)) as Hl'.
    apply latched_root in Hl, Hl'. congruence.
Qed.

Lemma trigger_reaches_every_macro_witness :
  Macro.is_holding (Macro.press_trigger key_a_macro (evdev.mkInputEvent 0 0 1 44 1))
  = Macro.is_holding
      (foldl Macro.apply_call (hold_macro key_a_macro)
         [Macro.ReleaseTrigger; Macro.PressTrigger (evdev.mkInputEvent 0 0 1 44 1)]) ∧
  Macro.is_holding (Macro.press_trigger key_a_macro (evdev.mkInputEvent 0 0 1 44 1)) = true.
Proof.
  apply (trigger_reaches_every_macro (hold_macro key_a_macro)
           [Macro.ReleaseTrigger; Macro.PressTrigger (evdev.mkInputEvent 0 0 1 44 1)]
           [0] (Macro.press_trigger key_a_macro (evdev.mkInputEvent 0 0 1 44 1))).
  - repeat constructor.
  - reflexivity.
Defined.

Lemma release_trigger_idem m :
  Macro.release_trigger (Macro.release_trigger m) = Macro.release_trigger m.
Proof.
  induction m as [c ts r p run k te cs IH] using Macro_ind. simpl. f_equal.
  rewrite <-list_fmap_compose. apply list_fmap_ext.
  intros i x Hx. simpl. rewrite Forall_forall in IH. apply IH.
  by eapply list_elem_of_lookup_2.
Qed.

(** X21: a second [press_trigger] while the trigger is held changes
    nothing, [release_trigger] twice is [release_trigger] once, and the
    triggering event of the first press stays, also after the release. *)
Theorem second_press_ignored (m : Macro.t) (e1 e2 : evdev.InputEvent) :
  Macro.press_trigger (Macro.press_trigger m e1) e2 = Macro.press_trigger m e1 ∧
  Macro.release_trigger (Macro.release_trigger m) = Macro.release_trigger m ∧
  (Macro.is_holding m = false →
   Macro._triggering_event (Macro.press_trigger m e1) = Some e1 ∧
   Macro._triggering_event (Macro.release_trigger (Macro.press_trigger m e1)) = Some e1).
Proof.
  split_and!.
  - destruct m as [c ts r p run k te cs]. destruct r; simpl; done.
  - apply release_trigger_idem.
  - intros Hm. destruct m as [c ts r p run k te cs]. by destruct r.
Qed.

(** ** Macros: what every run keeps *)

Lemma bind_inv {A B} (c : Macro.coro A) (k : A → Macro.coro B) σ env res :
  Macro.bind c k σ env = Some res →
  ∃ r1 σ1 env1, c σ env = Some (r1, σ1, env1) ∧
    match r1 with
    | Ok a => k a σ1 env1 = Some res
    | Raise e => res = (Raise e, σ1, env1)
    end.
Proof.
  unfold Macro.bind. destruct (c σ env) as [[[[a|e] σ1] env1]|]; [| |done].
  - intros Hk. by exists (Ok a), σ1, env1.
  - intros [= <-]. by exists (Raise e), σ1, env1.
Qed.

Lemma keeps_bind {A B} (c : Macro.coro A) (k : A → Macro.coro B) :
  keeps c → (∀ a, keeps (k a)) → keeps (Macro.bind c k).
Proof.
  intros Hc Hk σ env r σ' env' Hrun.
  apply bind_inv in Hrun as (r1 & σ1 & env1 & Hc1 & Hrest).
  destruct (Hc _ _ _ _ _ Hc1) as (Hev1 & [d1 Hd1] & [u1 Hu1]).
  destruct r1 as [a|e].
  - destruct (Hk a _ _ _ _ _ Hrest) as (Hev2 & [d2 Hd2] & [u2 Hu2]).
    split_and!; [by eapply evolves_trans| |].
    + exists (d1 ++ d2). by rewrite Hd2, Hd1, <-(assoc_L (++)).
    + exists (u1 ++ u2). by rewrite Hu1, Hu2, <-(assoc_L (++)).
  - injection Hrest as -> -> ->. split_and!; [done|by eauto..].
Qed.

Lemma keeps_pure {A} (c : Macro.coro A) :
  (∀ σ env, ∃ r, c σ env = Some (r, σ, env)) → keeps c.
Proof.
  intros Hc σ env r σ' env' Hrun. destruct (Hc σ env) as [r' Hr'].
  rewrite Hr' in Hrun. injection Hrun as <- <- <-.
  split_and!; [apply evolves_refl|by exists []; rewrite app_nil_r|by exists []].
Qed.

Lemma keeps_ret {A} (a : A) : keeps (Macro.ret a).
Proof. apply keeps_pure. intros; by eexists. Qed.

Lemma keeps_raise {A} e : keeps (Macro.raise (A := A) e).
Proof. apply keeps_pure. intros; by eexists. Qed.

Lemma keeps_lift {A} (r : result A) : keeps (Macro.lift r).
Proof. destruct r; [apply keeps_ret|apply keeps_raise]. Qed.

Lemma keeps_get_variables : keeps Macro.get_variables.
Proof. apply keeps_pure. intros; by eexists. Qed.

Lemma keeps_get_self p : keeps (Macro.get_self p).
Proof.
  intros σ env r σ' env'. unfold Macro.get_self.
  destruct (Macro.get_at p (Macro.root σ)); [|done]. intros [= <- <- <-].
  split_and!; [apply evolves_refl|by exists []; rewrite app_nil_r|by exists []].
Qed.

Lemma keeps_handler ty c v : keeps (Macro.handler ty c v).
Proof.
  intros σ env r σ' env' [= <- <- <-]. simpl.
  split_and!; [apply evolves_refl|by eexists|by exists []].
Qed.

Lemma keeps_set_variable name v : keeps (Macro.set_variable name v).
Proof.
  intros σ env r σ' env' [= <- <- <-]. simpl.
  split_and!; [apply evolves_refl|by exists []; rewrite app_nil_r|by exists []].
Qed.

Lemma keeps_modify_self p f : (∀ x, evolves x (f x)) → keeps (Macro.modify_self p f).
Proof.
  intros Hf σ env r σ' env' [= <- <- <-]. simpl.
  split_and!; [by apply evolves_update_at|by exists []; rewrite app_nil_r|by exists []].
Qed.

Lemma keeps_sleep : keeps Macro.sleep.
Proof.
  intros σ env r σ' env'. unfold Macro.sleep. destruct env as [|calls env].
  - intros [= <- <- <-].
    split_and!; [apply evolves_refl|by exists []; rewrite app_nil_r|by exists []].
  - intros [= <- <- <-]. simpl.
    split_and!; [apply evolves_apply_calls|by exists []; rewrite app_nil_r|by exists [calls]].
Qed.

(** [await_release] wakes at the first suspension during which the trigger
    is released. *)
Lemma await_release_first env σ r σ' env' :
  Macro.await_release env σ = Some (r, σ', env') →
  r = Ok () ∧
  ∃ pre calls, env = pre ++ calls :: env' ∧
    Forall (λ cs, Macro.ReleaseTrigger ∉ cs) pre ∧ Macro.ReleaseTrigger ∈ calls ∧
    σ' = resumed (S (length pre)) σ env.
Proof.
  revert σ. induction env as [|calls env IH]; intros σ Hrun; simpl in Hrun; [done|].
  case_bool_decide as Hrel.
  - injection Hrun as <- <- <-. split; [done|]. exists [], calls. by split_and!.
  - destruct (IH _ Hrun) as (-> & pre & calls' & -> & Hpre & Hin & ->).
    split; [done|]. exists (calls :: pre), calls'. split_and!; [done|by constructor|done|].
    done.
Qed.

Lemma resumed_root_written n σ env :
  evolves (Macro.root σ) (Macro.root (resumed n σ env)) ∧
  Macro.written (resumed n σ env) = Macro.written σ ∧
  Macro.macro_variables (resumed n σ env) = Macro.macro_variables σ.
Proof.
  unfold resumed. generalize (take n env) as l. intros l. revert σ.
  induction l as [|calls l IH]; intros σ; simpl; [by split_and!; [apply evolves_refl|..]|].
  destruct (IH (Macro.apply_calls calls σ)) as (Hev & Hw & Hv). simpl in *.
  split_and!; [|done..]. eapply evolves_trans; [apply evolves_apply_calls|done].
Qed.

Lemma keeps_await_release : keeps (λ σ env, Macro.await_release env σ).
Proof.
  intros σ env r σ' env' Hrun.
  apply await_release_first in Hrun as (-> & pre & calls & -> & _ & _ & ->).
  destruct (resumed_root_written (S (length pre)) σ (pre ++ calls :: env'))
    as (Hev & Hw & _).
  split_and!; [done|exists []; by rewrite app_nil_r|].
  exists (pre ++ [calls]). by rewrite <-(assoc_L (++)).
Qed.

Lemma keeps_wait_release p : keeps (Macro.wait_release p).
Proof.
  unfold Macro.wait_release. apply keeps_bind; [apply keeps_get_self|].
  intros m. destruct (Macro._trigger_release_event m);
    [apply keeps_ret|apply keeps_await_release].
Qed.

Section keeps_facts.
Context (int_of_str : string → option Z) (float_of_str : string → option Q).
Context (ms : Z).

Lemma keeps_resolve v tys : keeps (Macro.resolve int_of_str float_of_str v tys).
Proof.
  unfold Macro.resolve. apply keeps_bind; [apply keeps_get_variables|].
  intros d. apply keeps_lift.
Qed.

Lemma keeps_keycode_pause p : keeps (Macro._keycode_pause p).
Proof.
  unfold Macro._keycode_pause. apply keeps_bind; [apply keeps_get_self|].
  intros m. destruct (Macro.keystroke_sleep_ms m); [apply keeps_sleep|apply keeps_raise].
Qed.

Lemma keeps_while_holding n p body : keeps body → keeps (Macro.while_holding n p body).
Proof.
  intros Hbody. induction n as [|n IH]; [by intros ? ? ? ? ? ?|].
  cbn [Macro.while_holding]. apply keeps_bind; [apply keeps_get_self|].
  intros m. destruct (Macro.is_holding m); [|apply keeps_ret].
  apply keeps_bind; [done|]. by intros _.
Qed.

Lemma keeps_for_range n body : keeps body → keeps (Macro.for_range n body).
Proof.
  intros Hbody. induction n as [|n IH]; [apply keeps_ret|].
  cbn [Macro.for_range]. apply keeps_bind; [done|]. by intros _.
Qed.

Lemma keeps_run_opt run_child p macro :
  (∀ p, keeps (run_child p)) → keeps (Macro.run_opt run_child p macro).
Proof. intros Hrun. destruct macro; [apply Hrun|apply keeps_ret]. Qed.

Lemma keeps_run_tasks exec ts : (∀ task, keeps (exec task)) → keeps (Macro.run_tasks exec ts).
Proof.
  intros Hexec. induction ts as [|task ts IH]; [apply keeps_ret|].
  intros σ env r σ' env' Hrun. simpl in Hrun.
  destruct (exec task σ env) as [[[[[]|e] σ1] env1]|] eqn:Htask; [| |done].
  - destruct (Hexec _ _ _ _ _ _ Htask) as (Hev1 & [d1 Hd1] & [u1 Hu1]).
    destruct (IH _ _ _ _ _ Hrun) as (Hev2 & [d2 Hd2] & [u2 Hu2]).
    split_and!; [by eapply evolves_trans| |].
    + exists (d1 ++ d2). by rewrite Hd2, Hd1, <-(assoc_L (++)).
    + exists (u1 ++ u2). by rewrite Hu1, Hu2, <-(assoc_L (++)).
  - injection Hrun as <- <- <-. by apply (Hexec _ _ _ _ _ _ Htask).
Qed.

Ltac keeps_step :=
  first [ apply keeps_handler | apply keeps_keycode_pause | apply keeps_sleep
        | apply keeps_resolve | apply keeps_lift | apply keeps_wait_release
        | apply keeps_get_variables | apply keeps_set_variable | apply keeps_ret
        | apply keeps_raise ].

Lemma keeps_exec_task fuel run_child p task :
  (∀ p, keeps (run_child p)) →
  keeps (Macro.exec_task int_of_str float_of_str fuel run_child p task).
Proof.
  intros Hrun.
  destruct task; cbn [Macro.exec_task];
    repeat first
      [ keeps_step
      | apply Hrun
      | apply keeps_run_opt; [exact Hrun]
      | apply keeps_while_holding
      | apply keeps_for_range
      | apply keeps_bind; [|intros ?]
      | match goal with |- keeps (if ?b then _ else _) => destruct b end ].
Qed.

Lemma keeps_run fuel : ∀ p, keeps (Macro.run int_of_str float_of_str ms fuel p).
Proof.
  induction fuel as [|fuel IH]; intros p; [by intros ? ? ? ? ? ?|].
  cbn [Macro.run]. apply keeps_bind; [apply keeps_get_self|].
  intros m. destruct (Macro.running m); [apply keeps_ret|].
  apply keeps_bind; [apply keeps_modify_self, evolves_set_keystroke_sleep_ms|intros _].
  apply keeps_bind; [apply keeps_modify_self, evolves_set_running|intros _].
  apply keeps_bind; [|intros _; apply keeps_modify_self, evolves_set_running].
  apply keeps_run_tasks. intros task. by apply keeps_exec_task.
Qed.

(** X22: a run that completes returns without an exception, whatever its
    tasks raise; it leaves the tasks and the shape of the macro tree as they
    were, only adds to what was written, and uses up the schedule from its
    front. *)
Theorem run_keeps (fuel : nat) (self : Macro.path) σ env r σ' env' :
  Macro.run int_of_str float_of_str ms fuel self σ env = Some (r, σ', env') →
  r = Ok () ∧
  evolves (Macro.root σ) (Macro.root σ') ∧
  (∃ d, Macro.written σ' = Macro.written σ ++ d) ∧
  (∃ used, env = used ++ env').
Proof.
  intros Hrun. split; [by eapply run_ok|]. by eapply keeps_run.
Qed.

End keeps_facts.

Lemma run_keeps_witness :
  (run_result example_run).1.1 = Ok () ∧
  evolves (Macro.root (held key_a_macro)) (Macro.root (run_result example_run).1.2) ∧
  (∃ d, Macro.written (run_result example_run).1.2
        = Macro.written (held key_a_macro) ++ d) ∧
  (∃ used, [[]; []; []; [Macro.ReleaseTrigger]; []] = used ++ (run_result example_run).2).
Proof.
  apply (run_keeps no_number no_float 10 6 [] (held key_a_macro)
           [[]; []; []; [Macro.ReleaseTrigger]; []]).
  vm_compute. reflexivity.
Defined.


(** ** Macros: single tasks *)


Lemma keycode_pause_ready p σ env :
  ready_at p (Macro.root σ) →
  Macro._keycode_pause p σ env = Some (Ok (), resumed 1 σ env, drop 1 env).
Proof.
  intros (x & Hx & [k Hk]). unfold Macro._keycode_pause, Macro.bind, Macro.get_self.
  rewrite Hx, Hk. unfold Macro.sleep, resumed. by destruct env.
Qed.

Lemma ready_resumed p n σ env :
  ready_at p (Macro.root σ) → ready_at p (Macro.root (resumed n σ env)).
Proof.
  intros Hr. eapply evolves_ready; [|exact Hr]. apply resumed_root_written.
Qed.

Lemma resumed_write n σ env e :
  resumed n (Macro.mkState (Macro.root σ) (Macro.macro_variables σ) (Macro.written σ ++ e))
    env
  = Macro.mkState (Macro.root (resumed n σ env)) (Macro.macro_variables σ)
      (Macro.written σ ++ e).
Proof.
  unfold resumed. generalize (take n env) as l. intros l.
  destruct σ as [root vars w]. cbn [Macro.root Macro.macro_variables Macro.written].
  generalize (w ++ e) as w2. revert root w.
  induction l as [|cs l IH]; intros root w w2; simpl; [done|].
  unfold Macro.apply_calls at 2 4. cbn [Macro.root Macro.macro_variables Macro.written].
  apply IH.
Qed.

Lemma resumed_resumed n k σ env :
  resumed k (resumed n σ env) (drop n env) = resumed (n + k) σ env.
Proof.
  unfold resumed. rewrite <-foldl_app. f_equal.
  rewrite take_drop_commute. rewrite <-(take_drop n (take (n + k) env)) at 2.
  f_equal. rewrite take_take. f_equal. lia.
Qed.

Section task_facts.
Context (int_of_str : string → option Z) (float_of_str : string → option Q).


(** X25: [repeat(n, macro)] with a number [n] completes exactly when [n]
    runs of the child complete one after the other, none for [n <= 0]. *)
Theorem repeat_runs_n_times (fuel : nat) (run_child : Macro.path → Macro.coro ())
    (self : Macro.path) (n : Z) (macro : nat) σ env σ' env' :
  Macro.exec_task int_of_str float_of_str fuel run_child self
    (Macro.TRepeat (Macro.VInt n) macro) σ env = Some (Ok (), σ', env')
  ↔ rounds (run_child (self ++ [macro])) (Z.to_nat n) σ env σ' env'.
Proof.
  cbn [Macro.exec_task].
  unfold Macro.resolve, Macro.bind at 1 2, Macro.get_variables, Macro.lift, Macro._resolve,
    Macro.ret.
  unfold Macro.bind at 1. cbn [Macro.as_int].
  generalize (Z.to_nat n) as k. intros k. revert σ env.
  induction k as [|k IH]; intros σ env; cbn [Macro.for_range].
  - split.
    + intros [= <- <-]. constructor.
    + inversion 1. done.
  - split.
    + intros Hrun. apply bind_inv in Hrun as (r1 & σ1 & env1 & Hbody & Hrest).
      destruct r1 as [[]|e]; [|done]. econstructor; [done|]. by apply IH.
    + inversion 1 as [|? ? ? σ1 env1 ? ? Hbody Hrest]; subst.
      unfold Macro.bind. rewrite Hbody. by apply IH.
Qed.

(** X26: after [set(name, value)] with a value that is no variable,
    [$name] resolves to the value; the resolution of every other name is as
    before, and neither the macro nor what was written changes. *)
Theorem set_then_resolve (fuel : nat) (run_child : Macro.path → Macro.coro ())
    (self : Macro.path) (variable : string) (value : Macro.pyvalue) σ env r σ' env' :
  (∀ name, value ≠ Macro.VVariable name) →
  Macro.exec_task int_of_str float_of_str fuel run_child self
    (Macro.TSet variable value) σ env = Some (r, σ', env') →
  r = Ok () ∧ env' = env ∧
  Macro.root σ' = Macro.root σ ∧ Macro.written σ' = Macro.written σ ∧
  Macro._resolve int_of_str float_of_str (Macro.macro_variables σ')
    (Macro.VVariable variable) [] = Ok value ∧
  ∀ other allowed_types, other ≠ variable →
    Macro._resolve int_of_str float_of_str (Macro.macro_variables σ')
      (Macro.VVariable other) allowed_types
    = Macro._resolve int_of_str float_of_str (Macro.macro_variables σ)
        (Macro.VVariable other) allowed_types.
Proof.
  intros Hlit. rewrite exec_set. intros [= <- <- <-]. cbn [Macro.root Macro.written].
  split_and!; [done..| |].
  - unfold Macro._resolve, Macro.Variable_resolve, Macro.SharedDict_get.
    cbn [Macro.macro_variables]. by rewrite lookup_insert_eq.
  - intros other tys Hne.
    unfold Macro._resolve, Macro.Variable_resolve, Macro.SharedDict_get.
    cbn [Macro.macro_variables]. by rewrite lookup_insert_ne.
Qed.

(** X27: [key(code)], in a macro that has read the pause between
    keystrokes, writes the press and the release of the code, in this order,
    and is suspended twice. *)
Theorem key_writes_press_release (fuel : nat) (run_child : Macro.path → Macro.coro ())
    (self : Macro.path) (code : Z) σ env :
  ready_at self (Macro.root σ) →
  Macro.exec_task int_of_str float_of_str fuel run_child self (Macro.TKey code) σ env
  = Some (Ok (),
          Macro.mkState (Macro.root (resumed 2 σ env)) (Macro.macro_variables σ)
            (Macro.written σ ++ [press code; release code]),
          drop 2 env).
Proof.
  intros Hready. cbn [Macro.exec_task].
  unfold Macro.bind at 1. cbn [Macro.handler].
  set (σ1 := Macro.mkState _ _ (Macro.written σ ++ [_])).
  unfold Macro.bind at 1. rewrite keycode_pause_ready by done. cbv beta iota.
  unfold Macro.bind at 1. cbn [Macro.handler].
  set (σ2 := Macro.mkState _ _ (Macro.written (resumed 1 σ1 env) ++ [_])).
  assert (Hσ1 : resumed 1 σ1 env
    = Macro.mkState (Macro.root (resumed 1 σ env)) (Macro.macro_variables σ)
        (Macro.written σ ++ [press code])) by apply resumed_write.
  assert (Hσ2 : σ2 = Macro.mkState (Macro.root (resumed 1 σ env)) (Macro.macro_variables σ)
                       (Macro.written (resumed 1 σ env) ++ [press code; release code])).
  { subst σ2. rewrite Hσ1. cbn [Macro.root Macro.macro_variables Macro.written].
    destruct (resumed_root_written 1 σ env) as (_ & -> & _).
    by rewrite <-(assoc_L (++)). }
  rewrite keycode_pause_ready by (rewrite Hσ2; by apply ready_resumed).
  rewrite Hσ2. f_equal. f_equal; [|by rewrite drop_drop].
  f_equal. destruct (resumed_root_written 1 σ env) as (_ & Hw & Hv).
  rewrite <-Hv at 1. rewrite resumed_write, resumed_resumed, Hv, Hw. done.
Qed.
End task_facts.


Lemma set_then_resolve_witness :
  Ok () = Ok () ∧ @nil (list Macro.trigger_call) = [] ∧
  Macro.root (Macro.mkState (Macro.__init__ None) (<["a" := Macro.VInt 5]> ∅) [])
  = Macro.root (Macro.mkState (Macro.__init__ None) ∅ []) ∧
  Macro.written (Macro.mkState (Macro.__init__ None) (<["a" := Macro.VInt 5]> ∅) [])
  = Macro.written (Macro.mkState (Macro.__init__ None) ∅ []) ∧
  Macro._resolve no_number no_float
    (Macro.macro_variables (Macro.mkState (Macro.__init__ None) (<["a" := Macro.VInt 5]> ∅) []))
    (Macro.VVariable "a") [] = Ok (Macro.VInt 5) ∧
  ∀ other allowed_types, other ≠ "a" →
    Macro._resolve no_number no_float
      (Macro.macro_variables
         (Macro.mkState (Macro.__init__ None) (<["a" := Macro.VInt 5]> ∅) []))
      (Macro.VVariable other) allowed_types
    = Macro._resolve no_number no_float
        (Macro.macro_variables (Macro.mkState (Macro.__init__ None) ∅ []))
        (Macro.VVariable other) allowed_types.
Proof.
  apply (set_then_resolve no_number no_float 5 (Macro.run no_number no_float 10 5) []
           "a" (Macro.VInt 5) (Macro.mkState (Macro.__init__ None) ∅ []) []).
  - intros name Hn. discriminate Hn.
  - reflexivity.
Defined.

Lemma key_writes_press_release_witness :
  Macro.exec_task no_number no_float 5 (Macro.run no_number no_float 10 5) []
    (Macro.TKey 30) (started 10 [] (held key_a_macro)) [[Macro.ReleaseTrigger]; []; []]
  = Some (Ok (),
          Macro.mkState
            (Macro.root (resumed 2 (started 10 [] (held key_a_macro))
                           [[Macro.ReleaseTrigger]; []; []]))
            (Macro.macro_variables (started 10 [] (held key_a_macro)))
            (Macro.written (started 10 [] (held key_a_macro)) ++ [press 30; release 30]),
          drop 2 [[Macro.ReleaseTrigger]; []; []]).
Proof.
  apply (key_writes_press_release no_number no_float 5 (Macro.run no_number no_float 10 5)
           [] 30 (started 10 [] (held key_a_macro)) [[Macro.ReleaseTrigger]; []; []]).
  eexists. split; [reflexivity|]. by eexists.
Defined.



Section modify_facts.
Context (int_of_str : string → option Z) (float_of_str : string → option Q).
Context (ms : Z).

End modify_facts.


(** X29: [add_wheel] accepts the speed 0; its task then writes one wheel
    event and raises [ZeroDivisionError] when the trigger is held, and does
    nothing when it is not. *)
Theorem wheel_speed_zero (int_of_str : string → option Z) (float_of_str : string → option Q)
    (self m : Macro.t) (direction : string) :
  Macro.add_wheel int_of_str float_of_str self direction (Macro.VInt 0) = Ok m →
  ∃ code value,
    Macro.tasks m = Macro.tasks self ++ [Macro.TWheel code value (Macro.VInt 0)] ∧
    ∀ fuel run_child p x σ env,
      Macro.get_at p (Macro.root σ) = Some x →
      Macro.exec_task int_of_str float_of_str (S fuel) run_child p
        (Macro.TWheel code value (Macro.VInt 0)) σ env
      = if Macro.is_holding x
        then Some (Raise ZeroDivisionError,
                   Macro.mkState (Macro.root σ) (Macro.macro_variables σ)
                     (Macro.written σ
                      ++ [(Macro.VInt ecodes.EV_REL, Macro.VInt code, Macro.VInt value)]),
                   env)
        else Some (Ok (), σ, env).
Proof.
  unfold Macro.add_wheel. cbn [Macro._type_check Macro._type_check_loop Macro.cast].
  cbn [mbind result_bind].
  destruct (Macro.wheel_direction direction) as [[code value]|] eqn:Hd; [|done].
  intros [= <-]. exists code, value. split; [done|].
  intros fuel run_child p x σ env Hx. cbn [Macro.exec_task].
  unfold Macro.resolve, Macro.bind at 1 2, Macro.get_variables, Macro.lift, Macro._resolve,
    Macro.ret.
  cbn [Macro.while_holding]. unfold Macro.bind at 1, Macro.get_self. rewrite Hx.
  destruct (Macro.is_holding x); [|done]. reflexivity.
Qed.

Lemma wheel_speed_zero_witness :
  ∃ code value,
    Macro.tasks (Macro.tasks_append (Macro.TWheel 8 1 (Macro.VInt 0)) (Macro.__init__ None))
    = Macro.tasks (Macro.__init__ None) ++ [Macro.TWheel code value (Macro.VInt 0)] ∧
    ∀ fuel run_child p x σ env,
      Macro.get_at p (Macro.root σ) = Some x →
      Macro.exec_task no_number no_float (S fuel) run_child p
        (Macro.TWheel code value (Macro.VInt 0)) σ env
      = if Macro.is_holding x
        then Some (Raise ZeroDivisionError,
                   Macro.mkState (Macro.root σ) (Macro.macro_variables σ)
                     (Macro.written σ
                      ++ [(Macro.VInt ecodes.EV_REL, Macro.VInt code, Macro.VInt value)]),
                   env)
        else Some (Ok (), σ, env).
Proof.
  apply (wheel_speed_zero no_number no_float (Macro.__init__ None)
           (Macro.tasks_append (Macro.TWheel 8 1 (Macro.VInt 0)) (Macro.__init__ None)) "up").
  reflexivity.
Defined.

(** ** Macros: the merged capabilities *)

Lemma MacroCapabilities_ind (P : MacroCapabilities.t → Prop) :
  (∀ own children, Forall P children → P (MacroCapabilities.mkMacro own children)) → ∀ m, P m.
Proof.
  intros Hstep. fix IH 1. intros [own cs].
  apply Hstep. induction cs as [|m cs IHcs]; constructor; [apply IH|apply IHcs].
Qed.

Lemma update_lookup (caps mc : gmap Z (gset Z)) (ev_type : Z) :
  MacroCapabilities.update caps mc !! ev_type
  = match mc !! ev_type with
    | Some codes => Some (default ∅ (caps !! ev_type) ∪ codes)
    | None => caps !! ev_type
    end.
Proof.
  unfold MacroCapabilities.update.
  apply (map_fold_weak_ind
    (λ r m, r !! ev_type
            = match m !! ev_type with
              | Some codes => Some (default ∅ (caps !! ev_type) ∪ codes)
              | None => caps !! ev_type
              end)).
  - by rewrite lookup_empty.
  - intros i x m r Hi IH. destruct (decide (i = ev_type)) as [->|Hne].
    + rewrite !lookup_insert_eq. rewrite Hi in IH. by rewrite IH.
    + by rewrite !lookup_insert_ne.
Qed.

Lemma update_elem_of (caps mc : gmap Z (gset Z)) (ev_type code : Z) :
  code ∈ default ∅ (MacroCapabilities.update caps mc !! ev_type)
  ↔ code ∈ default ∅ (caps !! ev_type) ∨ code ∈ default ∅ (mc !! ev_type).
Proof.
  rewrite update_lookup.
  destruct (mc !! ev_type) as [codes|]; simpl.
  - by rewrite elem_of_union.
  - rewrite elem_of_empty. tauto.
Qed.

Lemma get_capabilities_unfold own children :
  MacroCapabilities.get_capabilities (MacroCapabilities.mkMacro own children)
  = foldl (λ capabilities macro, MacroCapabilities.update capabilities (MacroCapabilities.get_capabilities macro))
      own children.
Proof. done. Qed.

Lemma foldl_capabilities_elem_of (children : list MacroCapabilities.t) (acc : gmap Z (gset Z))
    (ev_type code : Z) :
  code ∈ default ∅ (foldl (λ capabilities macro,
                              MacroCapabilities.update capabilities (MacroCapabilities.get_capabilities macro))
                      acc children !! ev_type)
  ↔ code ∈ default ∅ (acc !! ev_type) ∨
    ∃ macro, macro ∈ children ∧ code ∈ default ∅ (MacroCapabilities.get_capabilities macro !! ev_type).
Proof.
  revert acc. induction children as [|m children IH]; intros acc; simpl.
  { split; [by left|]. intros [?|(? & ?%not_elem_of_nil & _)]; done. }
  rewrite IH, update_elem_of. split.
  - intros [[?|?]|(x & ? & ?)]; [by left| |].
    + right. exists m. split; [by left|done].
    + right. exists x. split; [by right|done].
  - intros [?|(x & Hx & ?)]; [by left; left|].
    apply elem_of_cons in Hx as [->|Hx]; [by left; right|].
    right. by exists x.
Qed.

(** X30: [get_capabilities] returns, under every event type, exactly the
    codes that the macro or some macro below it has among its own
    capabilities of that type. *)
Theorem get_capabilities_union (self : MacroCapabilities.t) (ev_type code : Z) :
  code ∈ default ∅ (MacroCapabilities.get_capabilities self !! ev_type) ↔ has_capability ev_type code self.
Proof.
  induction self as [own children IH] using MacroCapabilities_ind.
  rewrite get_capabilities_unfold, foldl_capabilities_elem_of. split.
  - intros [Hown|(m & Hm & Hc)].
    + by apply has_capability_own.
    + apply (has_capability_child _ _ _ m); [done|].
      rewrite Forall_forall in IH. by apply IH.
  - inversion 1 as [? Hown|? m Hm Hc]; subst; [by left|].
    right. exists m. split; [done|]. rewrite Forall_forall in IH. by apply IH.
Qed.
